(** * util.c: timer delay, push buttons, shaft encoder and stepper motor
      of the ATmega128 utility module

    A shallow embedding of [ObjectCounting_SizeDiscrimination/util.c].

    The module talks to memory-mapped I/O registers and to one global
    that an interrupt handler increments.  The embedding therefore
    threads a [world] (registers, the I flag, the two program variables,
    and a ghost log of every access main code makes and every run of the
    handler) through a small monad, and takes the behaviour of the
    outside (when compare-match interrupts arrive, what level the port C
    pins have) from an oracle [env].  Interrupts are served at the
    volatile accesses of main code, any number of them at each access if
    the environment says so: the handler only touches [timer2_tick], so
    main code cannot tell an interrupt between two accesses from one at
    the second.  The AVR is an 8-bit machine: an access to the 16-bit
    [timer2_tick] is two byte accesses, and the handler can run between
    them.  Loops that the C code does not bound (the busy wait,
    the step loop) take fuel; running out of fuel is the outcome [Spin],
    kept apart from a normal return and from C undefined behaviour. *)

From Stdlib Require Import ZArith List Bool Lia.
Import ListNotations.
Local Open Scope Z_scope.

(** ** Integer types of avr-gcc *)

(** [unsigned char] and the 8-bit I/O registers. *)
Definition uint8 (x : Z) : Z := x mod 256.

(** [unsigned int] is 16 bits wide on the AVR. *)
Definition uint16 (x : Z) : Z := x mod 65536.

(** [char] (signed with avr-gcc's default ABI). *)
Definition int8 (x : Z) : Z :=
  let y := x mod 256 in if y <? 128 then y else y - 256.

(** Largest [int] (16 bits, two's complement). *)
Definition INT_MAX : Z := 32767.

(** The two bytes of an [unsigned int], and the value two bytes make. *)
Definition lo8 (x : Z) : Z := x mod 256.
Definition hi8 (x : Z) : Z := (x / 256) mod 256.
Definition word (hi lo : Z) : Z := hi * 256 + lo.

(** ** Registers, program variables, events *)

(** The I/O registers the module touches. *)
Inductive reg : Type :=
| OCR2 | TCCR2 | TIMSK | DDRC | PORTC | PINC | DDRE | PORTE.

Definition reg_eqb (a b : reg) : bool :=
  match a, b with
  | OCR2, OCR2 | TCCR2, TCCR2 | TIMSK, TIMSK | DDRC, DDRC
  | PORTC, PORTC | PINC, PINC | DDRE, DDRE | PORTE, PORTE => true
  | _, _ => false
  end.

(** The variables of the module that outlive a call: the global
    [timer2_tick] and the [static] local [old_value] of
    [read_shaft_encoder]. *)
Inductive var : Type := Var_timer2_tick | Var_old_value.

(** Ghost log entries, oldest first. *)
Inductive event : Type :=
| EvIn (r : reg) (v : Z)      (* main code read [v] from I/O register [r] *)
| EvOut (r : reg) (v : Z)     (* main code stored [v] to I/O register [r] *)
| EvGet (x : var) (v : Z)     (* main code read [v] from variable [x] *)
| EvSet (x : var) (v : Z)     (* main code stored [v] to variable [x] *)
| EvIsr                       (* one run of the TIMER2_COMP handler *)
| EvWait (t : Z).             (* [wait_ms t] was entered *)

Record world : Type := mkWorld {
  io : reg -> Z;              (* contents of the I/O registers *)
  iflag : bool;               (* global interrupt enable (SREG bit I) *)
  timer2_tick : Z;            (* volatile unsigned int timer2_tick *)
  old_value : Z;              (* static unsigned char old_value *)
  now : nat;                  (* ghost: volatile accesses made so far *)
  log : list event            (* ghost: what happened, oldest first *)
}.

(** What the outside does: [irqs k] compare-match interrupts are pending
    when main code makes its [k]-th volatile access (they are served
    there if the interrupt is enabled), and [pins k] is the level on the
    port C pins at that access. *)
Record env : Type := mkEnv {
  irqs : nat -> nat;
  pins : nat -> Z
}.

Definition upd (f : reg -> Z) (r : reg) (v : Z) : reg -> Z :=
  fun r' => if reg_eqb r r' then v else f r'.

Definition set_io (w : world) (r : reg) (v : Z) : world :=
  mkWorld (upd (io w) r v) (iflag w) (timer2_tick w) (old_value w) (now w)
          (log w ++ [EvOut r v]).

Definition put_tick (w : world) (v : Z) : world :=
  mkWorld (io w) (iflag w) v (old_value w) (now w) (log w).

Definition set_old (w : world) (v : Z) : world :=
  mkWorld (io w) (iflag w) (timer2_tick w) v (now w)
          (log w ++ [EvSet Var_old_value v]).

Definition set_iflag (w : world) (b : bool) : world :=
  mkWorld (io w) b (timer2_tick w) (old_value w) (now w) (log w).

Definition note (w : world) (e : event) : world :=
  mkWorld (io w) (iflag w) (timer2_tick w) (old_value w) (now w)
          (log w ++ [e]).

Definition advance (w : world) : world :=
  mkWorld (io w) (iflag w) (timer2_tick w) (old_value w) (S (now w)) (log w).

(** State after reset, as far as the C code fixes it: globals are zeroed,
    [old_value] has its initialiser, interrupts are off.  The register
    contents are left to the caller. *)
Definition power_on (regs : reg -> Z) : world :=
  mkWorld regs false 0 192 0%nat [].

(** ** Outcomes and the monad *)

Inductive outcome (A : Type) : Type :=
| Done (a : A) (w : world)    (* the call returned [a] *)
| Spin (w : world)            (* fuel ran out inside a loop *)
| Undef (w : world).          (* signed overflow: undefined behaviour *)
Arguments Done {A} a w.
Arguments Spin {A} w.
Arguments Undef {A} w.

Definition world_of {A} (o : outcome A) : world :=
  match o with Done _ w | Spin w | Undef w => w end.

Definition returned {A} (o : outcome A) : bool :=
  match o with Done _ _ => true | _ => false end.

Definition M (A : Type) : Type := world -> outcome A.

Definition ret {A} (a : A) : M A := fun w => Done a w.

Definition bind {A B} (m : M A) (k : A -> M B) : M B :=
  fun w => match m w with
           | Done a w' => k a w'
           | Spin w' => Spin w'
           | Undef w' => Undef w'
           end.

Definition spin {A} : M A := fun w => Spin w.
Definition undef {A} : M A := fun w => Undef w.

Declare Scope avr_scope.
Delimit Scope avr_scope with avr.
Notation "x <- m ;; k" := (bind m (fun x => k))
  (at level 61, m at next level, right associativity) : avr_scope.
Notation "m ;; k" := (bind m (fun _ => k))
  (at level 61, right associativity) : avr_scope.
Local Open Scope avr_scope.

(** Iterate the body of a counted [for] loop: [for (i = 0; i < n; i++)]
    whose body does not use [i] and carries one local along. *)
Fixpoint for_loop {A} (n : nat) (body : A -> M A) (a : A) : M A :=
  match n with
  | O => ret a
  | S n' => a' <- body a ;; for_loop n' body a'
  end.

Section Program.

Variable E : env.

(** ** The interrupt handler *)

(** [ISR (TIMER2_COMP_vect) { timer2_tick++; }] *)
Definition TIMER2_COMP_vect (w : world) : world :=
  mkWorld (io w) (iflag w) (uint16 (timer2_tick w + 1)) (old_value w) (now w)
          (log w ++ [EvIsr]).

(** The handler can run only with the I flag set and OCIE2 (bit 7 of
    TIMSK) set. *)
Definition irq_enabled (w : world) : bool :=
  iflag w && Z.testbit (io w TIMSK) 7.

(** Serve the interrupts pending at this access. *)
Definition service (w : world) : world :=
  if irq_enabled w then Nat.iter (irqs E (now w)) TIMER2_COMP_vect w else w.

(** ** Primitive accesses *)

(** Read an I/O register.  PINC shows the pins; the others hold what was
    last stored. *)
Definition rd (r : reg) : M Z := fun w =>
  let w' := service w in
  let v := match r with PINC => uint8 (pins E (now w)) | _ => io w' r end in
  Done v (advance (note w' (EvIn r v))).

(** Write an I/O register (8 bits are kept). *)
Definition wr (r : reg) (v : Z) : M unit := fun w =>
  Done tt (advance (set_io (service w) r (uint8 v))).

(** Read [timer2_tick].  The variable is 16 bits wide and the machine
    loads one byte at a time, as avr-gcc compiles it the low byte first
    ([lds r24, timer2_tick] then [lds r25, timer2_tick+1]); nothing
    masks the interrupt, so the handler can run before either load.
    The log shows the value main code has put together. *)
Definition rd_tick : M Z := fun w =>
  let w1 := service w in
  let lo := lo8 (timer2_tick w1) in
  let w2 := service (advance w1) in
  let hi := hi8 (timer2_tick w2) in
  Done (word hi lo)
       (advance (note w2 (EvGet Var_timer2_tick (word hi lo)))).

(** Store to [timer2_tick]: two byte stores, as avr-gcc compiles it the
    high byte first ([sts timer2_tick+1, r25] then [sts timer2_tick,
    r24]), again with the handler free to run before either.  The log
    shows the value main code stored. *)
Definition wr_tick (v : Z) : M unit := fun w =>
  let w1 := service w in
  let w1' := advance (put_tick w1 (word (hi8 v) (lo8 (timer2_tick w1)))) in
  let w2 := service w1' in
  Done tt (advance (note (put_tick w2 (word (hi8 (timer2_tick w2)) (lo8 v)))
                         (EvSet Var_timer2_tick (uint16 v)))).

(** [old_value] is ordinary memory: no interrupt can be told apart from
    one at the next volatile access. *)
Definition rd_old : M Z := fun w =>
  Done (old_value w) (note w (EvGet Var_old_value (old_value w))).
Definition wr_old (v : Z) : M unit := fun w => Done tt (set_old w (uint8 v)).

Definition sei : M unit := fun w => Done tt (set_iflag w true).

(** [steps++] on an [int]: overflow is undefined. *)
Definition int_succ (x : Z) : M Z :=
  if x <? INT_MAX then ret (x + 1) else undef.

(** ** Timer 2 and the delay *)

(** [void timer2_start(char unit)] *)
Definition timer2_start (unit : Z) : M Datatypes.unit :=
  wr_tick 0 ;;
  (if unit =? 0 then
     wr TCCR2 11 ;;                         (* 0b00001011 *)
     v <- rd TIMSK ;; wr TIMSK (Z.lor v 128)
   else ret tt) ;;
  (if unit =? 1 then
     wr TCCR2 9 ;;                          (* 0b00001001 *)
     v <- rd TIMSK ;; wr TIMSK (Z.lor v 128)
   else ret tt) ;;
  sei.

(** [void timer2_stop()] *)
Definition timer2_stop : M unit :=
  v <- rd TIMSK ;; wr TIMSK (Z.land v (Z.lnot 128)) ;;
  v <- rd TCCR2 ;; wr TCCR2 (Z.land v 127).

(** [while (timer2_tick < time_val);] *)
Fixpoint wait_loop (fuel : nat) (time_val : Z) : M unit :=
  match fuel with
  | O => spin
  | S fuel' =>
      t <- rd_tick ;;
      if t <? time_val then wait_loop fuel' time_val else ret tt
  end.

(** [void wait_ms(unsigned int time_val)] *)
Definition wait_ms (fuel : nat) (time_val : Z) : M unit :=
  (fun w => Done tt (note w (EvWait time_val))) ;;
  wr OCR2 250 ;;
  wr_tick 0 ;;
  timer2_start 0 ;;
  wait_loop fuel time_val ;;
  timer2_stop.

(** ** Push buttons *)

(** [void init_push_buttons(void)] *)
Definition init_push_buttons : M unit :=
  v <- rd DDRC ;; wr DDRC (Z.land v 0xC0) ;;
  v <- rd PORTC ;; wr PORTC (Z.lor v 0x3F).

(** [char read_push_buttons(void)]: PINC is read anew in every test. *)
Definition read_push_buttons : M Z :=
  p <- rd PINC ;;
  if Z.land p 32 =? 0 then ret 6 else
  p <- rd PINC ;;
  if Z.land p 16 =? 0 then ret 5 else
  p <- rd PINC ;;
  if Z.land p 8 =? 0 then ret 4 else
  p <- rd PINC ;;
  if Z.land p 4 =? 0 then ret 3 else
  p <- rd PINC ;;
  if Z.land p 2 =? 0 then ret 2 else
  p <- rd PINC ;;
  if Z.land p 1 =? 0 then ret 1 else
  ret 0.

(** ** Shaft encoder *)

(** [void shaft_encoder_init(void)] *)
Definition shaft_encoder_init : M unit :=
  v <- rd DDRC ;; wr DDRC (Z.land v 0x3F) ;;
  v <- rd PORTC ;; wr PORTC (Z.lor v 0xC0).

(** [char read_shaft_encoder(void)] *)
Definition read_shaft_encoder : M Z :=
  p <- rd PINC ;;
  let new_value := uint8 (Z.land p 0xC0) in
  let rotation := 0 in
  old <- rd_old ;;
  let rotation :=
    if old =? 0xC0 then
      let rotation := if new_value =? 0x40 then 1 else rotation in
      let rotation := if new_value =? 0x80 then int8 (-1) else rotation in
      rotation
    else rotation in
  wr_old new_value ;;
  ret rotation.

(** ** Stepper motor *)

(** [void stepper_init(void)] *)
Definition stepper_init (fuel : nat) : M unit :=
  v <- rd DDRE ;; wr DDRE (Z.lor v 0xF0) ;;
  v <- rd PORTE ;; wr PORTE (Z.land v 0x8F) ;;
  wait_ms fuel 2 ;;
  v <- rd PORTE ;; wr PORTE (Z.land v 0x0F).

(** Body of the [for] loop of the clockwise branch. *)
Definition cw_phase (masked_porte : Z) (turner : Z) : M Z :=
  wr PORTE (Z.lor masked_porte turner) ;;
  let turner := uint8 (Z.shiftl turner 1) in
  ret (if turner =? 0 then 0x10 else turner).

(** Body of the [for] loop of the counter-clockwise branch. *)
Definition ccw_phase (masked_porte : Z) (turner : Z) : M Z :=
  wr PORTE (Z.lor masked_porte turner) ;;
  let turner := uint8 (Z.shiftr turner 1) in
  ret (if turner =? 0x08 then 0x80 else turner).

(** The [if]/[else if] inside the [while]: returns the new values of the
    locals [steps] and [turner]. *)
Definition stepper_body (direction masked_porte : Z) (steps turner : Z)
  : M (Z * Z) :=
  if direction =? 1 then
    turner' <- for_loop 5 (cw_phase masked_porte) turner ;;
    steps' <- int_succ steps ;;
    ret (steps', turner')
  else if direction =? -1 then
    turner' <- for_loop 5 (ccw_phase masked_porte) turner ;;
    steps' <- int_succ steps ;;
    ret (steps', turner')
  else ret (steps, turner).

(** [while (steps <= num_steps) { ...; wait_ms(2); }] *)
Fixpoint stepper_loop (fuel : nat) (num_steps direction masked_porte : Z)
         (steps turner : Z) : M unit :=
  match fuel with
  | O => spin
  | S fuel' =>
      if steps <=? num_steps then
        st <- stepper_body direction masked_porte steps turner ;;
        wait_ms fuel' 2 ;;
        stepper_loop fuel' num_steps direction masked_porte (fst st) (snd st)
      else ret tt
  end.

(** [void move_stepper_motor_by_step(int num_steps, int direction)] *)
Definition move_stepper_motor_by_step (fuel : nat) (num_steps direction : Z)
  : M unit :=
  let steps := 0 in
  let turner := 0x10 in
  p <- rd PORTE ;;
  let masked_porte := int8 (Z.land p 0x0F) in
  stepper_loop fuel num_steps direction masked_porte steps turner.

End Program.

Arguments service E w : simpl never.

(** ** Views of the log *)

(** Number of handler runs recorded in a stretch of log. *)
Fixpoint count_isr (l : list event) : Z :=
  match l with
  | [] => 0
  | EvIsr :: l' => 1 + count_isr l'
  | _ :: l' => count_isr l'
  end.

(** What main code did: everything but the runs of the handler. *)
Definition main_event (e : event) : bool :=
  match e with EvIsr => false | _ => true end.

(** Stores made by main code (not by the handler). *)
Definition is_store (e : event) : bool :=
  match e with EvOut _ _ | EvSet _ _ => true | _ => false end.

(** The stores main code made in a stretch of log, in order. *)
Definition stores (l : list event) : list event := filter is_store l.

(** What the stepper loop shows to the motor and the delay: stores to
    PORTE and entries of [wait_ms]. *)
Definition motor_event (e : event) : bool :=
  match e with EvOut PORTE _ | EvWait _ => true | _ => false end.

(** The events of [blocks] as the stepper loop produces them: the PORTE
    stores of a block, then the entry of [wait_ms 2]. *)
Definition iterations (blocks : list (list Z)) : list event :=
  flat_map (fun vs => map (EvOut PORTE) vs ++ [EvWait 2]) blocks.

(** ** Kinds of events *)

(** One of the four phases of the motor: exactly one of bits 4-7. *)
Definition one_phase (t : Z) : Prop :=
  t = 0x10 \/ t = 0x20 \/ t = 0x40 \/ t = 0x80.

(** A value stored to PORTE by the stepper: one phase bit in the high
    nibble, the low nibble as it was in [masked]. *)
Definition phase_value (masked v : Z) : Prop :=
  one_phase (Z.land v 0xF0) /\ Z.land v 0x0F = masked.

(** Events the timer routines can add to the log: handler runs, stores
    to the three timer registers, and resets of the counter. *)
Definition timer_event (e : event) : Prop :=
  match e with
  | EvIsr | EvOut OCR2 _ | EvOut TCCR2 _ | EvOut TIMSK _
  | EvIn TCCR2 _ | EvIn TIMSK _ | EvGet Var_timer2_tick _ => True
  | EvSet Var_timer2_tick v => v = 0
  | _ => False
  end.

(** Events [wait_ms] can add to the log. *)
Definition wait_ms_event (e : event) : Prop :=
  match e with
  | EvWait _ => True
  | _ => timer_event e
  end.

(** What the stepper can add to the log: stores to PORTE that carry a
    phase value over [m], reads of PORTE, entries of [wait_ms], and the
    events of the timer routines. *)
Definition porte_ok (m : Z) (e : event) : Prop :=
  match e with
  | EvOut PORTE v => phase_value m v
  | EvIn PORTE _ | EvWait _ => True
  | _ => timer_event e
  end.

(** Reads of the port C pins (and handler runs in between). *)
Definition pinc_read (e : event) : Prop :=
  match e with EvIsr | EvIn PINC _ => True | _ => False end.

(** The registers the module stores to, and the variables: main code
    stores to [old_value] and resets [timer2_tick], nothing else. *)
Definition module_event (e : event) : Prop :=
  match e with
  | EvSet Var_timer2_tick v => v = 0
  | EvOut PINC _ => False
  | _ => True
  end.

(** ** Properties of computations *)

(** [m] only ever adds events satisfying [P] to the log, whatever the
    outcome. *)
Definition emits {A} (P : event -> Prop) (m : M A) : Prop :=
  forall w, exists l, log (world_of (m w)) = log w ++ l /\ Forall P l.

(** [m] only adds events satisfying [P], and if it returns, the value
    returned satisfies [Q]. *)
Definition safe {A} (P : event -> Prop) (Q : A -> Prop) (m : M A) : Prop :=
  forall w, exists l,
    log (world_of (m w)) = log w ++ l /\ Forall P l /\
    forall a w', m w = Done a w' -> Q a.

(** [m] always returns. *)
Definition total {A} (m : M A) : Prop :=
  forall w, exists a w', m w = Done a w'.

(** Whenever [m] returns, start and end are related by [R]. *)
Definition preserves {A} (R : world -> world -> Prop) (m : M A) : Prop :=
  forall w a w', m w = Done a w' -> R w w'.

(** Nothing was stored between [w] and [w']; with the timer interrupt
    off, the counter did not move either. *)
Definition reads_only (w w' : world) : Prop :=
  io w' = io w /\ iflag w' = iflag w /\ old_value w' = old_value w /\
  (irq_enabled w = false -> timer2_tick w' = timer2_tick w).

(** From [w] to [w'] main code stored nothing to [timer2_tick], so the
    counter grew by at most the number of handler runs in between. *)
Definition tracks (w w' : world) : Prop :=
  exists l, log w' = log w ++ l /\
            Forall (fun e => is_store e = true -> exists r v, e = EvOut r v) l /\
            0 <= timer2_tick w' <= timer2_tick w + count_isr l.

(** ** Interrupt service, written out *)

(** [n] runs of the handler in a row. *)
Fixpoint serve (n : nat) (w : world) : world :=
  match n with O => w | S n' => TIMER2_COMP_vect (serve n' w) end.

(** The counter after [n] runs of the handler. *)
Fixpoint ticks (n : nat) (t : Z) : Z :=
  match n with O => t | S n' => uint16 (ticks n' t + 1) end.

(** The number of interrupts served at the next access of [w]. *)
Definition served (E : env) (w : world) : nat :=
  if irq_enabled w then irqs E (now w) else 0%nat.

(** The value one poll of the counter reads: the low byte of the
    counter as it is at the first access, the high byte as it is at the
    second. *)
Definition poll_value (E : env) (w : world) : Z :=
  word (hi8 (timer2_tick (service E (advance (service E w)))))
       (lo8 (timer2_tick (service E w))).

(** The world after one poll of the counter by the busy wait. *)
Definition polled (E : env) (w : world) : world :=
  advance (note (service E (advance (service E w)))
                (EvGet Var_timer2_tick (poll_value E w))).

(** The counter after the store [timer2_tick = v], made when the
    counter was [t], with [n1] handler runs served before the store of
    the high byte and [n2] between that and the store of the low
    byte. *)
Definition stored (v : Z) (n1 n2 : nat) (t : Z) : Z :=
  word (hi8 (ticks n2 (word (hi8 v) (lo8 (ticks n1 t))))) (lo8 v).

(** ** The module as a whole *)

(** The decision of [read_push_buttons] when every read of PINC sees the
    same value [p]. *)
Definition button_of (p : Z) : Z :=
  if Z.land p 32 =? 0 then 6 else
  if Z.land p 16 =? 0 then 5 else
  if Z.land p 8 =? 0 then 4 else
  if Z.land p 4 =? 0 then 3 else
  if Z.land p 2 =? 0 then 2 else
  if Z.land p 1 =? 0 then 1 else 0.

(** The entry points of the module, with their arguments. *)
Inductive call : Type :=
| Call_wait_ms (time_val : Z)
| Call_timer2_start (unit : Z)
| Call_timer2_stop
| Call_init_push_buttons
| Call_read_push_buttons
| Call_shaft_encoder_init
| Call_read_shaft_encoder
| Call_stepper_init
| Call_move_stepper_motor_by_step (num_steps direction : Z).

(** Run an entry point; [None] stands for a [void] result. *)
Definition exec (E : env) (fuel : nat) (c : call) : M (option Z) :=
  match c with
  | Call_wait_ms t => bind (wait_ms E fuel t) (fun _ => ret None)
  | Call_timer2_start u => bind (timer2_start E u) (fun _ => ret None)
  | Call_timer2_stop => bind (timer2_stop E) (fun _ => ret None)
  | Call_init_push_buttons => bind (init_push_buttons E) (fun _ => ret None)
  | Call_read_push_buttons => bind (read_push_buttons E) (fun k => ret (Some k))
  | Call_shaft_encoder_init =>
      bind (shaft_encoder_init E) (fun _ => ret None)
  | Call_read_shaft_encoder =>
      bind (read_shaft_encoder E) (fun r => ret (Some r))
  | Call_stepper_init => bind (stepper_init E fuel) (fun _ => ret None)
  | Call_move_stepper_motor_by_step n d =>
      bind (move_stepper_motor_by_step E fuel n d) (fun _ => ret None)
  end.

(** ** Environments and worlds *)

(** An environment in which a compare match is pending at every access:
    the timer keeps running. *)
Definition steady (E : env) : Prop := forall k, irqs E k = 1%nat.

(** An environment in which the timer keeps running at its own pace: at
    most one compare match is pending at an access, and after every
    access there is a later one at which one is pending. *)
Definition timely (E : env) : Prop :=
  (forall k, (irqs E k <= 1)%nat) /\
  (forall k, exists d, irqs E (k + d) = 1%nat).

(** The level on the pins stays at [p] during [n] accesses from [k0]. *)
Definition pins_hold (E : env) (k0 n : nat) (p : Z) : Prop :=
  forall k, (k0 <= k < k0 + n)%nat -> uint8 (pins E k) = p.

(** Example environments. *)
Definition env_steady : env := mkEnv (fun _ => 1%nat) (fun _ => 0xFF).
Definition env_quiet : env := mkEnv (fun _ => 0%nat) (fun _ => 0xFF).

(** An environment in which a compare match is pending at every fourth
    access. *)
Definition env_slow : env :=
  mkEnv (fun k => if Nat.eqb (k mod 4) 3 then 1%nat else 0%nat)
        (fun _ => 0xFF).

(** An environment in which one compare match is pending at access 8
    and none at any other: counted from reset, access 8 is the first
    byte load of the poll of [wait_ms], the first access after the timer
    interrupt has been enabled. *)
Definition env_pending : env :=
  mkEnv (fun k => if Nat.eqb k 8 then 1%nat else 0%nat) (fun _ => 0xFF).

(** Pins for examples: buttons 3 and 5 pressed (bits 2 and 4 low), the
    encoder one step clockwise (bits 7-6 = 01). *)
Definition env_buttons : env := mkEnv (fun _ => 0%nat) (fun _ => 0x6B).

(** The world after reset with all registers cleared, for examples. *)
Definition w_reset : world := power_on (fun _ => 0).

(** A world whose PORTE holds 0xA5, for examples. *)
Definition w_porte : world :=
  power_on (fun r => match r with PORTE => 0xA5 | _ => 0 end).

(** ** Statements about whole runs *)

(** The loop of [move_stepper_motor_by_step] runs [num_steps + 1]
    iterations and the function returns: with some fuel the call
    returns, and its log shows [num_steps + 1] blocks of five stores to
    PORTE followed by the entry of [wait_ms 2]. *)
Definition runs_all_iterations (E : env) (num_steps direction : Z)
           (w : world) : Prop :=
  exists fuel w' l blocks,
    move_stepper_motor_by_step E fuel num_steps direction w = Done tt w' /\
    log w' = log w ++ l /\
    filter motor_event l = iterations blocks /\
    length blocks = Z.to_nat (num_steps + 1) /\
    Forall (fun vs => length vs = 5%nat) blocks.

(** [wait_ms 0] returns with [timer2_tick] at zero. *)
Definition returns_with_tick_zero (E : env) (w : world) : Prop :=
  exists fuel w', wait_ms E fuel 0 w = Done tt w' /\ timer2_tick w' = 0.

(** ** Frames and footprints *)

(** Whatever the outcome of [m], returning or not, its start and the
    world it reached are related by [R]. *)
Definition frames {A} (R : world -> world -> Prop) (m : M A) : Prop :=
  forall w, R w (world_of (m w)).

(** From [w] to [w'] no register outside [regs] changed, [old_value]
    changed only if [old] allows it, and the I flag was not cleared. *)
Definition footprint (regs : reg -> bool) (old : bool) (w w' : world)
  : Prop :=
  (forall r, regs r = false -> io w' r = io w r) /\
  (old = false -> old_value w' = old_value w) /\
  (iflag w = true -> iflag w' = true).

(** The registers the timer routines store to. *)
Definition timer_regs (r : reg) : bool :=
  match r with OCR2 | TCCR2 | TIMSK => true | _ => false end.

(** The registers each entry point stores to. *)
Definition stores_to (c : call) (r : reg) : bool :=
  match c with
  | Call_wait_ms _ => timer_regs r
  | Call_timer2_start _ | Call_timer2_stop =>
      match r with TCCR2 | TIMSK => true | _ => false end
  | Call_init_push_buttons | Call_shaft_encoder_init =>
      match r with DDRC | PORTC => true | _ => false end
  | Call_read_push_buttons | Call_read_shaft_encoder => false
  | Call_stepper_init =>
      match r with DDRE | PORTE => true | _ => timer_regs r end
  | Call_move_stepper_motor_by_step _ _ =>
      match r with PORTE => true | _ => timer_regs r end
  end.

(** The entry points that store to [old_value]. *)
Definition stores_old (c : call) : bool :=
  match c with Call_read_shaft_encoder => true | _ => false end.

(** ** The order of the phases *)

(** The phase bit of the [j]-th store of a clockwise run: 0x10, 0x20,
    0x40, 0x80 and round again. *)
Definition cw_seq (j : nat) : Z := Z.shiftl 0x10 (Z.of_nat (j mod 4)).

(** The phase bit of the [j]-th store of a counter-clockwise run: 0x10,
    0x80, 0x40, 0x20 and round again. *)
Definition ccw_seq (j : nat) : Z :=
  Z.shiftl 0x10 (Z.of_nat ((4 - j mod 4) mod 4)).

(** The five values stored to PORTE in iteration [k] of the step loop,
    when the phases follow [phase] and the low nibble is [m]. *)
Definition block (phase : nat -> Z) (m : Z) (k : nat) : list Z :=
  map (fun j => Z.lor m (phase j)) (seq (5 * k) 5).

(** ** Elapsed ticks *)

(** The number of handler runs between two logs, the second an
    extension of the first. *)
Definition isr_between (w w' : world) : Z :=
  count_isr (log w') - count_isr (log w).

(** ** The delay, as the first claim words it *)

(** [wait_ms time_val] does not return while [timer2_tick < time_val]:
    the call zeroes the counter and only the handler moves it, one up
    per run, so a call that returns has seen the handler run at least
    [time_val] times. *)
Definition waits_out (E : env) (time_val : Z) (w : world) : Prop :=
  forall fuel w',
    wait_ms E fuel time_val w = Done tt w' -> time_val <= isr_between w w'.

(** One run of the handler adds exactly one to the counter. *)
Definition adds_one (w : world) : Prop :=
  timer2_tick (TIMER2_COMP_vect w) = timer2_tick w + 1.

(** The world after reset, but with the counter at its largest value. *)
Definition w_full : world := mkWorld (fun _ => 0) false 65535 192 0%nat [].

(** A world in which the timer interrupt is already on: the I flag and
    bit 7 of TIMSK are set. *)
Definition w_on : world :=
  mkWorld (fun r => match r with TIMSK => 128 | _ => 0 end)
          true 0 192 0%nat [].

(** ** Basic facts *)

Section Facts.

Variable E : env.

Lemma uint16_range x : 0 <= uint16 x < 65536.
Proof. unfold uint16. apply Z.mod_pos_bound. lia. Qed.

Lemma uint16_small x : 0 <= x < 65536 -> uint16 x = x.
Proof. intros H. unfold uint16. apply Z.mod_small. exact H. Qed.

Lemma uint16_le x : 0 <= x -> uint16 x <= x.
Proof. intros H. unfold uint16. apply Z.mod_le; lia. Qed.

Lemma count_isr_app l1 l2 : count_isr (l1 ++ l2) = count_isr l1 + count_isr l2.
Proof.
  induction l1 as [|e l1 IH]; cbn [app count_isr]; [reflexivity|].
  destruct e; rewrite IH; lia.
Qed.

Lemma count_isr_nonneg l : 0 <= count_isr l.
Proof.
  induction l as [|e l IH]; cbn [count_isr]; [lia|]. destruct e; lia.
Qed.

Lemma count_isr_repeat n : count_isr (repeat EvIsr n) = Z.of_nat n.
Proof.
  induction n as [|n IH]; [reflexivity|].
  cbn [repeat count_isr]. rewrite IH. lia.
Qed.

(** *** The handler and interrupt service *)

Lemma serve_iter n w : Nat.iter n TIMER2_COMP_vect w = serve n w.
Proof. induction n as [|n IH]; simpl; [reflexivity|]. now rewrite IH. Qed.

Lemma service_serve w : service E w = serve (served E w) w.
Proof.
  unfold service, served. destruct (irq_enabled w); [apply serve_iter|reflexivity].
Qed.

Lemma serve_frame n w :
  io (serve n w) = io w /\ iflag (serve n w) = iflag w /\
  old_value (serve n w) = old_value w /\ now (serve n w) = now w /\
  log (serve n w) = log w ++ repeat EvIsr n.
Proof.
  induction n as [|n (Hio & Hi & Ho & Hn & Hl)]; simpl.
  - rewrite app_nil_r. repeat split.
  - repeat split; try assumption.
    rewrite Hl, <- app_assoc. f_equal.
    symmetry. apply repeat_cons.
Qed.

Lemma serve_tick n w :
  0 <= timer2_tick w ->
  0 <= timer2_tick (serve n w) <= timer2_tick w + Z.of_nat n.
Proof.
  intros H0. induction n as [|n IH].
  - simpl. lia.
  - cbn [serve TIMER2_COMP_vect timer2_tick].
    pose proof (uint16_range (timer2_tick (serve n w) + 1)).
    pose proof (uint16_le (timer2_tick (serve n w) + 1)). lia.
Qed.

Lemma io_service w : io (service E w) = io w.
Proof. rewrite service_serve. apply serve_frame. Qed.

Lemma iflag_service w : iflag (service E w) = iflag w.
Proof. rewrite service_serve. apply serve_frame. Qed.

Lemma old_value_service w : old_value (service E w) = old_value w.
Proof. rewrite service_serve. apply serve_frame. Qed.

Lemma now_service w : now (service E w) = now w.
Proof. rewrite service_serve. apply serve_frame. Qed.

Lemma log_service w : log (service E w) = log w ++ repeat EvIsr (served E w).
Proof. rewrite service_serve. apply serve_frame. Qed.

Lemma tick_service w :
  0 <= timer2_tick w ->
  0 <= timer2_tick (service E w) <= timer2_tick w + Z.of_nat (served E w).
Proof. rewrite service_serve. apply serve_tick. Qed.

Lemma service_off w : irq_enabled w = false -> service E w = w.
Proof. intros H. unfold service. now rewrite H. Qed.

Lemma service_none w : irqs E (now w) = 0%nat -> service E w = w.
Proof.
  intros H. unfold service. rewrite H. now destruct (irq_enabled w).
Qed.

End Facts.

(** ** What a computation can add to the log *)

Section Emits.

Variable E : env.

Lemma emits_ret {A} P (a : A) : emits P (ret a).
Proof. intros w. exists []. simpl. now rewrite app_nil_r. Qed.

Lemma emits_spin {A} P : emits P (@spin A).
Proof. intros w. exists []. simpl. now rewrite app_nil_r. Qed.

Lemma emits_undef {A} P : emits P (@undef A).
Proof. intros w. exists []. simpl. now rewrite app_nil_r. Qed.

Lemma emits_bind {A B} P (m : M A) (k : A -> M B) :
  emits P m -> (forall a, emits P (k a)) -> emits P (bind m k).
Proof.
  intros Hm Hk w. destruct (Hm w) as (l1 & Hl1 & HP1).
  unfold bind. destruct (m w) as [a w1|w1|w1]; simpl in Hl1.
  - destruct (Hk a w1) as (l2 & Hl2 & HP2).
    exists (l1 ++ l2). rewrite Hl2, Hl1, app_assoc. split; [reflexivity|].
    apply Forall_app. now split.
  - exists l1. now split.
  - exists l1. now split.
Qed.

Lemma emits_weaken {A} (P Q : event -> Prop) (m : M A) :
  (forall e, P e -> Q e) -> emits P m -> emits Q m.
Proof.
  intros HPQ Hm w. destruct (Hm w) as (l & Hl & HP).
  exists l. split; [exact Hl|]. eapply Forall_impl; eauto.
Qed.

Lemma Forall_repeat {A} (P : A -> Prop) a n : P a -> Forall P (repeat a n).
Proof. intros H. induction n; simpl; constructor; assumption. Qed.

Lemma emits_rd P r : P EvIsr -> (forall v, P (EvIn r v)) -> emits P (rd E r).
Proof.
  intros HP Hv w. eexists. cbn [world_of rd log advance note].
  rewrite log_service, <- app_assoc. split; [reflexivity|].
  apply Forall_app. split; [now apply Forall_repeat | now constructor].
Qed.

Lemma emits_wr P r v : P EvIsr -> P (EvOut r (uint8 v)) -> emits P (wr E r v).
Proof.
  intros HP Hv w. exists (repeat EvIsr (served E w) ++ [EvOut r (uint8 v)]).
  simpl. rewrite log_service, app_assoc. split; [reflexivity|].
  apply Forall_app. split; [now apply Forall_repeat | now constructor].
Qed.

Lemma emits_rd_tick P :
  P EvIsr -> (forall v, P (EvGet Var_timer2_tick v)) -> emits P (rd_tick E).
Proof.
  intros HP Hv w. eexists. cbn [world_of rd_tick log advance note].
  rewrite !log_service. cbn [log advance]. rewrite log_service.
  rewrite <- !app_assoc. split; [reflexivity|].
  repeat (apply Forall_app; split); try now apply Forall_repeat.
  now constructor.
Qed.

Lemma emits_wr_tick P v :
  P EvIsr -> P (EvSet Var_timer2_tick (uint16 v)) -> emits P (wr_tick E v).
Proof.
  intros HP Hv w. eexists.
  cbn [world_of wr_tick log advance note put_tick].
  rewrite !log_service. cbn [log advance put_tick]. rewrite log_service.
  rewrite <- !app_assoc. split; [reflexivity|].
  repeat (apply Forall_app; split); try now apply Forall_repeat.
  now constructor.
Qed.

Lemma emits_rd_old P : (forall v, P (EvGet Var_old_value v)) -> emits P rd_old.
Proof. intros Hv w. eexists. cbn. now split; [|constructor]. Qed.

Lemma emits_wr_old P v : P (EvSet Var_old_value (uint8 v)) -> emits P (wr_old v).
Proof. intros Hv w. exists [EvSet Var_old_value (uint8 v)]. simpl. now split; [|constructor]. Qed.

Lemma emits_sei P : emits P sei.
Proof. intros w. exists []. simpl. now rewrite app_nil_r. Qed.

Lemma emits_int_succ P x : emits P (int_succ x).
Proof.
  unfold int_succ. destruct (x <? INT_MAX); [apply emits_ret | apply emits_undef].
Qed.

Lemma emits_wait_loop P fuel tv :
  P EvIsr -> (forall v, P (EvGet Var_timer2_tick v)) ->
  emits P (wait_loop E fuel tv).
Proof.
  intros HP Hv. induction fuel as [|fuel IH]; simpl.
  - apply emits_spin.
  - apply emits_bind; [now apply emits_rd_tick|].
    intros t. destruct (t <? tv); [exact IH | apply emits_ret].
Qed.

Lemma emits_timer2_start unit : emits timer_event (timer2_start E unit).
Proof.
  unfold timer2_start.
  repeat first
    [ apply emits_bind; [|intros ?]
    | apply emits_wr_tick; [exact I | reflexivity]
    | apply emits_wr; exact I
    | apply emits_rd; [exact I | intros ?; exact I]
    | apply emits_sei
    | apply emits_ret
    | match goal with |- emits _ (if ?b then _ else _) => destruct b end ].
Qed.

Lemma emits_timer2_stop : emits timer_event (timer2_stop E).
Proof.
  unfold timer2_stop.
  repeat first
    [ apply emits_bind; [|intros ?]
    | apply emits_wr; exact I
    | apply emits_rd; [exact I | intros ?; exact I] ].
Qed.

(** After its entry is logged, [wait_ms] adds timer events only. *)
Lemma wait_ms_log fuel tv w :
  exists l, log (world_of (wait_ms E fuel tv w)) = log w ++ EvWait tv :: l /\
            Forall timer_event l.
Proof.
  unfold wait_ms.
  match goal with
  | |- context [bind _ (fun _ => ?k) w] =>
      assert (Hk : emits timer_event k)
  end.
  { repeat first
      [ apply emits_timer2_start
      | apply emits_timer2_stop
      | apply emits_wait_loop; [exact I | intros ?; exact I]
      | apply emits_bind; [|intros ?]
      | apply emits_wr_tick; [exact I | reflexivity]
      | apply emits_wr; exact I ]. }
  destruct (Hk (note w (EvWait tv))) as (l & Hl & HP).
  exists l. split; [|exact HP].
  unfold bind at 1. rewrite Hl. cbn [log note].
  rewrite <- app_assoc. reflexivity.
Qed.

Lemma emits_wait_ms fuel tv : emits wait_ms_event (wait_ms E fuel tv).
Proof.
  intros w. destruct (wait_ms_log fuel tv w) as (l & Hl & HP).
  exists (EvWait tv :: l). split; [exact Hl|].
  constructor; [exact I|].
  eapply Forall_impl; [|exact HP]. intros [] He; try exact He; exact I.
Qed.

End Emits.

(** ** Following the tick counter between resets *)

(** Simplify projections of worlds built by the primitives. *)
Ltac proj :=
  repeat first
    [ progress cbn [io iflag timer2_tick old_value now log advance set_io
                    put_tick set_old set_iflag note world_of upd reg_eqb]
    | rewrite io_service | rewrite iflag_service
    | rewrite old_value_service | rewrite now_service ].

Ltac logs :=
  repeat first
    [ progress cbn [log advance set_io put_tick set_old set_iflag note
                    world_of]
    | rewrite log_service ].

Section Tracking.

Variable E : env.

Lemma tracks_refl w : 0 <= timer2_tick w -> tracks w w.
Proof.
  intros H. exists []. rewrite app_nil_r. repeat split; simpl; try lia.
  constructor.
Qed.

Lemma tracks_trans w1 w2 w3 : tracks w1 w2 -> tracks w2 w3 -> tracks w1 w3.
Proof.
  intros (l1 & Hl1 & Hs1 & Ht1) (l2 & Hl2 & Hs2 & Ht2).
  exists (l1 ++ l2). rewrite Hl2, Hl1, app_assoc, count_isr_app.
  repeat split; try lia. apply Forall_app. now split.
Qed.

Lemma tracks_service w w' : tracks w w' -> tracks w (service E w').
Proof.
  intros H. eapply tracks_trans; [exact H|].
  destruct H as (_ & _ & _ & H0 & _).
  exists (repeat EvIsr (served E w')). rewrite count_isr_repeat.
  split; [apply log_service|]. split; [|now apply tick_service].
  apply Forall_repeat. intros H. discriminate H.
Qed.

Lemma tracks_advance w w' : tracks w w' -> tracks w (advance w').
Proof. intros (l & Hl & Hs & Ht). exists l. now proj. Qed.

Lemma tracks_set_iflag w w' b : tracks w w' -> tracks w (set_iflag w' b).
Proof. intros (l & Hl & Hs & Ht). exists l. now proj. Qed.

Lemma tracks_set_io w w' r v : tracks w w' -> tracks w (set_io w' r v).
Proof.
  intros (l & Hl & Hs & Ht). exists (l ++ [EvOut r v]). proj.
  rewrite Hl, app_assoc, count_isr_app. cbn [count_isr].
  repeat split; try lia.
  apply Forall_app. split; [exact Hs|]. constructor; [|constructor].
  intros _. now exists r, v.
Qed.

Lemma tracks_note w w' e :
  is_store e = false -> tracks w w' -> tracks w (note w' e).
Proof.
  intros He (l & Hl & Hs & Ht). exists (l ++ [e]). proj.
  rewrite Hl, app_assoc, count_isr_app.
  pose proof (count_isr_nonneg [e]).
  repeat split; try lia.
  apply Forall_app. split; [exact Hs|]. constructor; [|constructor].
  intros Hst. congruence.
Qed.

End Tracking.

Ltac track :=
  repeat lazymatch goal with
    | |- tracks ?w ?w => apply tracks_refl
    | |- tracks _ (polled _ _) => unfold polled
    | |- tracks _ (note _ _) => apply tracks_note; [reflexivity|]
    | |- tracks _ (advance _) => apply tracks_advance
    | |- tracks _ (set_iflag _ _) => apply tracks_set_iflag
    | |- tracks _ (set_io _ _ _) => apply tracks_set_io
    | |- tracks _ (service _ _) => apply tracks_service
    | |- tracks _ _ => assumption
    end.

Section Busy_wait.

Variable E : env.

Lemma wait_loop_step fuel tv w :
  wait_loop E (S fuel) tv w =
  if poll_value E w <? tv
  then wait_loop E fuel tv (polled E w)
  else Done tt (polled E w).
Proof.
  cbn [wait_loop]. unfold bind, rd_tick, polled, poll_value, ret. cbv zeta.
  match goal with |- context [?a <? tv] => destruct (a <? tv) end;
    reflexivity.
Qed.

Lemma polled_frame w :
  io (polled E w) = io w /\ iflag (polled E w) = iflag w /\
  old_value (polled E w) = old_value w /\
  timer2_tick (polled E w) =
    timer2_tick (service E (advance (service E w))) /\
  now (polled E w) = S (S (now w)).
Proof. unfold polled. proj. repeat split. Qed.

(** One poll: the two handler bursts it lets in, the counter at each of
    the two byte loads, and what the log gains. *)
Lemma poll_ticks w :
  0 <= timer2_tick w ->
  exists n1 n2 t1 t2,
    poll_value E w = word (hi8 t2) (lo8 t1) /\
    0 <= t1 <= timer2_tick w + Z.of_nat n1 /\
    0 <= t2 <= t1 + Z.of_nat n2 /\
    timer2_tick (polled E w) = t2 /\
    log (polled E w) =
      log w ++ repeat EvIsr n1 ++ repeat EvIsr n2 ++
      [EvGet Var_timer2_tick (poll_value E w)].
Proof.
  intros H0.
  pose proof (tick_service E w H0) as H1.
  assert (H1' : 0 <= timer2_tick (advance (service E w))) by (proj; lia).
  pose proof (tick_service E (advance (service E w)) H1') as H2.
  exists (served E w), (served E (advance (service E w))),
         (timer2_tick (service E w)),
         (timer2_tick (service E (advance (service E w)))).
  split; [reflexivity|]. split; [exact H1|]. split; [exact H2|].
  split; [apply polled_frame|].
  unfold polled. cbn [log advance note].
  rewrite log_service. cbn [log advance]. rewrite log_service.
  rewrite <- !app_assoc. reflexivity.
Qed.

(** A value put together from two bytes is not negative. *)
Lemma word_nonneg a b : 0 <= word (hi8 a) (lo8 b).
Proof.
  unfold word, hi8, lo8.
  pose proof (Z.mod_pos_bound (a / 256) 256 ltac:(lia)).
  pose proof (Z.mod_pos_bound b 256 ltac:(lia)). lia.
Qed.

(** A read of at least [tv], for [tv] up to 256, means that the counter
    was at least [tv] at one of the two byte loads. *)
Lemma torn_bound tv t1 t2 :
  0 <= t1 -> 0 <= t2 -> tv <= 256 -> tv <= word (hi8 t2) (lo8 t1) ->
  tv <= t1 \/ tv <= t2.
Proof.
  intros H1 H2 Htv Hv. unfold word, hi8, lo8 in Hv.
  destruct (Z.lt_ge_cases t2 256) as [Hlt|Hge]; [|right; lia].
  left. rewrite (Z.div_small t2 256), Z.mod_0_l in Hv by lia.
  pose proof (Z.mod_le t1 256 H1 ltac:(lia)). lia.
Qed.

(** The busy wait changes no register and no variable of main code; it
    never runs into undefined behaviour. *)
Lemma wait_loop_frame fuel tv w :
  let o := wait_loop E fuel tv w in
  io (world_of o) = io w /\ iflag (world_of o) = iflag w /\
  old_value (world_of o) = old_value w /\
  (0 <= timer2_tick w -> tracks w (world_of o)) /\
  (forall w', o <> Undef w').
Proof.
  revert w. induction fuel as [|fuel IH]; intros w.
  - cbn. repeat split; try discriminate. apply tracks_refl.
  - cbv zeta. rewrite wait_loop_step.
    destruct (polled_frame w) as (Pio & Pi & Po & Pt & _).
    assert (Htr : 0 <= timer2_tick w -> tracks w (polled E w)).
    { intros H0. track. exact H0. }
    destruct (poll_value E w <? tv).
    + specialize (IH (polled E w)). cbv zeta in IH.
      destruct IH as (Hio & Hi & Ho & Ht & Hu).
      rewrite Hio, Hi, Ho.
      repeat split; try assumption.
      intros H0. eapply tracks_trans; [now apply Htr|apply Ht].
      destruct (poll_ticks w H0) as (n1 & n2 & t1 & t2 & _ & ? & ? & -> & _).
      lia.
    + cbn [world_of]. repeat split; try assumption. discriminate.
Qed.

Lemma main_app l1 l2 :
  filter main_event (l1 ++ l2) = filter main_event l1 ++ filter main_event l2.
Proof. apply filter_app. Qed.

Lemma main_isr n : filter main_event (repeat EvIsr n) = [].
Proof. induction n as [|n IH]; [reflexivity | exact IH]. Qed.

(** What main code does in the busy wait is poll the counter: every
    value read but the last is below the argument, the last is not.
    The last value is made of bytes of two counter values, neither
    above the number of handler runs so far. *)
Lemma wait_loop_polls fuel tv w w' :
  0 <= timer2_tick w ->
  wait_loop E fuel tv w = Done tt w' ->
  exists l ps t,
    log w' = log w ++ l /\
    filter main_event l = map (EvGet Var_timer2_tick) (ps ++ [t]) /\
    Forall (fun v => 0 <= v < tv) ps /\ tv <= t /\
    0 <= timer2_tick w' <= timer2_tick w + count_isr l /\
    exists t1 t2,
      t = word (hi8 t2) (lo8 t1) /\
      0 <= t1 <= timer2_tick w + count_isr l /\
      0 <= t2 <= timer2_tick w + count_isr l.
Proof.
  revert w. induction fuel as [|fuel IH]; intros w H0.
  - discriminate.
  - rewrite wait_loop_step.
    destruct (poll_ticks w H0)
      as (n1 & n2 & t1 & t2 & Hv & B1 & B2 & Pt & L1).
    destruct (Z.ltb_spec (poll_value E w) tv) as [Hlt|Hge].
    + intros H. apply IH in H
        as (l2 & ps & t & L2 & M2 & F2 & T2 & B & t1' & t2' & Ht & B1' & B2');
        [|rewrite Pt; lia].
      exists ((repeat EvIsr n1 ++ repeat EvIsr n2 ++
               [EvGet Var_timer2_tick (poll_value E w)]) ++ l2),
             (poll_value E w :: ps), t.
      rewrite L2, L1, <- !app_assoc.
      rewrite !count_isr_app, !count_isr_repeat. cbn [count_isr app].
      rewrite Pt in B, B1', B2'.
      repeat split; try assumption; try lia.
      * rewrite !main_app, !main_isr. cbn [filter main_event app].
        rewrite M2. reflexivity.
      * constructor; [|assumption]. rewrite Hv at 1.
        pose proof (word_nonneg t2 t1). lia.
      * exists t1', t2'. repeat split; try assumption; lia.
    + intros H. injection H as <-.
      exists (repeat EvIsr n1 ++ repeat EvIsr n2 ++
              [EvGet Var_timer2_tick (poll_value E w)]), [],
             (poll_value E w).
      rewrite !count_isr_app, !count_isr_repeat. cbn [count_isr].
      repeat split; try assumption; try lia.
      * rewrite !main_app, !main_isr. reflexivity.
      * constructor.
      * exists t1, t2. repeat split; try assumption; lia.
Qed.

End Busy_wait.

(** ** Timer start, timer stop, and the delay as a whole *)

Section Delay.

Variable E : env.

Lemma bind_Done {A B} (m : M A) (k : A -> M B) w b w' :
  bind m k w = Done b w' ->
  exists a w1, m w = Done a w1 /\ k a w1 = Done b w'.
Proof.
  unfold bind. destruct (m w) as [a w1|w1|w1]; try discriminate.
  intros H. now exists a, w1.
Qed.

Lemma bind_run {A B} (m : M A) (k : A -> M B) w a w1 :
  m w = Done a w1 -> bind m k w = k a w1.
Proof. intros H. unfold bind. now rewrite H. Qed.

Lemma stores_none l : Forall (fun e => is_store e = false) l -> stores l = [].
Proof.
  induction 1 as [|e l He _ IH]; [reflexivity|].
  unfold stores in *. cbn [filter]. now rewrite He.
Qed.

(** *** Straight-line code on flat worlds

    Each primitive returns a world written out field by field, with the
    number of handler runs served at the access as an unknown. *)

Lemma uint8_lor_bit7 x : Z.testbit (uint8 (Z.lor x 128)) 7 = true.
Proof.
  unfold uint8. change 256 with (2 ^ 8).
  rewrite Z.mod_pow2_bits_low by lia.
  rewrite Z.lor_spec. change (Z.testbit 128 7) with true.
  apply orb_true_r.
Qed.

Lemma ticks_bound n t : 0 <= t -> 0 <= ticks n t <= t + Z.of_nat n.
Proof.
  intros Ht. induction n as [|n IH]; cbn [ticks]; [lia|].
  pose proof (uint16_range (ticks n t + 1)).
  pose proof (uint16_le (ticks n t + 1)). lia.
Qed.

Lemma serve_flat n w :
  serve n w =
  mkWorld (io w) (iflag w) (ticks n (timer2_tick w)) (old_value w) (now w)
          (log w ++ repeat EvIsr n).
Proof.
  induction n as [|n IH]; cbn [serve ticks].
  - destruct w. cbn. now rewrite app_nil_r.
  - rewrite IH. unfold TIMER2_COMP_vect.
    cbn [io iflag timer2_tick old_value now log].
    rewrite <- app_assoc, <- repeat_cons. reflexivity.
Qed.

Lemma wr_flat r v w :
  exists n, wr E r v w =
    Done tt (mkWorld (upd (io w) r (uint8 v)) (iflag w)
                     (ticks n (timer2_tick w)) (old_value w) (S (now w))
                     (log w ++ repeat EvIsr n ++ [EvOut r (uint8 v)])).
Proof.
  exists (served E w). unfold wr. rewrite service_serve, serve_flat.
  unfold advance, set_io. cbn [io iflag timer2_tick old_value now log].
  now rewrite <- app_assoc.
Qed.

Lemma wr_tick_flat v w :
  exists n1 n2, wr_tick E v w =
    Done tt (mkWorld (io w) (iflag w) (stored v n1 n2 (timer2_tick w))
                     (old_value w) (S (S (now w)))
                     (log w ++ repeat EvIsr n1 ++ repeat EvIsr n2 ++
                      [EvSet Var_timer2_tick (uint16 v)])).
Proof.
  unfold wr_tick. cbv zeta. rewrite (service_serve E w), serve_flat.
  unfold advance, put_tick, note.
  cbn [io iflag timer2_tick old_value now log].
  match goal with
  | |- context [service E ?W] => rewrite (service_serve E W), serve_flat
  end.
  cbn [io iflag timer2_tick old_value now log].
  eexists _, _. unfold stored. rewrite <- !app_assoc. reflexivity.
Qed.

(** *** The counter after a reset *)

Lemma ticks_closed n t :
  0 <= t < 65536 -> ticks n t = uint16 (t + Z.of_nat n).
Proof.
  intros Ht. induction n as [|n IH]; cbn [ticks].
  - rewrite Z.add_0_r. symmetry. now apply uint16_small.
  - rewrite IH. unfold uint16. rewrite Z.add_mod_idemp_l by lia.
    f_equal. lia.
Qed.

Lemma ticks_range n t : 0 <= t < 65536 -> 0 <= ticks n t < 65536.
Proof.
  intros Ht. destruct n as [|n]; cbn [ticks]; [exact Ht|].
  apply uint16_range.
Qed.

Lemma hi8_range x : 0 <= hi8 x < 256.
Proof. unfold hi8. apply Z.mod_pos_bound. lia. Qed.

Lemma lo8_range x : 0 <= lo8 x < 256.
Proof. unfold lo8. apply Z.mod_pos_bound. lia. Qed.

Lemma hi8_le x : 0 <= x -> hi8 x * 256 <= x.
Proof.
  intros H. unfold hi8.
  pose proof (Z.mod_le (x / 256) 256 ltac:(apply Z.div_pos; lia) ltac:(lia)).
  pose proof (Z.mul_div_le x 256 ltac:(lia)). lia.
Qed.

(** The two bytes of an [unsigned int] make it up. *)
Lemma word_bytes x : 0 <= x < 65536 -> word (hi8 x) (lo8 x) = x.
Proof.
  intros H. unfold word, hi8, lo8.
  rewrite (Z.mod_small (x / 256)).
  - pose proof (Z.div_mod x 256 ltac:(lia)). lia.
  - split; [apply Z.div_pos; lia|]. apply Z.div_lt_upper_bound; lia.
Qed.

(** After [timer2_tick = 0] the counter is a multiple of 256 (the high
    byte may have been carried into between the two stores). *)
Lemma stored_zero n1 n2 t :
  stored 0 n1 n2 t = hi8 (ticks n2 (lo8 (ticks n1 t))) * 256.
Proof.
  unfold stored, word. change (hi8 0) with 0. change (lo8 0) with 0.
  now rewrite Z.add_0_r, Z.mul_0_l, Z.add_0_l.
Qed.

Lemma stored_zero_range n1 n2 t : 0 <= stored 0 n1 n2 t < 65536.
Proof.
  rewrite stored_zero.
  pose proof (hi8_range (ticks n2 (lo8 (ticks n1 t)))). lia.
Qed.

(** With no handler run in between, the counter is zero. *)
Lemma stored_zero_quiet t : stored 0 0 0 t = 0.
Proof.
  rewrite stored_zero. cbn [ticks]. unfold hi8, lo8.
  rewrite (Z.div_small (t mod 256)) by (apply Z.mod_pos_bound; lia).
  reflexivity.
Qed.

(** After two resets in a row the counter is bounded by the handler
    runs served during the second. *)
Lemma stored_twice n1 n2 m1 m2 t :
  0 <= stored 0 m1 m2 (stored 0 n1 n2 t) <= Z.of_nat m1 + Z.of_nat m2.
Proof.
  split; [apply stored_zero_range|].
  rewrite (stored_zero m1 m2).
  rewrite (ticks_closed m1 (stored 0 n1 n2 t)) by apply stored_zero_range.
  rewrite stored_zero.
  set (q := hi8 (ticks n2 (lo8 (ticks n1 t)))).
  assert (Hlo : 0 <= lo8 (uint16 (q * 256 + Z.of_nat m1)) <= Z.of_nat m1).
  { split; [apply lo8_range|]. unfold lo8, uint16.
    rewrite Z.mod_mod_divide by now exists 256.
    rewrite Z.add_comm, Z.mod_add by lia.
    apply Z.mod_le; lia. }
  pose proof (ticks_bound m2 _ (proj1 Hlo)) as Hb.
  pose proof (hi8_le _ (proj1 Hb)). lia.
Qed.

Lemma rd_flat r w :
  r <> PINC ->
  exists n, rd E r w =
    Done (io w r)
         (mkWorld (io w) (iflag w) (ticks n (timer2_tick w)) (old_value w)
                  (S (now w)) (log w ++ repeat EvIsr n ++ [EvIn r (io w r)])).
Proof.
  intros Hr. exists (served E w). unfold rd.
  rewrite service_serve, serve_flat.
  unfold advance, note. cbn [io iflag timer2_tick old_value now log].
  rewrite <- app_assoc. destruct r; try reflexivity. contradiction.
Qed.

Lemma rd_pinc_flat w :
  exists n, rd E PINC w =
    Done (uint8 (pins E (now w)))
         (mkWorld (io w) (iflag w) (ticks n (timer2_tick w)) (old_value w)
                  (S (now w))
                  (log w ++ repeat EvIsr n ++
                   [EvIn PINC (uint8 (pins E (now w)))])).
Proof.
  exists (served E w). unfold rd.
  rewrite service_serve, serve_flat.
  unfold advance, note. cbn [io iflag timer2_tick old_value now log].
  now rewrite <- app_assoc.
Qed.

Lemma bind_assoc {A B C} (m : M A) (k : A -> M B) (h : B -> M C) w :
  bind (bind m k) h w = bind m (fun a => bind (k a) h) w.
Proof. unfold bind. destruct (m w); reflexivity. Qed.

Ltac flat_step :=
  match goal with
  | |- context [bind (bind ?m ?k) ?h ?W] => rewrite (bind_assoc m k h W)
  | |- context [bind (wr E ?r ?v) ?k ?W] =>
      let n := fresh "n" in let H := fresh "Hrun" in
      destruct (wr_flat r v W) as (n & H);
      rewrite (bind_run _ k _ _ _ H); clear H
  | |- context [bind (wr_tick E ?v) ?k ?W] =>
      let n := fresh "n" in let n' := fresh "n" in let H := fresh "Hrun" in
      destruct (wr_tick_flat v W) as (n & n' & H);
      rewrite (bind_run _ k _ _ _ H); clear H
  | |- context [bind (rd E PINC) ?k ?W] =>
      let n := fresh "n" in let H := fresh "Hrun" in
      destruct (rd_pinc_flat W) as (n & H);
      rewrite (bind_run _ k _ _ _ H); clear H
  | |- context [bind (rd E ?r) ?k ?W] =>
      let n := fresh "n" in let H := fresh "Hrun" in
      destruct (rd_flat r W ltac:(discriminate)) as (n & H);
      rewrite (bind_run _ k _ _ _ H); clear H
  | |- context [bind sei ?k ?W] =>
      rewrite (bind_run sei k W tt (set_iflag W true) eq_refl)
  | |- context [bind (ret ?a) ?k ?W] =>
      rewrite (bind_run (ret a) k W a W eq_refl)
  | |- context [wr E ?r ?v ?W] =>
      let n := fresh "n" in let H := fresh "Hrun" in
      destruct (wr_flat r v W) as (n & H); rewrite H; clear H
  | |- context [sei ?W] => change (sei W) with (Done tt (set_iflag W true))
  end;
  cbn [io iflag timer2_tick old_value now log upd reg_eqb set_iflag].

(** [timer2_start(0)], the slow mode, written out. *)
Lemma timer2_start_flat w :
  exists n1 n2 n3 n4 n5,
    timer2_start E 0 w =
    Done tt
      (mkWorld (upd (upd (io w) TCCR2 11) TIMSK (uint8 (Z.lor (io w TIMSK) 128)))
               true
               (ticks n5 (ticks n4 (ticks n3 (stored 0 n1 n2 (timer2_tick w)))))
               (old_value w) (5 + now w)
               (log w ++ repeat EvIsr n1 ++ repeat EvIsr n2 ++
                EvSet Var_timer2_tick 0 :: repeat EvIsr n3 ++
                EvOut TCCR2 11 :: repeat EvIsr n4 ++
                EvIn TIMSK (io w TIMSK) :: repeat EvIsr n5 ++
                [EvOut TIMSK (uint8 (Z.lor (io w TIMSK) 128))])).
Proof.
  unfold timer2_start. cbn [Z.eqb].
  change (uint8 11) with 11.
  repeat flat_step.
  change (uint16 0) with 0. change (uint8 11) with 11.
  exists n, n0, n1, n2, n3. rewrite <- !app_assoc. reflexivity.
Qed.

(** [timer2_stop()], written out. *)
Lemma timer2_stop_flat w :
  exists n1 n2 n3 n4,
    timer2_stop E w =
    Done tt
      (mkWorld (upd (upd (io w) TIMSK
                      (uint8 (Z.land (io w TIMSK) (Z.lnot 128))))
                    TCCR2 (uint8 (Z.land (io w TCCR2) 127)))
               (iflag w)
               (ticks n4 (ticks n3 (ticks n2 (ticks n1 (timer2_tick w)))))
               (old_value w) (4 + now w)
               (log w ++ repeat EvIsr n1 ++
                EvIn TIMSK (io w TIMSK) :: repeat EvIsr n2 ++
                EvOut TIMSK (uint8 (Z.land (io w TIMSK) (Z.lnot 128))) ::
                repeat EvIsr n3 ++
                EvIn TCCR2 (io w TCCR2) :: repeat EvIsr n4 ++
                [EvOut TCCR2 (uint8 (Z.land (io w TCCR2) 127))])).
Proof.
  unfold timer2_stop.
  repeat flat_step.
  exists n, n0, n1, n2. rewrite <- !app_assoc. reflexivity.
Qed.

Lemma Forall_stores_out l :
  Forall (fun e => is_store e = true -> exists r v, e = EvOut r v) l <->
  Forall (fun e => match e with EvSet _ _ => False | _ => True end) l.
Proof.
  split; apply Forall_impl; intros e He.
  - destruct e; try exact I. destruct (He eq_refl) as (r & v' & H).
    discriminate H.
  - intros Hs. destruct e; try discriminate Hs; try contradiction.
    now exists r, v.
Qed.

Ltac no_sets :=
  apply Forall_stores_out;
  repeat first
    [ apply Forall_nil
    | apply Forall_app; split
    | apply Forall_repeat; exact I
    | apply Forall_cons; [exact I|] ].

Ltac count_log :=
  repeat first
    [ rewrite count_isr_app | rewrite count_isr_repeat
    | progress cbn [count_isr] ].

(** [timer2_start(0)]: the slow mode. *)
Lemma timer2_start_slow w :
  exists w', timer2_start E 0 w = Done tt w' /\
    io w' TCCR2 = 11 /\ io w' TIMSK = uint8 (Z.lor (io w TIMSK) 128) /\
    (forall r, r <> TCCR2 -> r <> TIMSK -> io w' r = io w r) /\
    iflag w' = true /\ old_value w' = old_value w /\
    now w' = (now w + 5)%nat /\ 0 <= timer2_tick w' < 65536 /\
    exists l, log w' = log w ++ l /\
      filter main_event l =
        [EvSet Var_timer2_tick 0; EvOut TCCR2 11; EvIn TIMSK (io w TIMSK);
         EvOut TIMSK (uint8 (Z.lor (io w TIMSK) 128))].
Proof.
  destruct (timer2_start_flat w) as (n1 & n2 & n3 & n4 & n5 & H).
  eexists. split; [exact H|].
  cbn [io iflag timer2_tick old_value now log].
  pose proof (stored_zero_range n1 n2 (timer2_tick w)) as Hr.
  apply (ticks_range n3) in Hr. apply (ticks_range n4) in Hr.
  apply (ticks_range n5) in Hr.
  repeat apply conj; try reflexivity; try apply Hr.
  - intros r H1 H2. unfold upd. destruct r; try reflexivity; contradiction.
  - lia.
  - eexists. split; [reflexivity|].
    repeat (rewrite main_app, main_isr; cbn [filter main_event app]).
    reflexivity.
Qed.

(** [timer2_stop()] *)
Lemma timer2_stop_spec w :
  exists w', timer2_stop E w = Done tt w' /\
    io w' TIMSK = uint8 (Z.land (io w TIMSK) (Z.lnot 128)) /\
    io w' TCCR2 = uint8 (Z.land (io w TCCR2) 127) /\
    (forall r, r <> TCCR2 -> r <> TIMSK -> io w' r = io w r) /\
    iflag w' = iflag w /\ old_value w' = old_value w /\
    now w' = (now w + 4)%nat /\ (0 <= timer2_tick w -> tracks w w') /\
    exists l, log w' = log w ++ l /\
      filter main_event l =
        [EvIn TIMSK (io w TIMSK);
         EvOut TIMSK (uint8 (Z.land (io w TIMSK) (Z.lnot 128)));
         EvIn TCCR2 (io w TCCR2);
         EvOut TCCR2 (uint8 (Z.land (io w TCCR2) 127))].
Proof.
  destruct (timer2_stop_flat w) as (n1 & n2 & n3 & n4 & H).
  eexists. split; [exact H|].
  cbn [io iflag timer2_tick old_value now log].
  repeat apply conj; try reflexivity.
  - intros r H1 H2. unfold upd. destruct r; try reflexivity; contradiction.
  - lia.
  - intros H0. eexists. split; [reflexivity|]. split; [no_sets|].
    cbn [timer2_tick]. count_log.
    pose proof (ticks_bound n1 _ H0).
    pose proof (ticks_bound n2 (ticks n1 (timer2_tick w)) ltac:(lia)).
    pose proof (ticks_bound n3 (ticks n2 (ticks n1 (timer2_tick w)))
                  ltac:(lia)).
    pose proof (ticks_bound n4
                  (ticks n3 (ticks n2 (ticks n1 (timer2_tick w))))
                  ltac:(lia)). lia.
  - eexists. split; [reflexivity|].
    repeat (rewrite main_app, main_isr; cbn [filter main_event app]).
    reflexivity.
Qed.

End Delay.

Ltac flat_step :=
  match goal with
  | |- context [bind (bind ?m ?k) ?h ?W] => rewrite (bind_assoc m k h W)
  | |- context [bind (wr ?E ?r ?v) ?k ?W] =>
      let n := fresh "n" in let H := fresh "Hrun" in
      destruct (wr_flat E r v W) as (n & H);
      rewrite (bind_run _ k _ _ _ H); clear H
  | |- context [bind (wr_tick ?E ?v) ?k ?W] =>
      let n := fresh "n" in let n' := fresh "n" in let H := fresh "Hrun" in
      destruct (wr_tick_flat E v W) as (n & n' & H);
      rewrite (bind_run _ k _ _ _ H); clear H
  | |- context [bind (rd ?E PINC) ?k ?W] =>
      let n := fresh "n" in let H := fresh "Hrun" in
      destruct (rd_pinc_flat E W) as (n & H);
      rewrite (bind_run _ k _ _ _ H); clear H
  | |- context [bind (rd ?E ?r) ?k ?W] =>
      let n := fresh "n" in let H := fresh "Hrun" in
      destruct (rd_flat E r W ltac:(discriminate)) as (n & H);
      rewrite (bind_run _ k _ _ _ H); clear H
  | |- context [bind sei ?k ?W] =>
      rewrite (bind_run sei k W tt (set_iflag W true) eq_refl)
  | |- context [bind (ret ?a) ?k ?W] =>
      rewrite (bind_run (ret a) k W a W eq_refl)
  | |- context [wr ?E ?r ?v ?W] =>
      let n := fresh "n" in let H := fresh "Hrun" in
      destruct (wr_flat E r v W) as (n & H); rewrite H; clear H
  | |- context [sei ?W] => change (sei W) with (Done tt (set_iflag W true))
  end;
  cbn [io iflag timer2_tick old_value now log upd reg_eqb set_iflag].

Section Wait_ms.

Variable E : env.

Lemma isr_between_app w w' l :
  log w' = log w ++ l -> isr_between w w' = count_isr l.
Proof. intros H. unfold isr_between. rewrite H, count_isr_app. lia. Qed.

Lemma tracks_between w w' :
  tracks w w' ->
  0 <= isr_between w w' /\
  0 <= timer2_tick w' <= timer2_tick w + isr_between w w'.
Proof.
  intros (l & Hl & _ & Ht). rewrite (isr_between_app _ _ _ Hl).
  pose proof (count_isr_nonneg l). lia.
Qed.

(** The prologue of [wait_ms], up to the call of [timer2_start]. *)
Lemma wait_ms_prologue tv w :
  exists n1 n2 n3, forall fuel,
    wait_ms E fuel tv w =
    bind (timer2_start E 0)
         (fun _ => bind (wait_loop E fuel tv) (fun _ => timer2_stop E))
         (mkWorld (upd (io w) OCR2 250) (iflag w)
                  (stored 0 n2 n3 (ticks n1 (timer2_tick w))) (old_value w)
                  (3 + now w)
                  (log w ++ EvWait tv :: repeat EvIsr n1 ++
                   EvOut OCR2 250 :: repeat EvIsr n2 ++ repeat EvIsr n3 ++
                   [EvSet Var_timer2_tick 0])).
Proof.
  destruct (wr_flat E OCR2 250 (note w (EvWait tv))) as (n1 & H1).
  unfold note in H1. cbn [io iflag timer2_tick old_value now log] in H1.
  match type of H1 with
  | _ = Done tt ?W => destruct (wr_tick_flat E 0 W) as (n2 & n3 & H2)
  end.
  cbn [io iflag timer2_tick old_value now log] in H2.
  exists n1, n2, n3. intros fuel. unfold wait_ms.
  rewrite (bind_run (fun w => Done tt (note w (EvWait tv))) _ w tt
                    (note w (EvWait tv)) eq_refl).
  unfold note.
  rewrite (bind_run _ _ _ _ _ H1), (bind_run _ _ _ _ _ H2).
  change (uint16 0) with 0. change (uint8 250) with 250.
  rewrite <- !app_assoc. reflexivity.
Qed.

(** [wait_ms] is: a setup that does not depend on the fuel and leaves
    the timer interrupt on, then the busy wait, then [timer2_stop].
    The counter enters the busy wait no higher than the number of
    handler runs the setup has let in. *)
Lemma wait_ms_split tv w :
  exists w3,
    (forall fuel,
       wait_ms E fuel tv w =
       bind (wait_loop E fuel tv) (fun _ => timer2_stop E) w3) /\
    irq_enabled w3 = true /\ 0 <= timer2_tick w3 < 65536 /\
    io w3 OCR2 = 250 /\ io w3 TCCR2 = 11 /\
    io w3 TIMSK = uint8 (Z.lor (io w TIMSK) 128) /\
    (forall r, r <> OCR2 -> r <> TCCR2 -> r <> TIMSK -> io w3 r = io w r) /\
    iflag w3 = true /\ old_value w3 = old_value w /\
    now w3 = (now w + 8)%nat /\
    exists l3,
      log w3 = log w ++ EvWait tv :: l3 /\
      filter main_event l3 =
        [EvOut OCR2 250; EvSet Var_timer2_tick 0; EvSet Var_timer2_tick 0;
         EvOut TCCR2 11; EvIn TIMSK (io w TIMSK);
         EvOut TIMSK (uint8 (Z.lor (io w TIMSK) 128))] /\
      timer2_tick w3 <= count_isr l3.
Proof.
  destruct (wait_ms_prologue tv w) as (n1 & n2 & n3 & Hp).
  match type of Hp with
  | forall fuel, _ = bind _ _ ?W =>
      destruct (timer2_start_flat E W) as (m1 & m2 & m3 & m4 & m5 & Hs)
  end.
  cbn [io iflag old_value timer2_tick now log] in Hs.
  pose proof (stored_twice n2 n3 m1 m2 (ticks n1 (timer2_tick w))) as Hb.
  assert (Hr : 0 <= ticks m5 (ticks m4 (ticks m3
                 (stored 0 m1 m2
                    (stored 0 n2 n3 (ticks n1 (timer2_tick w)))))) < 65536).
  { repeat apply ticks_range. apply stored_zero_range. }
  eexists. split; [|repeat apply conj].
  - intros fuel. rewrite Hp, (bind_run _ _ _ _ _ Hs). reflexivity.
  - unfold irq_enabled. cbn [iflag io upd reg_eqb andb].
    apply uint8_lor_bit7.
  - apply Hr.
  - apply Hr.
  - reflexivity.
  - reflexivity.
  - reflexivity.
  - intros r R1 R2 R3. cbn [io]. unfold upd.
    destruct r; try reflexivity; contradiction.
  - reflexivity.
  - reflexivity.
  - cbn [now]. lia.
  - eexists. cbn [log timer2_tick]. split; [|split].
    + rewrite <- !app_assoc. cbn [app]. reflexivity.
    + repeat (rewrite main_app, ?main_isr; cbn [filter main_event app]).
      reflexivity.
    + repeat (rewrite count_isr_app, ?count_isr_repeat;
              cbn [count_isr]).
      pose proof (ticks_bound m3 _ (proj1 Hb)) as B3.
      pose proof (ticks_bound m4 _ (proj1 B3)) as B4.
      pose proof (ticks_bound m5 _ (proj1 B4)) as B5. lia.
Qed.

(** What holds when [wait_ms] returns. *)
Lemma wait_ms_returns fuel tv w w' :
  wait_ms E fuel tv w = Done tt w' ->
  io w' OCR2 = 250 /\ io w' TCCR2 = 11 /\
  io w' TIMSK = uint8 (Z.land (uint8 (Z.lor (io w TIMSK) 128)) (Z.lnot 128)) /\
  (forall r, r <> OCR2 -> r <> TCCR2 -> r <> TIMSK -> io w' r = io w r) /\
  iflag w' = true /\ old_value w' = old_value w /\
  (0 <= timer2_tick w' <= isr_between w w' /\
   (tv <= 256 -> tv <= isr_between w w') /\
   tv <= isr_between w w' + 255) /\
  exists l ps t, log w' = log w ++ EvWait tv :: l /\
    filter main_event l =
      [EvOut OCR2 250; EvSet Var_timer2_tick 0; EvSet Var_timer2_tick 0;
       EvOut TCCR2 11; EvIn TIMSK (io w TIMSK);
       EvOut TIMSK (uint8 (Z.lor (io w TIMSK) 128))] ++
      map (EvGet Var_timer2_tick) (ps ++ [t]) ++
      [EvIn TIMSK (uint8 (Z.lor (io w TIMSK) 128));
       EvOut TIMSK
         (uint8 (Z.land (uint8 (Z.lor (io w TIMSK) 128)) (Z.lnot 128)));
       EvIn TCCR2 11; EvOut TCCR2 11] /\
    Forall (fun v => 0 <= v < tv) ps /\ tv <= t /\
    (isr_between w w' = 0 -> t = 0).
Proof.
  destruct (wait_ms_split tv w)
    as (w3 & Hs & _ & T3 & S0 & S1 & S2 & S3 & S4 & S5 & _ &
        l3 & L3 & M3 & B3).
  rewrite Hs. intros H.
  apply bind_Done in H as ([] & w4 & H4 & H).
  pose proof (wait_loop_frame E fuel tv w3) as L. rewrite H4 in L.
  cbn [world_of] in L. destruct L as (L1 & L2 & L3' & _ & _).
  destruct (wait_loop_polls E fuel tv w3 w4 (proj1 T3) H4)
    as (l4 & ps & t & Hl4 & St4 & Fps & Ht & B4 & t1 & t2 & Et & Bt1 & Bt2).
  destruct (timer2_stop_spec E w4)
    as (w5 & Hp & P1 & P2 & P3 & P4 & P5 & _ & P6 & (l5 & Hl5 & St5)).
  rewrite Hp in H. injection H as ->.
  destruct (tracks_between w4 w' (P6 (proj1 B4))) as (_ & B5).
  rewrite (isr_between_app w4 w' l5 Hl5) in B5.
  assert (Hlog : log w' = log w ++ EvWait tv :: l3 ++ l4 ++ l5).
  { rewrite Hl5, Hl4, L3, <- !app_assoc. reflexivity. }
  assert (Hisr : isr_between w w' =
                 count_isr l3 + count_isr l4 + count_isr l5).
  { rewrite (isr_between_app w w' _ Hlog).
    cbn [count_isr]. rewrite !count_isr_app. lia. }
  pose proof (count_isr_nonneg l3). pose proof (count_isr_nonneg l4).
  pose proof (count_isr_nonneg l5).
  repeat apply conj.
  - rewrite P3, L1, S0 by discriminate. reflexivity.
  - rewrite P2, L1, S1. reflexivity.
  - rewrite P1, L1, S2. reflexivity.
  - intros r R1 R2 R3. rewrite P3, L1, S3 by assumption. reflexivity.
  - rewrite P4, L2. exact S4.
  - rewrite P5, L3'. exact S5.
  - lia.
  - lia.
  - intros Htv.
    destruct (torn_bound tv t1 t2 ltac:(lia) ltac:(lia) Htv) as [Hc|Hc];
      [rewrite <- Et; exact Ht | lia | lia].
  - pose proof (hi8_le t2 ltac:(lia)). pose proof (lo8_range t1).
    unfold word in Et. lia.
  - exists (l3 ++ l4 ++ l5), ps, t.
    split; [exact Hlog|]. split; [|split; [exact Fps|split; [exact Ht|]]].
    + rewrite !main_app, M3, St4, St5, L1, S1, S2. reflexivity.
    + intros Hnone.
      assert (t1 = 0) by lia. assert (t2 = 0) by lia. subst t1 t2.
      exact Et.
Qed.

(** Whatever the argument and however long the wait, the call sets the
    timer up first. *)
Lemma wait_ms_sets_up fuel tv w :
  exists l l',
    log (world_of (wait_ms E fuel tv w)) = log w ++ EvWait tv :: l ++ l' /\
    filter main_event l =
      [EvOut OCR2 250; EvSet Var_timer2_tick 0; EvSet Var_timer2_tick 0;
       EvOut TCCR2 11; EvIn TIMSK (io w TIMSK);
       EvOut TIMSK (uint8 (Z.lor (io w TIMSK) 128))].
Proof.
  destruct (wait_ms_split tv w)
    as (w3 & Hs & _ & _ & _ & _ & _ & _ & _ & _ & _ & l3 & L3 & M3 & _).
  rewrite Hs.
  assert (Hk : emits timer_event
                 (bind (wait_loop E fuel tv) (fun _ => timer2_stop E))).
  { apply emits_bind; [|intros _; apply emits_timer2_stop].
    apply emits_wait_loop; [exact I | intros ?; exact I]. }
  destruct (Hk w3) as (l' & Hl' & _).
  exists l3, l'. split; [|exact M3].
  rewrite Hl', L3, <- app_assoc. reflexivity.
Qed.

(** A stretch of the log without a run of the handler is all main
    code. *)
Lemma main_all l : count_isr l = 0 -> filter main_event l = l.
Proof.
  induction l as [|e l IH]; [reflexivity|].
  pose proof (count_isr_nonneg l).
  destruct e; cbn [count_isr filter main_event]; intros He;
    try (rewrite IH by exact He; reflexivity).
  lia.
Qed.

End Wait_ms.

(** ** When the delay returns *)

Section Liveness.

Variable E : env.

Lemma irq_enabled_polled w : irq_enabled (polled E w) = irq_enabled w.
Proof.
  unfold irq_enabled. destruct (polled_frame E w) as (-> & -> & _).
  reflexivity.
Qed.

Lemma poll_value_nonneg w : 0 <= poll_value E w.
Proof. apply word_nonneg. Qed.

(** [wait_ms 0] returns at its first poll. *)
Lemma wait_ms_zero fuel w :
  exists w', wait_ms E (S fuel) 0 w = Done tt w' /\
             now w' = (now w + 14)%nat.
Proof.
  destruct (wait_ms_split E 0 w)
    as (w3 & Hs & _ & _ & _ & _ & _ & _ & _ & _ & N3 & _).
  rewrite Hs.
  assert (H4 : wait_loop E (S fuel) 0 w3 = Done tt (polled E w3)).
  { rewrite wait_loop_step. pose proof (poll_value_nonneg w3).
    destruct (Z.ltb_spec (poll_value E w3) 0); [lia|reflexivity]. }
  rewrite (bind_run _ _ _ _ _ H4).
  destruct (timer2_stop_spec E (polled E w3))
    as (w5 & H5 & _ & _ & _ & _ & _ & N5 & _).
  exists w5. split; [exact H5|].
  destruct (polled_frame E w3) as (_ & _ & _ & _ & N4).
  rewrite N5, N4, N3. lia.
Qed.

End Liveness.

(** ** More fuel, and environments in which the timer keeps running *)

Section Timely.

Variable E : env.

Lemma wait_loop_more fuel tv w w' :
  wait_loop E fuel tv w = Done tt w' ->
  wait_loop E (S fuel) tv w = Done tt w'.
Proof.
  revert w. induction fuel as [|fuel IH]; intros w; [discriminate|].
  rewrite (wait_loop_step E (S fuel)), (wait_loop_step E fuel).
  destruct (poll_value E w <? tv); [apply IH | trivial].
Qed.

Lemma wait_ms_more fuel tv w w' :
  wait_ms E fuel tv w = Done tt w' -> wait_ms E (S fuel) tv w = Done tt w'.
Proof.
  destruct (wait_ms_split E tv w) as (w3 & Hs & _). rewrite !Hs.
  intros H. apply bind_Done in H as ([] & w4 & H4 & H).
  now rewrite (bind_run _ _ _ _ _ (wait_loop_more _ _ _ _ H4)).
Qed.

Lemma wait_ms_le fuel fuel' tv w w' :
  (fuel <= fuel')%nat ->
  wait_ms E fuel tv w = Done tt w' -> wait_ms E fuel' tv w = Done tt w'.
Proof.
  induction 1 as [|f Hle IH]; [trivial|].
  intros H. now apply wait_ms_more, IH.
Qed.

Lemma stepper_loop_unfold fuel ns dir m steps t w :
  stepper_loop E (S fuel) ns dir m steps t w =
  if steps <=? ns
  then bind (stepper_body E dir m steps t)
         (fun st => bind (wait_ms E fuel 2)
            (fun _ => stepper_loop E fuel ns dir m (fst st) (snd st))) w
  else Done tt w.
Proof. cbn [stepper_loop]. now destruct (steps <=? ns). Qed.

Lemma stepper_loop_more ns dir m fuel :
  forall steps t w w',
    stepper_loop E fuel ns dir m steps t w = Done tt w' ->
    stepper_loop E (S fuel) ns dir m steps t w = Done tt w'.
Proof.
  induction fuel as [|fuel IH]; intros steps t w w'; [discriminate|].
  rewrite (stepper_loop_unfold (S fuel)), (stepper_loop_unfold fuel).
  destruct (steps <=? ns); [|trivial].
  intros H.
  apply bind_Done in H as (st & w1 & H1 & H). rewrite (bind_run _ _ _ _ _ H1).
  apply bind_Done in H as ([] & w2 & H2 & H).
  rewrite (bind_run _ _ _ _ _ (wait_ms_more _ _ _ _ H2)).
  now apply IH.
Qed.

Lemma stepper_loop_le ns dir m fuel fuel' steps t w w' :
  (fuel <= fuel')%nat ->
  stepper_loop E fuel ns dir m steps t w = Done tt w' ->
  stepper_loop E fuel' ns dir m steps t w = Done tt w'.
Proof.
  induction 1 as [|f Hle IH]; [trivial|].
  intros H. now apply stepper_loop_more, IH.
Qed.

Lemma tick_service_cases w :
  timely E -> irq_enabled w = true ->
  (irqs E (now w) = 0%nat /\ timer2_tick (service E w) = timer2_tick w) \/
  (irqs E (now w) = 1%nat /\
   timer2_tick (service E w) = uint16 (timer2_tick w + 1)).
Proof.
  intros (H1 & _) He. unfold service. rewrite He.
  specialize (H1 (now w)).
  destruct (irqs E (now w)) as [|[|n]]; [left | right | lia]; now split.
Qed.

(** A read torn by one tick is not below the counter it started from,
    as long as the counter does not wrap. *)
Lemma torn_ge t b :
  0 <= t -> t + b < 65536 -> 0 <= b -> t <= word (hi8 (t + b)) (lo8 t).
Proof.
  intros Ht Hb H0.
  rewrite <- (word_bytes t) at 1 by lia. unfold word, hi8.
  assert (Hd : t / 256 <= (t + b) / 256) by (apply Z.div_le_mono; lia).
  rewrite !Z.mod_small; [lia| |];
    (split; [apply Z.div_pos; lia | apply Z.div_lt_upper_bound; lia]).
Qed.

(** One poll with the timer running: the loop is left, or the counter
    has not passed the argument; and from a counter not above the
    argument, a poll that does not leave the loop either saw the counter
    move or let no compare match in. *)
Lemma poll_step tv w :
  timely E -> 0 <= tv <= 65533 ->
  irq_enabled w = true -> 0 <= timer2_tick w < 65536 ->
  tv <= poll_value E w \/
  (poll_value E w < tv /\ 0 <= timer2_tick (polled E w) <= tv /\
   (timer2_tick w <= tv ->
    timer2_tick w < timer2_tick (polled E w) \/
    (timer2_tick (polled E w) = timer2_tick w /\
     irqs E (now w) = 0%nat /\ irqs E (S (now w)) = 0%nat))).
Proof.
  intros HE Htv He Ht.
  destruct (Z.le_gt_cases tv (poll_value E w)) as [Hge|Hlt];
    [left; exact Hge | right].
  destruct (polled_frame E w) as (_ & _ & _ & Pt & _).
  assert (He' : irq_enabled (advance (service E w)) = true).
  { unfold irq_enabled in *. now proj. }
  assert (Hn : now (advance (service E w)) = S (now w)) by now proj.
  assert (Hm : timer2_tick (advance (service E w)) =
               timer2_tick (service E w)) by reflexivity.
  pose proof (tick_service_cases w HE He) as C1.
  pose proof (tick_service_cases (advance (service E w)) HE He') as C2.
  rewrite Hn, Hm in C2.
  unfold poll_value in Hlt. rewrite Pt.
  set (t1 := timer2_tick (service E w)) in *.
  set (t2 := timer2_tick (service E (advance (service E w)))) in *.
  assert (R1 : 0 <= t1 < 65536).
  { destruct C1 as [(_ & ->)|(_ & ->)]; [lia | apply uint16_range]. }
  assert (Hcases :
    (t1 <= 65534 /\ t1 < tv /\ t1 <= t2 <= t1 + 1) \/ (t1 = 65535 /\ t2 = 0)).
  { destruct (Z.le_gt_cases t1 65534) as [Hs|Hs].
    - left. split; [exact Hs|].
      assert (Hb : t2 = t1 \/ t2 = t1 + 1).
      { destruct C2 as [(_ & ->)|(_ & ->)]; [now left|right].
        apply uint16_small. lia. }
      split; [|lia].
      destruct (Z.lt_ge_cases t1 tv) as [|Hc]; [assumption|exfalso].
      destruct Hb as [E2|E2]; rewrite E2 in Hlt.
      + rewrite word_bytes in Hlt by lia. lia.
      + pose proof (torn_ge t1 1 ltac:(lia) ltac:(lia) ltac:(lia)). lia.
    - right. assert (t1 = 65535) by lia. split; [assumption|].
      destruct C2 as [(_ & E2)|(_ & E2)].
      + exfalso. rewrite E2, word_bytes in Hlt by lia. lia.
      + rewrite E2. subst t1. replace (timer2_tick (service E w)) with 65535.
        reflexivity. }
  split; [exact Hlt|]. split; [lia|].
  intros Hle.
  destruct Hcases as [(Hs & Hlt1 & Hb)|(Hs & _)].
  - destruct C1 as [(I1 & E1)|(I1 & E1)].
    + destruct C2 as [(I2 & E2)|(I2 & E2)].
      * right. fold t1 in E1, E2. fold t2 in E2. repeat split; lia.
      * left. fold t1 in E1, E2. fold t2 in E2.
        rewrite uint16_small in E2 by lia. lia.
    + left. fold t1 in E1. rewrite uint16_small in E1 by lia. lia.
  - exfalso. destruct C1 as [(_ & E1)|(_ & E1)]; fold t1 in E1.
    + lia.
    + assert (timer2_tick w < 65535) by lia.
      rewrite uint16_small in E1 by lia. lia.
Qed.

Lemma wait_loop_next fuel tv w w' :
  poll_value E w < tv ->
  wait_loop E fuel tv (polled E w) = Done tt w' ->
  wait_loop E (S fuel) tv w = Done tt w'.
Proof.
  intros Hlt H. rewrite wait_loop_step.
  destruct (Z.ltb_spec (poll_value E w) tv); [exact H | lia].
Qed.

Lemma wait_loop_leave tv w :
  tv <= poll_value E w -> wait_loop E 1 tv w = Done tt (polled E w).
Proof.
  intros Hge. rewrite wait_loop_step.
  destruct (Z.ltb_spec (poll_value E w) tv); [lia | reflexivity].
Qed.

(** From a counter not above the argument, with the interrupt on, the
    busy wait is left once enough compare matches have been served. *)
Lemma wait_loop_timely_below tv :
  timely E -> 0 <= tv <= 65533 ->
  forall (missing : nat) w,
    irq_enabled w = true -> 0 <= timer2_tick w <= tv ->
    tv - timer2_tick w <= Z.of_nat missing ->
    exists fuel w', wait_loop E fuel tv w = Done tt w'.
Proof.
  intros HE Htv.
  assert (Hwait : forall missing : nat,
    (forall w, irq_enabled w = true -> 0 <= timer2_tick w <= tv ->
       tv - timer2_tick w <= Z.of_nat missing ->
       exists fuel w', wait_loop E fuel tv w = Done tt w') ->
    forall (bound d : nat) w, (d <= bound)%nat ->
      irq_enabled w = true -> 0 <= timer2_tick w <= tv ->
      tv - timer2_tick w <= Z.of_nat (S missing) ->
      irqs E (now w + d) = 1%nat ->
      exists fuel w', wait_loop E fuel tv w = Done tt w').
  { intros missing IHm. induction bound as [|bound IHb];
      intros d w Hd He Ht Hm Hi.
    - assert (d = 0%nat) by lia. subst d. rewrite Nat.add_0_r in Hi.
      destruct (poll_step tv w HE Htv He ltac:(lia))
        as [Hge|(Hlt & Hp & Hmove)].
      + exists 1%nat, (polled E w). now apply wait_loop_leave.
      + destruct (Hmove ltac:(lia)) as [Hup|(_ & I1 & _)]; [|congruence].
        destruct (IHm (polled E w)) as (fuel & w' & H);
          rewrite ?irq_enabled_polled; try assumption; try lia.
        exists (S fuel), w'. now apply wait_loop_next.
    - destruct (poll_step tv w HE Htv He ltac:(lia))
        as [Hge|(Hlt & Hp & Hmove)].
      + exists 1%nat, (polled E w). now apply wait_loop_leave.
      + destruct (Hmove ltac:(lia)) as [Hup|(Hsame & I1 & I2)].
        * destruct (IHm (polled E w)) as (fuel & w' & H);
            rewrite ?irq_enabled_polled; try assumption; try lia.
          exists (S fuel), w'. now apply wait_loop_next.
        * destruct d as [|[|d]].
          -- rewrite Nat.add_0_r in Hi. congruence.
          -- rewrite Nat.add_1_r in Hi. congruence.
          -- destruct (polled_frame E w) as (_ & _ & _ & _ & Pn).
             destruct (IHb d (polled E w)) as (fuel & w' & H);
               rewrite ?irq_enabled_polled, ?Hsame, ?Pn;
               try assumption; try lia.
             { rewrite <- Hi. f_equal. lia. }
             exists (S fuel), w'. now apply wait_loop_next. }
  induction missing as [|missing IHm]; intros w He Ht Hm.
  - destruct (poll_step tv w HE Htv He ltac:(lia))
      as [Hge|(Hlt & Hp & Hmove)].
    + exists 1%nat, (polled E w). now apply wait_loop_leave.
    + exfalso.
      assert (Heq : timer2_tick w = tv) by lia.
      destruct (polled_frame E w) as (_ & _ & _ & Pt & _).
      destruct (Hmove ltac:(lia)) as [Hup|(Hsame & I1 & I2)]; [lia|].
      unfold poll_value in Hlt. rewrite <- Pt, Hsame in Hlt.
      rewrite (service_none E w I1), word_bytes in Hlt by lia. lia.
  - destruct (proj2 HE (now w)) as (d & Hd).
    apply (Hwait missing IHm d d w); try assumption; lia.
Qed.

(** With the interrupt on and compare matches arriving, the busy wait
    is left, wherever the counter starts. *)
Lemma wait_loop_timely tv w :
  timely E -> 0 <= tv <= 65533 -> irq_enabled w = true ->
  0 <= timer2_tick w < 65536 ->
  exists fuel w', wait_loop E fuel tv w = Done tt w'.
Proof.
  intros HE Htv He Ht.
  destruct (poll_step tv w HE Htv He Ht) as [Hge|(Hlt & Hp & _)].
  - exists 1%nat, (polled E w). now apply wait_loop_leave.
  - destruct (wait_loop_timely_below tv HE Htv (Z.to_nat tv) (polled E w))
      as (fuel & w' & H);
      rewrite ?irq_enabled_polled; try assumption; try lia.
    exists (S fuel), w'. now apply wait_loop_next.
Qed.

(** In a timely environment [wait_ms] returns, for every argument up
    to 65533. *)
Lemma wait_ms_timely tv w :
  timely E -> 0 <= tv <= 65533 ->
  exists fuel w', wait_ms E fuel tv w = Done tt w'.
Proof.
  intros HE Htv.
  destruct (wait_ms_split E tv w) as (w3 & Hs & He & Ht & _).
  destruct (wait_loop_timely tv w3 HE Htv He Ht) as (fuel & w4 & H4).
  destruct (timer2_stop_spec E w4) as (w5 & H5 & _).
  exists fuel, w5. now rewrite Hs, (bind_run _ _ _ _ _ H4).
Qed.

Lemma steady_timely : steady E -> timely E.
Proof.
  intros Hs. split; intros k.
  - rewrite Hs. lia.
  - exists 0%nat. apply Hs.
Qed.

End Timely.

Section Quiet.

Variable E : env.

Lemma wr_quiet r v w :
  irqs E (now w) = 0%nat ->
  wr E r v w =
  Done tt (mkWorld (upd (io w) r (uint8 v)) (iflag w) (timer2_tick w)
                   (old_value w) (S (now w)) (log w ++ [EvOut r (uint8 v)])).
Proof. intros H. unfold wr. rewrite (service_none E w H). reflexivity. Qed.

Lemma wr_tick_quiet v w :
  irqs E (now w) = 0%nat -> irqs E (S (now w)) = 0%nat ->
  wr_tick E v w =
  Done tt (mkWorld (io w) (iflag w) (stored v 0 0 (timer2_tick w))
                   (old_value w) (S (S (now w)))
                   (log w ++ [EvSet Var_timer2_tick (uint16 v)])).
Proof.
  intros H1 H2. unfold wr_tick. cbv zeta. rewrite (service_none E w H1).
  rewrite service_none by exact H2. reflexivity.
Qed.

Lemma rd_quiet r w :
  irqs E (now w) = 0%nat -> r <> PINC ->
  rd E r w =
  Done (io w r) (mkWorld (io w) (iflag w) (timer2_tick w) (old_value w)
                         (S (now w)) (log w ++ [EvIn r (io w r)])).
Proof.
  intros H Hr. unfold rd. rewrite (service_none E w H).
  destruct r; try reflexivity. contradiction.
Qed.

End Quiet.

(** ** The phase bits of the stepper *)

Section Phases.

Lemma land_15_range p : 0 <= Z.land p 0x0F < 16.
Proof.
  change 15 with (Z.ones 4). rewrite Z.land_ones by lia.
  apply Z.mod_pos_bound. lia.
Qed.

Lemma int8_small x : 0 <= x < 128 -> int8 x = x.
Proof.
  intros H. unfold int8. rewrite Z.mod_small by lia.
  destruct (Z.ltb_spec x 128); [reflexivity | lia].
Qed.

Lemma cw_next t :
  one_phase t ->
  one_phase (if uint8 (Z.shiftl t 1) =? 0 then 0x10 else uint8 (Z.shiftl t 1)).
Proof.
  unfold one_phase. intros [H|[H|[H|H]]]; subst t; vm_compute; tauto.
Qed.

Lemma ccw_next t :
  one_phase t ->
  one_phase (if uint8 (Z.shiftr t 1) =? 0x08 then 0x80
             else uint8 (Z.shiftr t 1)).
Proof.
  unfold one_phase. intros [H|[H|[H|H]]]; subst t; vm_compute; tauto.
Qed.

Lemma phase_value_lor m t :
  0 <= m < 16 -> one_phase t -> phase_value m (uint8 (Z.lor m t)).
Proof.
  intros Hm Ht.
  assert (Hc : m = 0 \/ m = 1 \/ m = 2 \/ m = 3 \/ m = 4 \/ m = 5 \/ m = 6 \/
               m = 7 \/ m = 8 \/ m = 9 \/ m = 10 \/ m = 11 \/ m = 12 \/
               m = 13 \/ m = 14 \/ m = 15) by lia.
  unfold phase_value, one_phase in *.
  repeat (destruct Hc as [Hc|Hc]; [subst m;
    destruct Ht as [H|[H|[H|H]]]; subst t; vm_compute; tauto|]).
  subst m. destruct Ht as [H|[H|[H|H]]]; subst t; vm_compute; tauto.
Qed.

End Phases.

(** ** Events and results together *)

Section Safe.

Variable E : env.

Lemma safe_bind {A B} P (Q : A -> Prop) (R : B -> Prop) (m : M A) k :
  safe P Q m -> (forall a, Q a -> safe P R (k a)) -> safe P R (bind m k).
Proof.
  intros Hm Hk w. destruct (Hm w) as (l1 & Hl1 & HP1 & HQ).
  unfold bind. destruct (m w) as [a w1|w1|w1]; cbn [world_of] in Hl1.
  - destruct (Hk a (HQ a w1 eq_refl) w1) as (l2 & Hl2 & HP2 & HR).
    exists (l1 ++ l2). rewrite Hl2, Hl1, app_assoc.
    repeat split; [|exact HR]. apply Forall_app. now split.
  - exists l1. repeat split; try assumption. discriminate.
  - exists l1. repeat split; try assumption. discriminate.
Qed.

Lemma safe_ret {A} P (Q : A -> Prop) a : Q a -> safe P Q (ret a).
Proof.
  intros HQ w. exists []. cbn. rewrite app_nil_r.
  repeat split; [constructor|]. intros a' w' H. now injection H as <- _.
Qed.

Lemma safe_emits {A} P (m : M A) : emits P m -> safe P (fun _ => True) m.
Proof.
  intros Hm w. destruct (Hm w) as (l & Hl & HP). exists l. now repeat split.
Qed.

Lemma emits_safe {A} P (Q : A -> Prop) (m : M A) : safe P Q m -> emits P m.
Proof.
  intros Hm w. destruct (Hm w) as (l & Hl & HP & _). exists l. now split.
Qed.

Lemma safe_for_loop {A} P (Q : A -> Prop) n (body : A -> M A) a :
  (forall a, Q a -> safe P Q (body a)) -> Q a -> safe P Q (for_loop n body a).
Proof.
  intros Hb. revert a. induction n as [|n IH]; intros a Ha; cbn [for_loop].
  - now apply safe_ret.
  - eapply safe_bind; [apply Hb, Ha | exact IH].
Qed.

Lemma wait_ms_event_porte_ok m e : wait_ms_event e -> porte_ok m e.
Proof. destruct e as [[] v|[] v|[] v|[] v| |]; cbn; tauto. Qed.

Lemma safe_cw_phase m t :
  0 <= m < 16 -> one_phase t ->
  safe (porte_ok m) one_phase (cw_phase E m t).
Proof.
  intros Hm Ht. unfold cw_phase.
  eapply safe_bind.
  - apply safe_emits, emits_wr; [exact I|]. cbn. now apply phase_value_lor.
  - intros _ _. apply safe_ret. now apply cw_next.
Qed.

Lemma safe_ccw_phase m t :
  0 <= m < 16 -> one_phase t ->
  safe (porte_ok m) one_phase (ccw_phase E m t).
Proof.
  intros Hm Ht. unfold ccw_phase.
  eapply safe_bind.
  - apply safe_emits, emits_wr; [exact I|]. cbn. now apply phase_value_lor.
  - intros _ _. apply safe_ret. now apply ccw_next.
Qed.

Lemma safe_stepper_body dir m steps t :
  0 <= m < 16 -> one_phase t ->
  safe (porte_ok m) (fun st => one_phase (snd st))
       (stepper_body E dir m steps t).
Proof.
  intros Hm Ht. unfold stepper_body.
  destruct (dir =? 1); [|destruct (dir =? -1)].
  - eapply safe_bind.
    + apply safe_for_loop; [|exact Ht]. intros. now apply safe_cw_phase.
    + intros t' Ht'. eapply safe_bind.
      * apply safe_emits, emits_int_succ.
      * intros s' _. now apply safe_ret.
  - eapply safe_bind.
    + apply safe_for_loop; [|exact Ht]. intros. now apply safe_ccw_phase.
    + intros t' Ht'. eapply safe_bind.
      * apply safe_emits, emits_int_succ.
      * intros s' _. now apply safe_ret.
  - now apply safe_ret.
Qed.

Lemma emits_stepper_loop fuel ns dir m :
  0 <= m < 16 ->
  forall steps t, one_phase t ->
    emits (porte_ok m) (stepper_loop E fuel ns dir m steps t).
Proof.
  intros Hm. induction fuel as [|fuel IH]; intros steps t Ht;
    cbn [stepper_loop].
  - apply emits_spin.
  - destruct (steps <=? ns); [|apply emits_ret].
    eapply emits_safe. eapply safe_bind.
    + now apply safe_stepper_body.
    + intros st Hst. apply safe_emits. apply emits_bind.
      * eapply emits_weaken; [|apply emits_wait_ms].
        apply wait_ms_event_porte_ok.
      * intros _. now apply IH.
Qed.

End Safe.

(** ** The step loop: what it shows, when it returns, when it cannot *)

Section Stepper.

Variable E : env.

Lemma motor_app l1 l2 :
  filter motor_event (l1 ++ l2) = filter motor_event l1 ++ filter motor_event l2.
Proof. apply filter_app. Qed.

Lemma motor_isr n : filter motor_event (repeat EvIsr n) = [].
Proof. induction n as [|n IH]; [reflexivity | exact IH]. Qed.

Lemma motor_timer l : Forall timer_event l -> filter motor_event l = [].
Proof.
  induction 1 as [|e l He _ IH]; [reflexivity|].
  cbn [filter].
  destruct e as [[] v|[] v|[] v|[] v| |]; cbn in *; try exact IH; tauto.
Qed.

(** A call of [wait_ms] shows as its entry and nothing else. *)
Lemma wait_ms_motor fuel tv w :
  exists l, log (world_of (wait_ms E fuel tv w)) = log w ++ l /\
            filter motor_event l = [EvWait tv].
Proof.
  destruct (wait_ms_log E fuel tv w) as (l & Hl & HP).
  exists (EvWait tv :: l). split; [exact Hl|].
  cbn [filter motor_event]. now rewrite motor_timer.
Qed.

(** [wait_ms] returns or spins; it has no undefined behaviour. *)
Lemma wait_ms_outcome fuel tv w :
  (exists w', wait_ms E fuel tv w = Done tt w') \/
  (exists w', wait_ms E fuel tv w = Spin w').
Proof.
  unfold wait_ms.
  do 3 (erewrite bind_run by reflexivity).
  match goal with
  | |- context [bind (timer2_start _ _) _ ?W] => set (w2 := W)
  end.
  destruct (timer2_start_slow E w2) as (w3 & H3 & _).
  rewrite (bind_run _ _ _ _ _ H3).
  pose proof (wait_loop_frame E fuel tv w3) as (_ & _ & _ & _ & Hu).
  unfold bind.
  destruct (wait_loop E fuel tv w3) as [[] w4|w4|w4].
  - left. destruct (timer2_stop_spec E w4) as (w5 & H5 & _). now exists w5.
  - right. now exists w4.
  - exfalso. now apply (Hu w4).
Qed.

(** One pass of a [for] loop body: one store to PORTE. *)
Lemma cw_phase_run m t w :
  exists t' w' l v, cw_phase E m t w = Done t' w' /\ log w' = log w ++ l /\
    filter motor_event l = [EvOut PORTE v].
Proof.
  unfold cw_phase, bind, wr, ret. do 4 eexists. split; [reflexivity|].
  logs. rewrite <- app_assoc. split; [reflexivity|].
  rewrite motor_app, motor_isr. reflexivity.
Qed.

Lemma ccw_phase_run m t w :
  exists t' w' l v, ccw_phase E m t w = Done t' w' /\ log w' = log w ++ l /\
    filter motor_event l = [EvOut PORTE v].
Proof.
  unfold ccw_phase, bind, wr, ret. do 4 eexists. split; [reflexivity|].
  logs. rewrite <- app_assoc. split; [reflexivity|].
  rewrite motor_app, motor_isr. reflexivity.
Qed.

(** A [for] loop whose body always returns after one store to PORTE
    returns after as many stores as it has passes. *)
Lemma for_loop_run (body : Z -> M Z) n :
  (forall t w, exists t' w' l v, body t w = Done t' w' /\
     log w' = log w ++ l /\ filter motor_event l = [EvOut PORTE v]) ->
  forall t w, exists t' w' l vs, for_loop n body t w = Done t' w' /\
    log w' = log w ++ l /\ filter motor_event l = map (EvOut PORTE) vs /\
    length vs = n.
Proof.
  intros Hb. induction n as [|n IH]; intros t w; cbn [for_loop].
  - exists t, w, [], []. rewrite app_nil_r. now repeat split.
  - destruct (Hb t w) as (t1 & w1 & l1 & v & H1 & L1 & M1).
    destruct (IH t1 w1) as (t2 & w2 & l2 & vs & H2 & L2 & M2 & N2).
    exists t2, w2, (l1 ++ l2), (v :: vs).
    rewrite (bind_run _ _ _ _ _ H1), H2, L2, L1, motor_app, M1, M2.
    rewrite <- app_assoc. cbn [map length app]. now rewrite N2.
Qed.

(** The body of the [while] for a valid direction, away from overflow. *)
Lemma stepper_body_run dir m steps t w :
  dir = 1 \/ dir = -1 -> steps < INT_MAX ->
  exists t' w' l vs,
    stepper_body E dir m steps t w = Done (steps + 1, t') w' /\
    log w' = log w ++ l /\ filter motor_event l = map (EvOut PORTE) vs /\
    length vs = 5%nat.
Proof.
  intros Hd Hs. unfold stepper_body, int_succ.
  destruct (Z.ltb_spec steps INT_MAX) as [_|]; [|lia].
  destruct Hd as [-> | ->]; cbn [Z.eqb Pos.eqb].
  - destruct (for_loop_run (cw_phase E m) 5 (cw_phase_run m) t w)
      as (t' & w' & l & vs & H & Hrest).
    exists t', w', l, vs. rewrite (bind_run _ _ _ _ _ H).
    split; [reflexivity | exact Hrest].
  - destruct (for_loop_run (ccw_phase E m) 5 (ccw_phase_run m) t w)
      as (t' & w' & l & vs & H & Hrest).
    exists t', w', l, vs. rewrite (bind_run _ _ _ _ _ H).
    split; [reflexivity | exact Hrest].
Qed.

(** At [INT_MAX] the increment of [steps] overflows. *)
Lemma stepper_body_overflow dir m steps t w :
  dir = 1 \/ dir = -1 -> INT_MAX <= steps ->
  exists w', stepper_body E dir m steps t w = Undef w'.
Proof.
  intros Hd Hs. unfold stepper_body, int_succ.
  destruct (Z.ltb_spec steps INT_MAX) as [|_]; [lia|].
  destruct Hd as [-> | ->]; cbn [Z.eqb Pos.eqb].
  - destruct (for_loop_run (cw_phase E m) 5 (cw_phase_run m) t w)
      as (t' & w' & l & vs & H & _).
    exists w'. now rewrite (bind_run _ _ _ _ _ H).
  - destruct (for_loop_run (ccw_phase E m) 5 (ccw_phase_run m) t w)
      as (t' & w' & l & vs & H & _).
    exists w'. now rewrite (bind_run _ _ _ _ _ H).
Qed.

(** For any other direction the body does nothing: [steps] stays. *)
Lemma stepper_body_idle dir m steps t w :
  dir <> 1 -> dir <> -1 ->
  stepper_body E dir m steps t w = Done (steps, t) w.
Proof.
  intros H1 H2. unfold stepper_body.
  destruct (Z.eqb_spec dir 1); [contradiction|].
  destruct (Z.eqb_spec dir (-1)); [contradiction|]. reflexivity.
Qed.

End Stepper.

Section Step_loop.

Variable E : env.

Lemma iterations_cons vs blocks :
  iterations (vs :: blocks) =
  map (EvOut PORTE) vs ++ [EvWait 2] ++ iterations blocks.
Proof. unfold iterations. cbn [flat_map]. now rewrite <- app_assoc. Qed.

(** If the body returns for a valid direction, it has counted one step
    and stored to PORTE five times. *)
Lemma stepper_body_done dir m steps t w st w' :
  dir = 1 \/ dir = -1 ->
  stepper_body E dir m steps t w = Done st w' ->
  steps < INT_MAX /\ fst st = steps + 1 /\
  exists l vs, log w' = log w ++ l /\
    filter motor_event l = map (EvOut PORTE) vs /\ length vs = 5%nat.
Proof.
  intros Hd H. destruct (Z.lt_ge_cases steps INT_MAX) as [Hlt|Hge].
  - destruct (stepper_body_run E dir m steps t w Hd Hlt)
      as (t' & w1 & l & vs & H1 & Hrest).
    rewrite H1 in H. injection H as <- <-.
    split; [exact Hlt|]. split; [reflexivity|]. now exists l, vs.
  - destruct (stepper_body_overflow E dir m steps t w Hd Hge) as (w1 & H1).
    rewrite H1 in H. discriminate.
Qed.

(** When the loop returns, the log shows one block per iteration: five
    stores to PORTE, then the entry of [wait_ms 2]. *)
Lemma stepper_loop_shape ns dir m fuel :
  dir = 1 \/ dir = -1 ->
  forall steps t w w',
    steps <= ns + 1 ->
    stepper_loop E fuel ns dir m steps t w = Done tt w' ->
    exists l blocks,
      log w' = log w ++ l /\
      filter motor_event l = iterations blocks /\
      length blocks = Z.to_nat (ns + 1 - steps) /\
      Forall (fun vs => length vs = 5%nat) blocks.
Proof.
  intros Hd. induction fuel as [|fuel IH]; intros steps t w w' Hs H;
    cbn [stepper_loop] in H; [discriminate|].
  destruct (Z.leb_spec steps ns) as [Hle|Hgt].
  - apply bind_Done in H as (st & w1 & H1 & H).
    apply bind_Done in H as ([] & w2 & H2 & H).
    apply (stepper_body_done dir m steps t w st w1 Hd) in H1
      as (_ & Hst & l1 & vs & L1 & M1 & N1).
    destruct (wait_ms_motor E fuel 2 w1) as (l2 & L2 & M2).
    rewrite H2 in L2. cbn [world_of] in L2.
    rewrite Hst in H.
    apply IH in H as (l3 & blocks & L3 & M3 & N3 & F3); [|lia].
    exists (l1 ++ l2 ++ l3), (vs :: blocks).
    repeat split.
    + rewrite L3, L2, L1, <- !app_assoc. reflexivity.
    + rewrite !motor_app, M1, M2, M3, iterations_cons. reflexivity.
    + cbn [length]. rewrite N3.
      replace (ns + 1 - steps) with (Z.succ (ns + 1 - (steps + 1))) by lia.
      rewrite Z2Nat.inj_succ by lia. reflexivity.
    + now constructor.
  - injection H as <-. exists [], []. rewrite app_nil_r.
    repeat split; [|constructor].
    replace (ns + 1 - steps) with 0 by lia. reflexivity.
Qed.

(** In a timely environment, and with the count away from [INT_MAX],
    the loop returns. *)
Lemma stepper_loop_timely ns dir m :
  timely E -> dir = 1 \/ dir = -1 -> ns < INT_MAX ->
  forall (k : nat) steps t w,
    steps <= ns + 1 -> Z.to_nat (ns + 1 - steps) = k ->
    exists fuel w', stepper_loop E fuel ns dir m steps t w = Done tt w'.
Proof.
  intros HE Hd Hns. induction k as [|k IH]; intros steps t w Hle Hk.
  - exists 1%nat, w. rewrite stepper_loop_unfold.
    destruct (Z.leb_spec steps ns); [lia | reflexivity].
  - destruct (stepper_body_run E dir m steps t w Hd) as
      (t' & w1 & _ & _ & H1 & _); [lia|].
    destruct (wait_ms_timely E 2 w1 HE) as (f1 & w2 & H2);
      [lia|].
    destruct (IH (steps + 1) t' w2) as (f2 & w3 & H3); [lia | lia |].
    exists (S (Nat.max f1 f2)), w3. rewrite stepper_loop_unfold.
    destruct (Z.leb_spec steps ns); [|lia].
    rewrite (bind_run _ _ _ _ _ H1).
    rewrite (bind_run _ _ _ _ _
               (wait_ms_le E f1 (Nat.max f1 f2) 2 w1 w2
                  (Nat.le_max_l f1 f2) H2)).
    cbn [fst snd].
    apply (stepper_loop_le E ns dir m f2 (Nat.max f1 f2)); [|exact H3].
    apply Nat.le_max_r.
Qed.

(** For a direction other than 1 and -1 the loop never returns: it runs
    out of any fuel with [steps] where it was. *)
Lemma stepper_loop_idle ns dir m fuel :
  dir <> 1 -> dir <> -1 ->
  forall steps t w, steps <= ns ->
    exists w', stepper_loop E fuel ns dir m steps t w = Spin w'.
Proof.
  intros H1 H2. induction fuel as [|fuel IH]; intros steps t w Hs;
    cbn [stepper_loop].
  - now exists w.
  - destruct (Z.leb_spec steps ns) as [_|]; [|lia].
    rewrite (bind_run _ _ _ _ _ (stepper_body_idle E dir m steps t w H1 H2)).
    cbn [fst snd].
    destruct (wait_ms_outcome E fuel 2 w) as [(w1 & Hw)|(w1 & Hw)].
    + rewrite (bind_run _ _ _ _ _ Hw). now apply IH.
    + exists w1. unfold bind. now rewrite Hw.
Qed.

(** With [num_steps = INT_MAX] the test [steps <= num_steps] cannot
    fail, so the loop never returns: it spins or overflows [steps]. *)
Lemma stepper_loop_int_max dir m fuel :
  dir = 1 \/ dir = -1 ->
  forall steps t w, steps <= INT_MAX ->
    returned (stepper_loop E fuel INT_MAX dir m steps t w) = false.
Proof.
  intros Hd. induction fuel as [|fuel IH]; intros steps t w Hs;
    cbn [stepper_loop]; [reflexivity|].
  destruct (Z.leb_spec steps INT_MAX) as [_|]; [|lia].
  destruct (Z.lt_ge_cases steps INT_MAX) as [Hlt|Hge].
  - destruct (stepper_body_run E dir m steps t w Hd Hlt)
      as (t' & w1 & _ & _ & H1 & _).
    rewrite (bind_run _ _ _ _ _ H1). cbn [fst snd].
    destruct (wait_ms_outcome E fuel 2 w1) as [(w2 & Hw)|(w2 & Hw)].
    + rewrite (bind_run _ _ _ _ _ Hw). apply IH. lia.
    + unfold bind. now rewrite Hw.
  - destruct (stepper_body_overflow E dir m steps t w Hd Hge) as (w1 & H1).
    unfold bind. now rewrite H1.
Qed.

End Step_loop.

(** ** Push buttons and shaft encoder *)

Section Inputs.

Variable E : env.

Lemma land_bit p i :
  0 <= i -> (Z.land p (2 ^ i) =? 0) = negb (Z.testbit p i).
Proof.
  intros Hi. destruct (Z.testbit p i) eqn:Hb; cbn [negb].
  - apply Z.eqb_neq. intros H0.
    assert (Ht : Z.testbit (Z.land p (2 ^ i)) i = true).
    { rewrite Z.land_spec, Hb, Z.pow2_bits_true by lia. reflexivity. }
    rewrite H0, Z.bits_0 in Ht. discriminate.
  - apply Z.eqb_eq. apply Z.bits_inj'. intros n Hn.
    rewrite Z.land_spec, Z.bits_0, Z.pow2_bits_eqb by lia.
    destruct (Z.eqb_spec i n) as [->|]; [now rewrite Hb|].
    apply andb_false_r.
Qed.

Lemma uint8_land_idem p m :
  0 <= m < 256 -> uint8 (Z.land p m) = Z.land p m.
Proof.
  intros Hm. unfold uint8. change 256 with (2 ^ 8).
  rewrite <- Z.land_ones by lia. rewrite <- Z.land_assoc.
  f_equal. rewrite Z.land_ones by lia. apply Z.mod_small. lia.
Qed.

Ltac bit_cases j :=
  assert (j = 0 \/ j = 1 \/ j = 2 \/ j = 3 \/ j = 4 \/ j = 5) as
    [->|[->|[->|[->|[->| ->]]]]] by lia;
  first [assumption | lia].

Ltac bit_clash H :=
  match goal with
  | B : Z.testbit _ _ = false |- _ => rewrite H in B by lia; discriminate B
  end.

(** [button_of p] is one more than the index of the highest cleared bit
    among bits 0-5 of [p], and 0 when all six are set. *)
Lemma button_of_spec p :
  0 <= button_of p <= 6 /\
  (button_of p = 0 <-> forall i, 0 <= i <= 5 -> Z.testbit p i = true) /\
  (button_of p <> 0 ->
   Z.testbit p (button_of p - 1) = false /\
   forall j, button_of p - 1 < j <= 5 -> Z.testbit p j = true).
Proof.
  unfold button_of.
  rewrite (land_bit p 5 ltac:(lia) : (Z.land p 32 =? 0) = _).
  rewrite (land_bit p 4 ltac:(lia) : (Z.land p 16 =? 0) = _).
  rewrite (land_bit p 3 ltac:(lia) : (Z.land p 8 =? 0) = _).
  rewrite (land_bit p 2 ltac:(lia) : (Z.land p 4 =? 0) = _).
  rewrite (land_bit p 1 ltac:(lia) : (Z.land p 2 =? 0) = _).
  rewrite (land_bit p 0 ltac:(lia) : (Z.land p 1 =? 0) = _).
  destruct (Z.testbit p 5) eqn:B5; cbn [negb];
    [destruct (Z.testbit p 4) eqn:B4; cbn [negb];
     [destruct (Z.testbit p 3) eqn:B3; cbn [negb];
      [destruct (Z.testbit p 2) eqn:B2; cbn [negb];
       [destruct (Z.testbit p 1) eqn:B1; cbn [negb];
        [destruct (Z.testbit p 0) eqn:B0; cbn [negb]|]|]|]|]|];
    (split; [lia|]); (split; [split|]).
  all: try (intros H; discriminate H).
  all: try (intros _; reflexivity).
  all: try (intros H; bit_clash H).
  all: try (intros H; now elim H).
  all: try (intros _ j Hj; bit_cases j).
  all: try (intros _; simpl; (split; [assumption | intros j Hj; bit_cases j])).
Qed.

End Inputs.

Section Buttons.

Variable E : env.

Lemma emits_read_push_buttons : emits pinc_read (read_push_buttons E).
Proof.
  unfold read_push_buttons.
  repeat first
    [ apply emits_ret
    | apply emits_rd; [exact I | intros ?; exact I]
    | apply emits_bind; [|intros ?]
    | match goal with |- emits _ (if ?c then _ else _) => destruct c end ].
Qed.

Lemma total_ret {A} (a : A) : total (ret a).
Proof. intros w. now exists a, w. Qed.

Lemma total_bind {A B} (m : M A) (k : A -> M B) :
  total m -> (forall a, total (k a)) -> total (bind m k).
Proof.
  intros Hm Hk w. destruct (Hm w) as (a & w1 & H1).
  destruct (Hk a w1) as (b & w2 & H2).
  exists b, w2. now rewrite (bind_run _ _ _ _ _ H1).
Qed.

Lemma total_rd r : total (rd E r).
Proof. intros w. unfold rd. now do 2 eexists. Qed.

Lemma preserves_ret {A} (R : world -> world -> Prop) (a : A) :
  (forall w, R w w) -> preserves R (ret a).
Proof. intros HR w a' w' H. injection H as _ <-. apply HR. Qed.

Lemma preserves_bind {A B} (R : world -> world -> Prop) (m : M A)
      (k : A -> M B) :
  (forall w1 w2 w3, R w1 w2 -> R w2 w3 -> R w1 w3) ->
  preserves R m -> (forall a, preserves R (k a)) -> preserves R (bind m k).
Proof.
  intros Ht Hm Hk w b w' H.
  apply bind_Done in H as (a & w1 & H1 & H2).
  eapply Ht; [eapply Hm, H1 | eapply Hk, H2].
Qed.

Lemma reads_only_refl w : reads_only w w.
Proof. unfold reads_only. tauto. Qed.

Lemma reads_only_trans w1 w2 w3 :
  reads_only w1 w2 -> reads_only w2 w3 -> reads_only w1 w3.
Proof.
  intros (A1 & A2 & A3 & A4) (B1 & B2 & B3 & B4).
  repeat split; try congruence.
  intros H.
  assert (irq_enabled w2 = false) as Hoff
    by (unfold irq_enabled in *; congruence).
  rewrite (B4 Hoff). now apply A4.
Qed.

Lemma preserves_rd r : preserves reads_only (rd E r).
Proof.
  intros w v w' H. unfold rd in H. injection H as _ <-.
  unfold reads_only. proj. repeat split.
  intros Hoff. now rewrite service_off.
Qed.

(** [read_push_buttons] always returns, a value from 0 to 6, and only
    reads: registers, the I flag and [old_value] are as before. *)
Lemma read_push_buttons_total w :
  exists k w', read_push_buttons E w = Done k w' /\ 0 <= k <= 6 /\
    reads_only w w'.
Proof.
  assert (Ht : total (read_push_buttons E)).
  { unfold read_push_buttons.
    repeat first
      [ apply total_ret | apply total_rd
      | apply total_bind; [|intros ?]
      | match goal with |- total (if ?c then _ else _) => destruct c end ]. }
  assert (Hs : safe (fun _ => True) (fun k => 0 <= k <= 6)
                    (read_push_buttons E)).
  { unfold read_push_buttons.
    repeat first
      [ apply safe_ret; lia
      | eapply safe_bind;
        [apply safe_emits, emits_rd; [exact I | intros ?; exact I]
        | intros ? _]
      | match goal with |- safe _ _ (if ?c then _ else _) => destruct c end ]. }
  assert (Hp : preserves reads_only (read_push_buttons E)).
  { unfold read_push_buttons.
    repeat first
      [ apply preserves_ret, reads_only_refl | apply preserves_rd
      | apply preserves_bind; [apply reads_only_trans | | intros ?]
      | match goal with
        | |- preserves _ (if ?c then _ else _) => destruct c
        end ]. }
  destruct (Ht w) as (k & w' & H). exists k, w'. split; [exact H|].
  destruct (Hs w) as (_ & _ & _ & HQ). split; [now apply (HQ k w')|].
  now apply (Hp w k w').
Qed.

(** With the pins held at [p] during the call, the result is decided by
    [p] alone. *)
Lemma read_push_buttons_stable w p :
  pins_hold E (now w) 6 p ->
  exists w', read_push_buttons E w = Done (button_of p) w'.
Proof.
  intros Hp. unfold read_push_buttons, button_of.
  repeat (flat_step; rewrite Hp by lia;
          match goal with
          | |- context [if ?c then _ else _] => destruct c
          end;
          [eexists; reflexivity|]).
  eexists. reflexivity.
Qed.

End Buttons.

Section Encoder.

Variable E : env.

(** One call of [read_shaft_encoder]: the result, the new [old_value],
    and what it reads and stores. *)
Lemma read_shaft_encoder_run w :
  exists w',
    read_shaft_encoder E w =
    Done (if old_value w =? 0xC0
          then if Z.land (uint8 (pins E (now w))) 0xC0 =? 0x80 then -1
               else if Z.land (uint8 (pins E (now w))) 0xC0 =? 0x40 then 1
                    else 0
          else 0) w' /\
    old_value w' = Z.land (uint8 (pins E (now w))) 0xC0 /\
    io w' = io w /\ iflag w' = iflag w /\
    exists l, log w' = log w ++ l /\
      filter main_event l =
        [EvIn PINC (uint8 (pins E (now w)));
         EvGet Var_old_value (old_value w);
         EvSet Var_old_value (Z.land (uint8 (pins E (now w))) 0xC0)].
Proof.
  unfold read_shaft_encoder. flat_step.
  unfold bind, rd_old, wr_old, ret, note, set_old. cbv zeta.
  cbn [io iflag timer2_tick old_value now log].
  change (int8 (-1)) with (-1).
  rewrite !uint8_land_idem by lia.
  eexists. split; [reflexivity|].
  cbn [io iflag timer2_tick old_value now log]. repeat split.
  eexists. split.
  - rewrite <- !app_assoc. reflexivity.
  - rewrite main_app, main_isr. reflexivity.
Qed.

End Encoder.

(** ** The stepper function as a whole *)

Section Move_stepper.

Variable E : env.

(** The function reads PORTE once and enters the loop with the low
    nibble it read, [steps = 0] and the first phase. *)
Lemma move_stepper_entry fuel ns dir w :
  exists n,
    move_stepper_motor_by_step E fuel ns dir w =
    stepper_loop E fuel ns dir (Z.land (io w PORTE) 0x0F) 0 0x10
      (mkWorld (io w) (iflag w) (ticks n (timer2_tick w)) (old_value w)
               (S (now w))
               (log w ++ repeat EvIsr n ++ [EvIn PORTE (io w PORTE)])).
Proof.
  unfold move_stepper_motor_by_step. cbv zeta.
  destruct (rd_flat E PORTE w ltac:(discriminate)) as (n & H).
  exists n. rewrite (bind_run _ _ _ _ _ H).
  rewrite int8_small; [reflexivity|].
  pose proof (land_15_range (io w PORTE)). lia.
Qed.

Lemma one_phase_first : one_phase 0x10.
Proof. unfold one_phase. tauto. Qed.

(** Every event of a run, returning or not, is one the stepper may
    produce: in particular every store to PORTE is a phase value over
    the low nibble read at entry. *)
Lemma move_stepper_events fuel ns dir w :
  exists l,
    log (world_of (move_stepper_motor_by_step E fuel ns dir w)) = log w ++ l /\
    Forall (porte_ok (Z.land (io w PORTE) 0x0F)) l.
Proof.
  destruct (move_stepper_entry fuel ns dir w) as (n & ->).
  destruct (emits_stepper_loop E fuel ns dir (Z.land (io w PORTE) 0x0F)
              (land_15_range _) 0 0x10 one_phase_first
              (mkWorld (io w) (iflag w) (ticks n (timer2_tick w))
                 (old_value w) (S (now w))
                 (log w ++ repeat EvIsr n ++ [EvIn PORTE (io w PORTE)])))
    as (l & Hl & HP).
  cbn [log] in Hl.
  exists ((repeat EvIsr n ++ [EvIn PORTE (io w PORTE)]) ++ l).
  rewrite Hl, <- !app_assoc. split; [reflexivity|].
  repeat (apply Forall_app; split); try exact HP.
  - apply Forall_repeat. exact I.
  - constructor; [exact I | constructor].
Qed.

(** A returning run shows one block per iteration, [num_steps + 1] of
    them. *)
Lemma move_stepper_shape fuel ns dir w w' :
  dir = 1 \/ dir = -1 -> 0 <= ns ->
  move_stepper_motor_by_step E fuel ns dir w = Done tt w' ->
  exists l blocks,
    log w' = log w ++ l /\
    filter motor_event l = iterations blocks /\
    length blocks = Z.to_nat (ns + 1) /\
    Forall (fun vs => length vs = 5%nat) blocks.
Proof.
  intros Hd Hns. destruct (move_stepper_entry fuel ns dir w) as (n & ->).
  intros H.
  apply (stepper_loop_shape E ns dir _ fuel Hd) in H
    as (l & blocks & Hl & Hm & Hn & Hf); [|lia].
  cbn [log] in Hl.
  exists ((repeat EvIsr n ++ [EvIn PORTE (io w PORTE)]) ++ l), blocks.
  rewrite Hl, <- !app_assoc. split; [reflexivity|].
  rewrite !motor_app, motor_isr, Hm. cbn [filter motor_event app].
  rewrite Z.sub_0_r in Hn. now repeat split.
Qed.

(** In a timely environment the function returns. *)
Lemma move_stepper_timely ns dir w :
  timely E -> dir = 1 \/ dir = -1 -> 0 <= ns < INT_MAX ->
  exists fuel w', move_stepper_motor_by_step E fuel ns dir w = Done tt w'.
Proof.
  intros HE Hd Hns.
  destruct (rd_flat E PORTE w ltac:(discriminate)) as (n' & Hrd).
  match type of Hrd with
  | _ = Done _ ?W =>
      destruct (stepper_loop_timely E ns dir (Z.land (io w PORTE) 0x0F) HE Hd
                  ltac:(lia) (Z.to_nat (ns + 1 - 0)) 0 0x10 W
                  ltac:(lia) eq_refl) as (fuel & w' & H)
  end.
  exists fuel, w'. unfold move_stepper_motor_by_step. cbv zeta.
  rewrite (bind_run _ _ _ _ _ Hrd).
  rewrite int8_small; [exact H|].
  pose proof (land_15_range (io w PORTE)). lia.
Qed.

(** With a direction other than 1 and -1 the function never returns. *)
Lemma move_stepper_idle fuel ns dir w :
  dir <> 1 -> dir <> -1 -> 0 <= ns ->
  exists w', move_stepper_motor_by_step E fuel ns dir w = Spin w'.
Proof.
  intros H1 H2 Hns. destruct (move_stepper_entry fuel ns dir w) as (n & ->).
  now apply stepper_loop_idle.
Qed.

(** With [num_steps = INT_MAX] the function never returns. *)
Lemma move_stepper_int_max fuel dir w :
  dir = 1 \/ dir = -1 ->
  returned (move_stepper_motor_by_step E fuel INT_MAX dir w) = false.
Proof.
  intros Hd. destruct (move_stepper_entry fuel INT_MAX dir w) as (n & ->).
  apply stepper_loop_int_max; [exact Hd | unfold INT_MAX; lia].
Qed.

(** With a negative [num_steps] the loop is not entered. *)
Lemma move_stepper_negative fuel ns dir w :
  ns < 0 ->
  exists w' l,
    move_stepper_motor_by_step E (S fuel) ns dir w = Done tt w' /\
    log w' = log w ++ l /\ filter main_event l = [EvIn PORTE (io w PORTE)].
Proof.
  intros Hns. destruct (move_stepper_entry (S fuel) ns dir w) as (n & ->).
  cbn [stepper_loop]. destruct (Z.leb_spec 0 ns) as [|_]; [lia|].
  eexists _, _. split; [reflexivity|]. cbn [log]. split; [reflexivity|].
  rewrite main_app, main_isr. reflexivity.
Qed.

End Move_stepper.

(** ** Facts about every entry point *)

Section Module_wide.

Variable E : env.

Lemma total_wr r v : total (wr E r v).
Proof. intros w. unfold wr. now do 2 eexists. Qed.

Lemma total_wr_tick v : total (wr_tick E v).
Proof. intros w. unfold wr_tick. now do 2 eexists. Qed.

Lemma total_sei : total sei.
Proof. intros w. unfold sei. now do 2 eexists. Qed.

Lemma total_rd_old : total rd_old.
Proof. intros w. unfold rd_old. now do 2 eexists. Qed.

Lemma total_wr_old v : total (wr_old v).
Proof. intros w. unfold wr_old. now do 2 eexists. Qed.

Ltac totality :=
  repeat first
    [ apply total_ret | apply total_rd | apply total_wr | apply total_wr_tick
    | apply total_sei | apply total_rd_old | apply total_wr_old
    | apply total_bind; [|intros ?]
    | match goal with |- total (if ?c then _ else _) => destruct c end ].

Lemma total_timer2_start unit : total (timer2_start E unit).
Proof. unfold timer2_start. totality. Qed.

Lemma total_timer2_stop : total (timer2_stop E).
Proof. unfold timer2_stop. totality. Qed.

Lemma total_init_push_buttons : total (init_push_buttons E).
Proof. unfold init_push_buttons. totality. Qed.

Lemma total_shaft_encoder_init : total (shaft_encoder_init E).
Proof. unfold shaft_encoder_init. totality. Qed.

Lemma timer_event_module e : timer_event e -> module_event e.
Proof. destruct e as [[] v|[] v|[] v|[] v| |]; cbn; tauto. Qed.

Lemma porte_ok_module m e : porte_ok m e -> module_event e.
Proof. destruct e as [[] v|[] v|[] v|[] v| |]; cbn; tauto. Qed.

Lemma pinc_read_module e : pinc_read e -> module_event e.
Proof. destruct e as [[] v|[] v|[] v|[] v| |]; cbn; tauto. Qed.

Ltac emitting :=
  repeat first
    [ apply emits_ret
    | apply emits_rd; [exact I | intros ?; exact I]
    | apply emits_wr; [exact I | exact I]
    | apply emits_rd_old; intros ?; exact I
    | apply emits_wr_old; exact I
    | apply emits_bind; [|intros ?]
    | match goal with |- emits _ (if ?c then _ else _) => destruct c end ].

Lemma emits_init_push_buttons : emits module_event (init_push_buttons E).
Proof. unfold init_push_buttons. emitting. Qed.

Lemma emits_shaft_encoder_init : emits module_event (shaft_encoder_init E).
Proof. unfold shaft_encoder_init. emitting. Qed.

Lemma emits_read_shaft_encoder : emits module_event (read_shaft_encoder E).
Proof. unfold read_shaft_encoder. cbv zeta. emitting. Qed.

Lemma emits_wait_ms_module fuel tv : emits module_event (wait_ms E fuel tv).
Proof.
  eapply emits_weaken; [|apply emits_wait_ms].
  intros e He. destruct e as [[] v|[] v|[] v|[] v| |]; cbn in *; tauto.
Qed.

Lemma emits_stepper_init fuel : emits module_event (stepper_init E fuel).
Proof.
  unfold stepper_init.
  repeat lazymatch goal with
    | |- emits _ (wait_ms _ _ _) => apply emits_wait_ms_module
    | |- emits _ (bind _ _) => apply emits_bind; [|intros ?]
    | |- emits _ (rd _ _) => apply emits_rd; [exact I | intros ?; exact I]
    | |- emits _ (wr _ _ _) => apply emits_wr; [exact I | exact I]
    end.
Qed.

Lemma emits_move_stepper fuel ns dir :
  emits module_event (move_stepper_motor_by_step E fuel ns dir).
Proof.
  intros w. destruct (move_stepper_events E fuel ns dir w) as (l & Hl & HP).
  exists l. split; [exact Hl|].
  eapply Forall_impl; [|exact HP]. apply porte_ok_module.
Qed.

(** Whatever entry point runs, on whatever arguments, main code stores
    nothing to [timer2_tick] but zero, and nothing to PINC. *)
Lemma exec_events fuel c : emits module_event (exec E fuel c).
Proof.
  destruct c; cbn [exec];
    (apply emits_bind; [|intros ?; apply emits_ret]).
  - apply emits_wait_ms_module.
  - eapply emits_weaken; [apply timer_event_module|apply emits_timer2_start].
  - eapply emits_weaken; [apply timer_event_module|apply emits_timer2_stop].
  - apply emits_init_push_buttons.
  - eapply emits_weaken; [apply pinc_read_module|].
    apply emits_read_push_buttons.
  - apply emits_shaft_encoder_init.
  - apply emits_read_shaft_encoder.
  - apply emits_stepper_init.
  - apply emits_move_stepper.
Qed.

(** *** Bits of the timer registers *)

Lemma uint8_bits x i : 0 <= i < 8 -> Z.testbit (uint8 x) i = Z.testbit x i.
Proof.
  intros Hi. unfold uint8. change 256 with (2 ^ 8).
  apply Z.mod_pow2_bits_low. lia.
Qed.

Lemma set_bit7 x i :
  0 <= i < 8 ->
  Z.testbit (uint8 (Z.lor x 128)) i = if i =? 7 then true else Z.testbit x i.
Proof.
  intros Hi. rewrite uint8_bits, Z.lor_spec by exact Hi.
  change 128 with (2 ^ 7). rewrite Z.pow2_bits_eqb by lia.
  rewrite (Z.eqb_sym 7 i).
  destruct (i =? 7); [apply orb_true_r | apply orb_false_r].
Qed.

Lemma clear_bit7_lnot x i :
  0 <= i < 8 ->
  Z.testbit (uint8 (Z.land x (Z.lnot 128))) i =
  if i =? 7 then false else Z.testbit x i.
Proof.
  intros Hi. rewrite uint8_bits, Z.land_spec, Z.lnot_spec by lia.
  change 128 with (2 ^ 7). rewrite Z.pow2_bits_eqb by lia.
  rewrite (Z.eqb_sym 7 i).
  destruct (i =? 7); [apply andb_false_r | apply andb_true_r].
Qed.

Lemma clear_bit7_mask x i :
  0 <= i < 8 ->
  Z.testbit (uint8 (Z.land x 127)) i =
  if i =? 7 then false else Z.testbit x i.
Proof.
  intros Hi. rewrite uint8_bits, Z.land_spec by lia.
  change 127 with (Z.ones 7).
  destruct (Z.eqb_spec i 7) as [->|Hne].
  - rewrite Z.ones_spec_high by lia. apply andb_false_r.
  - rewrite Z.ones_spec_low by lia. apply andb_true_r.
Qed.

End Module_wide.

(** * The claims *)

(** ** The delay *)

Example wait_ms_run :
  returned (wait_ms env_steady 10 2 w_reset) = true /\
  filter main_event (log (world_of (wait_ms env_steady 10 2 w_reset))) =
    [EvWait 2; EvOut OCR2 250; EvSet Var_timer2_tick 0;
     EvSet Var_timer2_tick 0; EvOut TCCR2 11; EvIn TIMSK 0; EvOut TIMSK 128;
     EvGet Var_timer2_tick 1; EvGet Var_timer2_tick 3;
     EvIn TIMSK 128; EvOut TIMSK 0; EvIn TCCR2 11; EvOut TCCR2 11] /\
  count_isr (log (world_of (wait_ms env_steady 10 2 w_reset))) = 6.
Proof. vm_compute. repeat split. Qed.

Example wait_ms_no_ticks :
  returned (wait_ms env_quiet 1000 2 w_reset) = false.
Proof. vm_compute. reflexivity. Qed.

Example wait_ms_slow_ticks :
  returned (wait_ms env_slow 10 2 w_reset) = true /\
  filter (fun e => match e with EvGet _ _ | EvIsr => true | _ => false end)
         (log (world_of (wait_ms env_slow 10 2 w_reset))) =
    [EvGet Var_timer2_tick 0; EvIsr; EvGet Var_timer2_tick 0;
     EvGet Var_timer2_tick 1; EvIsr; EvGet Var_timer2_tick 1;
     EvGet Var_timer2_tick 2; EvIsr].
Proof. vm_compute. split; reflexivity. Qed.

(** A read torn by the handler: the counter goes from 0x00FF to 0x0100
    between the two byte loads of a poll, the poll reads 0x01FF, and
    [wait_ms 300] returns after 258 runs of the handler. *)
Example wait_ms_torn_read :
  returned (wait_ms env_steady 200 300 w_reset) = true /\
  last (filter (fun e => match e with EvGet _ _ => true | _ => false end)
               (log (world_of (wait_ms env_steady 200 300 w_reset))))
       EvIsr = EvGet Var_timer2_tick 511 /\
  timer2_tick (world_of (wait_ms env_steady 200 300 w_reset)) = 258 /\
  isr_between w_reset (world_of (wait_ms env_steady 200 300 w_reset)) = 258.
Proof. vm_compute. repeat split. Qed.

(** A torn read ends the wait at most 255 runs of the handler early. *)
Lemma wait_ms_torn_slack E fuel time_val w w' :
  wait_ms E fuel time_val w = Done tt w' ->
  time_val - 255 <= isr_between w w'.
Proof.
  intros H.
  destruct (wait_ms_returns E fuel time_val w w' H)
    as (_ & _ & _ & _ & _ & _ & (_ & _ & Hg) & _).
  lia.
Qed.

(** C1, as worded, fails in two places.  The counter is 16 bits wide
    on an 8-bit machine, and the loop reads it with the timer interrupt
    on: a run of the handler between the two byte loads tears the value
    read, so [wait_ms 300] can return after 258 runs of the handler,
    with [timer2_tick = 258].  And a run of the handler at 65535 takes
    the counter to 0, not one up. *)
Lemma wait_ms_busy_waits_counterexample :
  ~ waits_out env_steady 300 w_reset /\ ~ adds_one w_full.
Proof.
  split.
  - intros H.
    specialize (H 200%nat (world_of (wait_ms env_steady 200 300 w_reset))).
    assert (Hr : wait_ms env_steady 200 300 w_reset =
                 Done tt (world_of (wait_ms env_steady 200 300 w_reset))).
    { vm_compute. reflexivity. }
    apply H in Hr. vm_compute in Hr. apply Hr. reflexivity.
  - unfold adds_one. vm_compute. discriminate.
Qed.

(** C1 (amended). [wait_ms] busy-waits on the counter that the interrupt
    handler increments.  When [wait_ms time_val] returns, what main code
    did is, in order: set up and start the timer, storing 0 to
    [timer2_tick] on the way; poll the counter, where every value read
    but the last was below [time_val] and the last was not; stop the
    timer.  The counter then holds no more than the number of handler
    runs during the call, and for [time_val <= 256] the handler has run
    at least [time_val] times during the call.  No entry point of the
    module ever stores anything but zero to [timer2_tick]; one run of
    the handler adds one to it as a 16-bit unsigned value (exactly one
    below 65535, and from 65535 it goes to 0) and changes nothing
    else. *)
Theorem wait_ms_busy_waits E fuel time_val w w' :
  wait_ms E fuel time_val w = Done tt w' ->
  (exists l ps t,
     log w' = log w ++ EvWait time_val :: l /\
     filter main_event l =
       [EvOut OCR2 250; EvSet Var_timer2_tick 0; EvSet Var_timer2_tick 0;
        EvOut TCCR2 11; EvIn TIMSK (io w TIMSK);
        EvOut TIMSK (uint8 (Z.lor (io w TIMSK) 128))] ++
       map (EvGet Var_timer2_tick) (ps ++ [t]) ++
       [EvIn TIMSK (uint8 (Z.lor (io w TIMSK) 128));
        EvOut TIMSK
          (uint8 (Z.land (uint8 (Z.lor (io w TIMSK) 128)) (Z.lnot 128)));
        EvIn TCCR2 11; EvOut TCCR2 11] /\
     Forall (fun v => 0 <= v < time_val) ps /\ time_val <= t) /\
  0 <= timer2_tick w' <= isr_between w w' /\
  (time_val <= 256 -> time_val <= isr_between w w') /\
  (forall fuel' c, emits module_event (exec E fuel' c)) /\
  (forall v,
     timer2_tick (TIMER2_COMP_vect v) = uint16 (timer2_tick v + 1) /\
     (0 <= timer2_tick v < 65535 ->
      timer2_tick (TIMER2_COMP_vect v) = timer2_tick v + 1) /\
     (timer2_tick v = 65535 -> timer2_tick (TIMER2_COMP_vect v) = 0) /\
     io (TIMER2_COMP_vect v) = io v /\
     iflag (TIMER2_COMP_vect v) = iflag v /\
     old_value (TIMER2_COMP_vect v) = old_value v /\
     log (TIMER2_COMP_vect v) = log v ++ [EvIsr]).
Proof.
  intros H.
  destruct (wait_ms_returns E fuel time_val w w' H)
    as (_ & _ & _ & _ & _ & _ & (Hr & Hs & _) &
        (l & ps & t & Hl & Hm & Hps & Ht & _)).
  split; [now exists l, ps, t|].
  split; [exact Hr|]. split; [exact Hs|]. split.
  - intros fuel' c. apply exec_events.
  - intros v. cbn [TIMER2_COMP_vect timer2_tick io iflag old_value log].
    repeat split.
    + intros Hv. apply uint16_small. lia.
    + intros ->. reflexivity.
Qed.

Lemma wait_ms_busy_waits_witness :
  2 <= isr_between w_reset (world_of (wait_ms env_steady 10 2 w_reset)).
Proof.
  refine (proj1 (proj2 (proj2
            (wait_ms_busy_waits env_steady 10 2 w_reset
               (world_of (wait_ms env_steady 10 2 w_reset)) _))) _).
  - vm_compute. reflexivity.
  - lia.
Defined.

(** C8. [wait_ms] sets the timer up for millisecond ticks before it
    waits and shuts it down afterwards.  When it returns, the stores of
    main code were, in order: OCR2 = 250, the resets of the counter,
    TCCR2 = 0b00001011 and bit 7 of TIMSK set (by [timer2_start 0], which
    also sets the I flag), then, after the polls, bit 7 of TIMSK and bit 7
    of TCCR2 cleared (by [timer2_stop]).  In 0b00001011 bit 3 (WGM21) is
    set and bit 6 (WGM20) clear, which selects CTC, and bits 2-0 are 011,
    the prescaler of 64.  [timer2_start 0] and [timer2_stop] leave every
    other bit of TIMSK and TCCR2 and every other register as they
    were. *)
Theorem wait_ms_timer_setup E fuel time_val w w' :
  wait_ms E fuel time_val w = Done tt w' ->
  (exists l ps,
     log w' = log w ++ EvWait time_val :: l /\
     filter main_event l =
       [EvOut OCR2 250; EvSet Var_timer2_tick 0; EvSet Var_timer2_tick 0;
        EvOut TCCR2 11; EvIn TIMSK (io w TIMSK);
        EvOut TIMSK (uint8 (Z.lor (io w TIMSK) 128))] ++
       map (EvGet Var_timer2_tick) ps ++
       [EvIn TIMSK (uint8 (Z.lor (io w TIMSK) 128));
        EvOut TIMSK
          (uint8 (Z.land (uint8 (Z.lor (io w TIMSK) 128)) (Z.lnot 128)));
        EvIn TCCR2 11; EvOut TCCR2 11]) /\
  io w' OCR2 = 250 /\ io w' TCCR2 = 11 /\ iflag w' = true /\
  (Z.testbit 11 3 = true /\ Z.testbit 11 6 = false /\ Z.land 11 7 = 3) /\
  (forall i, 0 <= i < 8 ->
     Z.testbit (io w' TIMSK) i =
     if i =? 7 then false else Z.testbit (io w TIMSK) i) /\
  (forall r, r <> OCR2 -> r <> TCCR2 -> r <> TIMSK -> io w' r = io w r) /\
  (forall v, exists v',
     timer2_start E 0 v = Done tt v' /\ io v' TCCR2 = 11 /\
     iflag v' = true /\
     (forall i, 0 <= i < 8 ->
        Z.testbit (io v' TIMSK) i =
        if i =? 7 then true else Z.testbit (io v TIMSK) i) /\
     (forall r, r <> TCCR2 -> r <> TIMSK -> io v' r = io v r)) /\
  (forall v, exists v',
     timer2_stop E v = Done tt v' /\ iflag v' = iflag v /\
     (forall i, 0 <= i < 8 ->
        Z.testbit (io v' TIMSK) i =
        if i =? 7 then false else Z.testbit (io v TIMSK) i) /\
     (forall i, 0 <= i < 8 ->
        Z.testbit (io v' TCCR2) i =
        if i =? 7 then false else Z.testbit (io v TCCR2) i) /\
     (forall r, r <> TCCR2 -> r <> TIMSK -> io v' r = io v r)).
Proof.
  intros H.
  destruct (wait_ms_returns E fuel time_val w w' H)
    as (R1 & R2 & R3 & R4 & R5 & _ & _ & (l & ps & t & Hl & Hm & _)).
  repeat apply conj; try assumption; try reflexivity.
  - now exists l, (ps ++ [t]).
  - intros i Hi. rewrite R3, clear_bit7_lnot, set_bit7 by exact Hi.
    now destruct (i =? 7).
  - intros v. destruct (timer2_start_slow E v)
      as (v' & Hv & S1 & S2 & S3 & S4 & _).
    exists v'. repeat apply conj; try assumption.
    intros i Hi. rewrite S2. now apply set_bit7.
  - intros v. destruct (timer2_stop_spec E v)
      as (v' & Hv & P1 & P2 & P3 & P4 & _).
    exists v'. repeat apply conj; try assumption.
    + intros i Hi. rewrite P1. now apply clear_bit7_lnot.
    + intros i Hi. rewrite P2. now apply clear_bit7_mask.
Qed.

Lemma wait_ms_timer_setup_witness :
  io (world_of (wait_ms env_steady 10 2 w_reset)) OCR2 = 250 /\
  io (world_of (wait_ms env_steady 10 2 w_reset)) TCCR2 = 11.
Proof.
  destruct (wait_ms_timer_setup env_steady 10 2 w_reset
              (world_of (wait_ms env_steady 10 2 w_reset)))
    as (_ & H1 & H2 & _).
  - vm_compute. reflexivity.
  - split; assumption.
Defined.

(** C10, as stated, fails on its last words: the timer interrupt is on
    from [timer2_start] to [timer2_stop], and a compare match served in
    between is counted.  With one pending at the poll, [wait_ms 0]
    returns with [timer2_tick = 1]. *)
Lemma wait_ms_zero_counterexample :
  ~ returns_with_tick_zero env_pending w_reset.
Proof.
  intros (fuel & w' & H & Ht). destruct fuel as [|fuel].
  - vm_compute in H. discriminate H.
  - vm_compute in H. injection H as <-. vm_compute in Ht. discriminate Ht.
Qed.

(** C10 (amended). [wait_ms 0] returns without waiting for an interrupt:
    [timer2_tick < 0] is false whatever the counter holds, so in any
    environment the call starts the timer, leaves the loop at its first
    test (fourteen byte-wide volatile accesses in all, two of them the
    single poll) and stops the timer; and if no run of the handler is
    served during the call, the poll reads 0, [timer2_tick] is still 0
    at the return, and the log shows main code alone. *)
Theorem wait_ms_zero_returns E fuel w :
  exists w' l t,
    wait_ms E (S fuel) 0 w = Done tt w' /\ now w' = (now w + 14)%nat /\
    log w' = log w ++ EvWait 0 :: l /\
    filter main_event l =
      [EvOut OCR2 250; EvSet Var_timer2_tick 0; EvSet Var_timer2_tick 0;
       EvOut TCCR2 11; EvIn TIMSK (io w TIMSK);
       EvOut TIMSK (uint8 (Z.lor (io w TIMSK) 128));
       EvGet Var_timer2_tick t;
       EvIn TIMSK (uint8 (Z.lor (io w TIMSK) 128));
       EvOut TIMSK
         (uint8 (Z.land (uint8 (Z.lor (io w TIMSK) 128)) (Z.lnot 128)));
       EvIn TCCR2 11; EvOut TCCR2 11] /\
    (isr_between w w' = 0 ->
     timer2_tick w' = 0 /\ t = 0 /\
     log w' = log w ++
       [EvWait 0; EvOut OCR2 250; EvSet Var_timer2_tick 0;
        EvSet Var_timer2_tick 0; EvOut TCCR2 11;
        EvIn TIMSK (io w TIMSK);
        EvOut TIMSK (uint8 (Z.lor (io w TIMSK) 128));
        EvGet Var_timer2_tick 0;
        EvIn TIMSK (uint8 (Z.lor (io w TIMSK) 128));
        EvOut TIMSK
          (uint8 (Z.land (uint8 (Z.lor (io w TIMSK) 128)) (Z.lnot 128)));
        EvIn TCCR2 11;
        EvOut TCCR2 11]).
Proof.
  destruct (wait_ms_zero E fuel w) as (w' & H & Hn).
  destruct (wait_ms_returns E (S fuel) 0 w w' H)
    as (_ & _ & _ & _ & _ & _ & (Hr & _) &
        (l & ps & t & Hl & Hm & Hps & _ & Hz)).
  destruct ps as [|v ps]; [|inversion Hps; lia].
  exists w', l, t.
  split; [exact H|]. split; [exact Hn|]. split; [exact Hl|].
  split; [exact Hm|].
  intros H0. split; [lia|]. split; [now apply Hz|].
  rewrite Hl. f_equal. f_equal.
  rewrite <- (main_all l), Hm, (Hz H0); [reflexivity|].
  rewrite (isr_between_app w w' _ Hl) in H0. exact H0.
Qed.

Example wait_ms_zero_run :
  returned (wait_ms env_quiet 1 0 w_reset) = true /\
  isr_between w_reset (world_of (wait_ms env_quiet 1 0 w_reset)) = 0 /\
  timer2_tick (world_of (wait_ms env_quiet 1 0 w_reset)) = 0 /\
  returned (wait_ms env_pending 1 0 w_reset) = true /\
  timer2_tick (world_of (wait_ms env_pending 1 0 w_reset)) = 1.
Proof. vm_compute. repeat split. Qed.

(** ** The stepper motor *)

Lemma steady_env_steady : steady env_steady.
Proof. intros k. reflexivity. Qed.

Example stepper_cw_run :
  returned (move_stepper_motor_by_step env_steady 10 1 1 w_porte) = true /\
  filter motor_event
    (log (world_of (move_stepper_motor_by_step env_steady 10 1 1 w_porte))) =
    [EvOut PORTE 0x15; EvOut PORTE 0x25; EvOut PORTE 0x45; EvOut PORTE 0x85;
     EvOut PORTE 0x15; EvWait 2;
     EvOut PORTE 0x25; EvOut PORTE 0x45; EvOut PORTE 0x85; EvOut PORTE 0x15;
     EvOut PORTE 0x25; EvWait 2].
Proof. vm_compute. split; reflexivity. Qed.

Example stepper_ccw_run :
  returned (move_stepper_motor_by_step env_steady 10 0 (-1) w_reset) = true /\
  filter motor_event
    (log (world_of (move_stepper_motor_by_step env_steady 10 0 (-1) w_reset)))
  = [EvOut PORTE 0x10; EvOut PORTE 0x80; EvOut PORTE 0x40; EvOut PORTE 0x20;
     EvOut PORTE 0x10; EvWait 2].
Proof. vm_compute. split; reflexivity. Qed.

(** C2, as stated, fails at [num_steps = INT_MAX = 32767]: the test
    [steps <= num_steps] can then never fail, the loop is not left after
    32768 iterations, and the call does not return (the increment of
    [steps] overflows). *)
Lemma stepper_iterations_counterexample :
  ~ runs_all_iterations env_steady 32767 1 w_reset.
Proof.
  intros (fuel & w' & l & blocks & H & _).
  pose proof (move_stepper_int_max env_steady fuel 1 w_reset (or_introl eq_refl))
    as Hr.
  change INT_MAX with 32767 in Hr. rewrite H in Hr. discriminate Hr.
Qed.

(** C2 (amended). For every [num_steps] with [0 <= num_steps < INT_MAX]
    and [direction] 1 or -1, the loop of [move_stepper_motor_by_step]
    runs exactly [num_steps + 1] iterations, one more than asked for:
    whenever the call returns, its log shows [num_steps + 1] blocks, each
    of five stores to PORTE followed by the entry of [wait_ms 2]; and
    in an environment in which compare matches keep arriving the call
    does return. *)
Theorem stepper_iterations E fuel num_steps direction w :
  0 <= num_steps < INT_MAX -> direction = 1 \/ direction = -1 ->
  (forall w',
     move_stepper_motor_by_step E fuel num_steps direction w = Done tt w' ->
     exists l blocks,
       log w' = log w ++ l /\
       filter motor_event l = iterations blocks /\
       length blocks = Z.to_nat (num_steps + 1) /\
       Forall (fun vs => length vs = 5%nat) blocks) /\
  (timely E -> runs_all_iterations E num_steps direction w).
Proof.
  intros Hns Hd. split.
  - intros w' H. apply (move_stepper_shape E fuel num_steps direction w w');
      try assumption; lia.
  - intros HE.
    destruct (move_stepper_timely E num_steps direction w HE Hd Hns)
      as (fuel' & w' & H).
    destruct (move_stepper_shape E fuel' num_steps direction w w' Hd
                ltac:(lia) H) as (l & blocks & Hrest).
    now exists fuel', w', l, blocks.
Qed.

Lemma stepper_iterations_witness :
  runs_all_iterations env_steady 1 1 w_reset.
Proof.
  apply (stepper_iterations env_steady 10 1 1 w_reset).
  - unfold INT_MAX. lia.
  - left. reflexivity.
  - exact (steady_timely env_steady steady_env_steady).
Defined.

(** C3. For every [num_steps >= 0] and every [direction] other than 1
    and -1, the body of the loop leaves [steps] (and [turner]) as they
    were, so the test of the [while] never fails: the call does not
    return, whatever the fuel. *)
Theorem stepper_bad_direction_spins E fuel num_steps direction w :
  0 <= num_steps -> direction <> 1 -> direction <> -1 ->
  (exists w',
     move_stepper_motor_by_step E fuel num_steps direction w = Spin w') /\
  (forall masked_porte steps turner v,
     stepper_body E direction masked_porte steps turner v =
     Done (steps, turner) v).
Proof.
  intros Hns H1 H2. split.
  - now apply move_stepper_idle.
  - intros m steps t v. now apply stepper_body_idle.
Qed.

Lemma stepper_bad_direction_spins_witness :
  exists w', move_stepper_motor_by_step env_steady 50 3 0 w_reset = Spin w'.
Proof.
  apply (stepper_bad_direction_spins env_steady 50 3 0 w_reset).
  - lia.
  - discriminate.
  - discriminate.
Defined.

Example stepper_bad_direction_run :
  returned (move_stepper_motor_by_step env_steady 60 3 0 w_reset) = false /\
  filter motor_event
    (log (world_of (move_stepper_motor_by_step env_steady 6 3 0 w_reset))) =
    [EvWait 2; EvWait 2; EvWait 2; EvWait 2; EvWait 2].
Proof. vm_compute. split; reflexivity. Qed.

(** C9. In any run of [move_stepper_motor_by_step], returning or not,
    every value stored to PORTE has exactly one of bits 4-7 set (the
    high nibble is one of 0x10, 0x20, 0x40, 0x80) and has the low nibble
    that PORTE had when it was read at entry. *)
Theorem stepper_phase_values E fuel num_steps direction w :
  exists l,
    log (world_of (move_stepper_motor_by_step E fuel num_steps direction w))
    = log w ++ l /\
    forall v, In (EvOut PORTE v) l ->
      one_phase (Z.land v 0xF0) /\ Z.land v 0x0F = Z.land (io w PORTE) 0x0F.
Proof.
  destruct (move_stepper_events E fuel num_steps direction w)
    as (l & Hl & HP).
  exists l. split; [exact Hl|].
  intros v Hv. rewrite Forall_forall in HP. exact (HP _ Hv).
Qed.

(** ** The inputs *)

Example read_push_buttons_run :
  (exists w', read_push_buttons env_buttons w_reset = Done 5 w') /\
  (exists w', read_push_buttons env_quiet w_reset = Done 0 w').
Proof. split; eexists; vm_compute; reflexivity. Qed.

(** C4. [read_push_buttons] always returns, and a value from 0 to 6;
    with PINC at a value [p] during the call it returns [k] where
    [k - 1] is the index of the highest cleared bit among bits 0-5 of
    [p] (buttons are active low, the highest pressed button wins), and
    it returns 0 exactly when bits 0-5 of [p] are all set. *)
Theorem read_push_buttons_priority E w :
  exists k w',
    read_push_buttons E w = Done k w' /\ 0 <= k <= 6 /\
    forall p, pins_hold E (now w) 6 p ->
      (k = 0 <-> forall i, 0 <= i <= 5 -> Z.testbit p i = true) /\
      (k <> 0 -> Z.testbit p (k - 1) = false /\
                 forall j, k - 1 < j <= 5 -> Z.testbit p j = true).
Proof.
  destruct (read_push_buttons_total E w) as (k & w' & H & Hk & _).
  exists k, w'. split; [exact H|]. split; [exact Hk|].
  intros p Hp.
  destruct (read_push_buttons_stable E w p Hp) as (w'' & H').
  rewrite H' in H. injection H as <- _.
  apply button_of_spec.
Qed.

Example read_shaft_encoder_run_cw :
  exists w', read_shaft_encoder env_buttons w_reset = Done 1 w' /\
             old_value w' = 0x40.
Proof. eexists. vm_compute. split; reflexivity. Qed.

(** C5. [read_shaft_encoder] compares the reading [PINC & 0xC0] with the
    stored previous reading: it returns 1 iff the previous reading was
    0xC0 and the new one is 0x40, -1 iff the previous reading was 0xC0
    and the new one is 0x80, and 0 in every other case; every call
    leaves the new reading in [old_value]; and [old_value] starts as
    0xC0. *)
Theorem read_shaft_encoder_rotation E w :
  exists r w',
    read_shaft_encoder E w = Done r w' /\
    (r = 1 <->
     old_value w = 0xC0 /\ Z.land (uint8 (pins E (now w))) 0xC0 = 0x40) /\
    (r = -1 <->
     old_value w = 0xC0 /\ Z.land (uint8 (pins E (now w))) 0xC0 = 0x80) /\
    (r = 0 <->
     ~ (old_value w = 0xC0 /\
        (Z.land (uint8 (pins E (now w))) 0xC0 = 0x40 \/
         Z.land (uint8 (pins E (now w))) 0xC0 = 0x80))) /\
    (r = 1 \/ r = -1 \/ r = 0) /\
    old_value w' = Z.land (uint8 (pins E (now w))) 0xC0 /\
    forall regs, old_value (power_on regs) = 0xC0.
Proof.
  destruct (read_shaft_encoder_run E w) as (w' & H & Ho & _).
  eexists _, w'. split; [exact H|].
  destruct (Z.eqb_spec (old_value w) 192) as [Hold|Hold];
    [destruct (Z.eqb_spec (Z.land (uint8 (pins E (now w))) 192) 128)
       as [Hnew|Hnew];
     [|destruct (Z.eqb_spec (Z.land (uint8 (pins E (now w))) 192) 64)
         as [Hnew'|Hnew']]|];
    repeat apply conj; try exact Ho; try reflexivity;
    try (intros; discriminate); try lia; try tauto;
    try (intros [? ?]; lia); try (intros _ [? [?|?]]; lia);
    try (intros H0; exfalso; apply H0; split; [assumption|]; tauto).
Qed.

(** C6. The variables of the module that keep their value between calls
    are [timer2_tick] and [old_value], and no others.
    [read_push_buttons] stores to no variable and to no register: all it
    adds to the log are reads of PINC (and handler runs in between), and
    registers, the I flag and [old_value] are as before, as is
    [timer2_tick] unless the timer interrupt is on.
    [read_shaft_encoder] reads PINC and [old_value] and makes one store,
    to [old_value]; registers and the I flag are as before.  No entry
    point stores to a variable other than these two, and to
    [timer2_tick] only zero. *)
Theorem persistent_state E w :
  (forall x : var, x = Var_timer2_tick \/ x = Var_old_value) /\
  (exists k w' l,
     read_push_buttons E w = Done k w' /\
     log w' = log w ++ l /\ Forall pinc_read l /\ stores l = [] /\
     reads_only w w') /\
  (exists r w' l,
     read_shaft_encoder E w = Done r w' /\
     log w' = log w ++ l /\
     filter main_event l =
       [EvIn PINC (uint8 (pins E (now w)));
        EvGet Var_old_value (old_value w);
        EvSet Var_old_value (old_value w')] /\
     io w' = io w /\ iflag w' = iflag w) /\
  (forall fuel c, emits module_event (exec E fuel c)).
Proof.
  repeat apply conj.
  - intros []; [left | right]; reflexivity.
  - destruct (read_push_buttons_total E w) as (k & w' & H & _ & Hr).
    destruct (emits_read_push_buttons E w) as (l & Hl & HP).
    rewrite H in Hl. cbn [world_of] in Hl.
    exists k, w', l.
    split; [exact H|]. split; [exact Hl|]. split; [exact HP|].
    split; [|exact Hr].
    apply stores_none. eapply Forall_impl; [|exact HP].
    intros e He. destruct e as [[] v|[] v|[] v|[] v| |];
      cbn in He; try contradiction; reflexivity.
  - destruct (read_shaft_encoder_run E w)
      as (w' & H & Ho & Hio & Hi & (l & Hl & Hm)).
    eexists _, w', l. rewrite Ho.
    split; [exact H|]. split; [exact Hl|]. split; [exact Hm|].
    split; [exact Hio | exact Hi].
  - intros fuel c. apply exec_events.
Qed.

(** ** No validation *)

Section Unchecked.

Variable E : env.

(** [timer2_start] with a unit other than 0 and 1 configures nothing:
    it resets the counter and sets the I flag. *)
Lemma timer2_start_other unit w :
  unit <> 0 -> unit <> 1 ->
  exists w' l,
    timer2_start E unit w = Done tt w' /\ log w' = log w ++ l /\
    filter main_event l = [EvSet Var_timer2_tick 0] /\
    iflag w' = true /\ io w' = io w.
Proof.
  intros H0 H1. unfold timer2_start.
  destruct (Z.eqb_spec unit 0) as [|_]; [contradiction|].
  destruct (Z.eqb_spec unit 1) as [|_]; [contradiction|].
  repeat flat_step. change (uint16 0) with 0.
  eexists _, _. split; [reflexivity|].
  cbn [io iflag log set_iflag]. split; [reflexivity|].
  rewrite !main_app, !main_isr. repeat split.
Qed.

(** [stepper_init] returns or waits on in its call of [wait_ms]. *)
Lemma stepper_init_outcome fuel w :
  (exists w', stepper_init E fuel w = Done tt w') \/
  (exists w', stepper_init E fuel w = Spin w').
Proof.
  unfold stepper_init. do 4 flat_step.
  match goal with
  | |- context [bind (wait_ms E fuel 2) _ ?W] =>
      destruct (wait_ms_outcome E fuel 2 W) as [(w1 & H)|(w1 & H)]
  end.
  - left. rewrite (bind_run _ _ _ _ _ H).
    destruct (total_bind _ _ (total_rd E PORTE)
                (fun v => total_wr E PORTE (Z.land v 15)) w1)
      as ([] & w2 & H2).
    now exists w2.
  - right. exists w1. unfold bind at 1. now rewrite H.
Qed.

End Unchecked.

Example stepper_zero_steps :
  runs_all_iterations env_steady 0 1 w_reset.
Proof.
  exists 10%nat. vm_compute. eexists _, _, [[_; _; _; _; _]].
  repeat split. repeat constructor.
Qed.

Example stepper_many_steps :
  exists w', move_stepper_motor_by_step env_steady 300 201 (-1) w_reset
             = Done tt w'.
Proof. eexists. vm_compute. reflexivity. Qed.

(** C7. No function of the module validates its input or has an error
    path.  For every argument value: [timer2_start], [timer2_stop], the
    two input initialisers and the two readers return, the readers with
    a value of their normal range ([timer2_start] with a unit other than
    0 and 1 silently configures nothing); [wait_ms] and [stepper_init]
    return or wait on.  [wait_ms] does not look at its argument before
    the loop: for every [time_val] it first sets the timer up, and a
    call that returns has polled the counter at least once, left the
    loop on a value read that was not below [time_val], every earlier
    one being below it, and stopped the timer.
    [move_stepper_motor_by_step] does not check
    [num_steps]: for every [num_steps >= 0], also 0 or above 200, a
    returning call has run [num_steps + 1] iterations, and for a negative
    [num_steps] the call returns having only read PORTE.  It does not
    check [direction]: with a value other than 1 and -1 it enters the
    loop and never returns. *)
Theorem no_input_validation E w :
  (forall unit, exists w', timer2_start E unit w = Done tt w') /\
  (forall unit, unit <> 0 -> unit <> 1 ->
     exists w' l,
       timer2_start E unit w = Done tt w' /\ log w' = log w ++ l /\
       filter main_event l = [EvSet Var_timer2_tick 0] /\
       iflag w' = true /\ io w' = io w) /\
  (exists w', timer2_stop E w = Done tt w') /\
  (exists w', init_push_buttons E w = Done tt w') /\
  (exists k w', read_push_buttons E w = Done k w' /\ 0 <= k <= 6) /\
  (exists w', shaft_encoder_init E w = Done tt w') /\
  (exists r w',
     read_shaft_encoder E w = Done r w' /\ (r = 1 \/ r = -1 \/ r = 0)) /\
  (forall fuel time_val,
     ((exists w', wait_ms E fuel time_val w = Done tt w') \/
      (exists w', wait_ms E fuel time_val w = Spin w')) /\
     (exists l l',
        log (world_of (wait_ms E fuel time_val w)) =
          log w ++ EvWait time_val :: l ++ l' /\
        filter main_event l =
          [EvOut OCR2 250; EvSet Var_timer2_tick 0; EvSet Var_timer2_tick 0;
           EvOut TCCR2 11; EvIn TIMSK (io w TIMSK);
           EvOut TIMSK (uint8 (Z.lor (io w TIMSK) 128))]) /\
     (forall w',
        wait_ms E fuel time_val w = Done tt w' ->
        exists l ps t,
          log w' = log w ++ EvWait time_val :: l /\
          filter main_event l =
            [EvOut OCR2 250; EvSet Var_timer2_tick 0;
             EvSet Var_timer2_tick 0; EvOut TCCR2 11;
             EvIn TIMSK (io w TIMSK);
             EvOut TIMSK (uint8 (Z.lor (io w TIMSK) 128))] ++
            map (EvGet Var_timer2_tick) (ps ++ [t]) ++
            [EvIn TIMSK (uint8 (Z.lor (io w TIMSK) 128));
             EvOut TIMSK
               (uint8 (Z.land (uint8 (Z.lor (io w TIMSK) 128))
                              (Z.lnot 128)));
             EvIn TCCR2 11; EvOut TCCR2 11] /\
          Forall (fun v => 0 <= v < time_val) ps /\ time_val <= t)) /\
  (forall fuel,
     (exists w', stepper_init E fuel w = Done tt w') \/
     (exists w', stepper_init E fuel w = Spin w')) /\
  (forall fuel num_steps direction w',
     direction = 1 \/ direction = -1 -> 0 <= num_steps ->
     move_stepper_motor_by_step E fuel num_steps direction w = Done tt w' ->
     exists l blocks,
       log w' = log w ++ l /\
       filter motor_event l = iterations blocks /\
       length blocks = Z.to_nat (num_steps + 1) /\
       Forall (fun vs => length vs = 5%nat) blocks) /\
  (forall fuel num_steps direction,
     num_steps < 0 ->
     exists w' l,
       move_stepper_motor_by_step E (S fuel) num_steps direction w
       = Done tt w' /\
       log w' = log w ++ l /\
       filter main_event l = [EvIn PORTE (io w PORTE)]) /\
  (forall fuel num_steps direction,
     0 <= num_steps -> direction <> 1 -> direction <> -1 ->
     exists w',
       move_stepper_motor_by_step E fuel num_steps direction w = Spin w').
Proof.
  repeat apply conj.
  - intros u. destruct (total_timer2_start E u w) as ([] & w' & H).
    now exists w'.
  - intros u. apply timer2_start_other.
  - destruct (total_timer2_stop E w) as ([] & w' & H). now exists w'.
  - destruct (total_init_push_buttons E w) as ([] & w' & H). now exists w'.
  - destruct (read_push_buttons_total E w) as (k & w' & H & Hk & _).
    now exists k, w'.
  - destruct (total_shaft_encoder_init E w) as ([] & w' & H). now exists w'.
  - destruct (read_shaft_encoder_run E w) as (w' & H & _).
    eexists _, w'. split; [exact H|].
    destruct (old_value w =? 192); [|tauto].
    destruct (Z.land (uint8 (pins E (now w))) 192 =? 128); [tauto|].
    destruct (Z.land (uint8 (pins E (now w))) 192 =? 64); tauto.
  - intros fuel tv. split; [apply wait_ms_outcome|].
    split; [apply wait_ms_sets_up|].
    intros w' H.
    destruct (wait_ms_returns E fuel tv w w' H)
      as (_ & _ & _ & _ & _ & _ & _ &
          (l & ps & t & Hl & Hm & Hps & Ht & _)).
    now exists l, ps, t.
  - intros fuel. apply stepper_init_outcome.
  - intros fuel ns dir w' Hd Hns H.
    now apply (move_stepper_shape E fuel ns dir w w').
  - intros fuel ns dir Hns. now apply move_stepper_negative.
  - intros fuel ns dir Hns H1 H2. now apply move_stepper_idle.
Qed.

(** * Further properties of the module *)

(** ** The handler over many runs, and the fast mode of the timer *)

(** X1. The handler counts modulo 65536: from a counter [t] in the
    range of an [unsigned int], [n] runs of [TIMER2_COMP_vect] leave
    [(t + n) mod 65536] in [timer2_tick], so 65536 further runs bring
    the counter back to the value it had. *)
Theorem handler_counts_modulo n w :
  0 <= timer2_tick w < 65536 ->
  timer2_tick (Nat.iter n TIMER2_COMP_vect w) =
    uint16 (timer2_tick w + Z.of_nat n) /\
  timer2_tick (Nat.iter (n + Z.to_nat 65536) TIMER2_COMP_vect w) =
    timer2_tick (Nat.iter n TIMER2_COMP_vect w).
Proof.
  intros Ht. rewrite !serve_iter, !serve_flat. cbn [timer2_tick].
  rewrite !ticks_closed by exact Ht. split; [reflexivity|].
  rewrite Nat2Z.inj_add, Z2Nat.id by lia.
  unfold uint16.
  replace (timer2_tick w + (Z.of_nat n + 65536))
    with (timer2_tick w + Z.of_nat n + 1 * 65536) by lia.
  apply Z.mod_add. lia.
Qed.

Lemma handler_counts_modulo_witness :
  timer2_tick (Nat.iter 3 TIMER2_COMP_vect w_reset) = uint16 (0 + 3).
Proof.
  refine (proj1 (handler_counts_modulo 3 w_reset _)).
  change (0 <= 0 < 65536). lia.
Defined.

Section Fast.

Variable E : env.


End Fast.


(** ** When the delay returns, and when it cannot *)

Section Missed.

Variable E : env.
Hypothesis HE : steady E.

Lemma service_steady w :
  irq_enabled w = true ->
  timer2_tick (service E w) = uint16 (timer2_tick w + 1).
Proof. intros He. unfold service. rewrite He, HE. reflexivity. Qed.

Lemma uint16_parity x : uint16 x mod 2 = x mod 2.
Proof. unfold uint16. apply Z.mod_mod_divide. now exists 32768. Qed.

Lemma lo8_parity x : lo8 x mod 2 = x mod 2.
Proof. unfold lo8. apply Z.mod_mod_divide. now exists 128. Qed.

(** With a compare match served at every access, a poll that starts
    from an odd counter loads an even low byte and leaves the counter
    odd: it never reads 65535. *)
Lemma poll_even w :
  irq_enabled w = true -> timer2_tick w mod 2 = 1 ->
  poll_value E w < 65535 /\
  irq_enabled (polled E w) = true /\ timer2_tick (polled E w) mod 2 = 1.
Proof.
  intros He Ho.
  assert (He' : irq_enabled (advance (service E w)) = true).
  { unfold irq_enabled in *. now proj. }
  destruct (polled_frame E w) as (_ & _ & _ & Pt & _).
  pose proof (service_steady w He) as T1.
  pose proof (service_steady (advance (service E w)) He') as T2.
  change (timer2_tick (advance (service E w)))
    with (timer2_tick (service E w)) in T2.
  assert (P1 : timer2_tick (service E w) mod 2 = 0).
  { rewrite T1, uint16_parity, <- Z.add_mod_idemp_l, Ho by lia. reflexivity. }
  split; [|split].
  - unfold poll_value, word.
    pose proof (hi8_range
                  (timer2_tick (service E (advance (service E w))))).
    pose proof (lo8_range (timer2_tick (service E w))).
    pose proof (lo8_parity (timer2_tick (service E w))) as Hl.
    rewrite P1 in Hl.
    assert (lo8 (timer2_tick (service E w)) <> 255).
    { intros Hc. rewrite Hc in Hl. discriminate Hl. }
    lia.
  - rewrite irq_enabled_polled. exact He.
  - rewrite Pt, T2, uint16_parity, <- Z.add_mod_idemp_l, P1 by lia.
    reflexivity.
Qed.

Lemma wait_loop_odd fuel :
  forall w, irq_enabled w = true -> timer2_tick w mod 2 = 1 ->
    exists w', wait_loop E fuel 65535 w = Spin w'.
Proof.
  induction fuel as [|fuel IH]; intros w He Ho.
  - now exists w.
  - rewrite wait_loop_step.
    destruct (poll_even w He Ho) as (Hv & He' & Ho').
    destruct (Z.ltb_spec (poll_value E w) 65535); [|lia].
    now apply IH.
Qed.

End Missed.

(** The largest values of an [unsigned int] can be missed.  With a
    compare match served at every access the counter moves between the
    two byte loads of every poll; started with the timer interrupt on,
    [wait_ms 65535] then never reads 65535 and never returns. *)
Lemma wait_ms_misses_top_value :
  timely env_steady /\
  forall fuel, exists w', wait_ms env_steady fuel 65535 w_on = Spin w'.
Proof.
  split; [exact (steady_timely env_steady steady_env_steady)|].
  intros fuel.
  destruct (wait_ms_split env_steady 65535 w_on) as (w3 & Hs & He & _).
  assert (H3 : w3 = world_of (wait_ms env_steady 0 65535 w_on)).
  { rewrite (Hs 0%nat). reflexivity. }
  destruct (wait_loop_odd env_steady steady_env_steady fuel w3 He)
    as (w' & H).
  { rewrite H3. vm_compute. reflexivity. }
  exists w'. rewrite Hs. unfold bind. now rewrite H.
Qed.

(** X3. With the timer running, [wait_ms] returns for every argument up
    to 65533: in an environment in which compare matches keep arriving,
    at most one per access, some fuel lets the call return, and any
    larger fuel gives the same return.  (The two largest values of an
    [unsigned int] are left out: the counter is read in two byte loads,
    and a wait for them can be missed, as [wait_ms_misses_top_value]
    shows.) *)
Theorem wait_ms_returns_when_timer_runs E time_val w :
  timely E -> 0 <= time_val <= 65533 ->
  exists fuel w',
    forall fuel', (fuel <= fuel')%nat ->
      wait_ms E fuel' time_val w = Done tt w'.
Proof.
  intros HE Ht.
  destruct (wait_ms_timely E time_val w HE Ht) as (fuel & w' & H).
  exists fuel, w'. intros fuel' Hle. now apply (wait_ms_le E fuel fuel').
Qed.

Lemma wait_ms_returns_when_timer_runs_witness :
  exists fuel w',
    forall fuel', (fuel <= fuel')%nat ->
      wait_ms env_steady fuel' 3 w_reset = Done tt w'.
Proof.
  apply (wait_ms_returns_when_timer_runs env_steady 3 w_reset).
  - exact (steady_timely env_steady steady_env_steady).
  - lia.
Defined.

Section Never.

Variable E : env.
Hypothesis Hq : forall k, irqs E k = 0%nat.

Ltac never_step :=
  lazymatch goal with
  | |- bind (bind _ _) _ _ = _ => rewrite bind_assoc
  | |- bind (wr _ _ _) _ _ = _ =>
      erewrite bind_run by (apply wr_quiet; apply Hq)
  | |- bind (wr_tick _ _) _ _ = _ =>
      erewrite bind_run by (apply wr_tick_quiet; apply Hq)
  | |- bind (rd _ _) _ _ = _ =>
      erewrite bind_run by (apply rd_quiet; [apply Hq | discriminate])
  | |- bind sei _ _ = _ => erewrite bind_run by reflexivity
  | |- bind (ret _) _ _ = _ => erewrite bind_run by reflexivity
  | |- bind (fun _ => Done _ _) _ _ = _ => erewrite bind_run by reflexivity
  end;
  cbn [io iflag timer2_tick old_value now log upd reg_eqb set_iflag note].

(** Without compare matches the busy wait polls the same value for
    ever. *)
Lemma wait_loop_never fuel tv :
  forall w, 0 <= timer2_tick w < 65536 -> timer2_tick w < tv ->
    exists w', wait_loop E fuel tv w = Spin w'.
Proof.
  induction fuel as [|fuel IH]; intros w Hr Ht.
  - now exists w.
  - rewrite wait_loop_step.
    destruct (polled_frame E w) as (_ & _ & _ & Pt & _).
    unfold poll_value.
    rewrite (service_none E w (Hq _)) in *.
    rewrite (service_none E (advance w) (Hq _)) in *.
    change (timer2_tick (advance w)) with (timer2_tick w) in *.
    rewrite word_bytes by exact Hr.
    destruct (Z.ltb_spec (timer2_tick w) tv); [|lia].
    apply IH; now rewrite Pt.
Qed.

(** Without compare matches the busy wait is entered with the counter
    at zero. *)
Lemma wait_ms_never_setup tv w :
  exists w3, timer2_tick w3 = 0 /\
    forall fuel, wait_ms E fuel tv w =
      bind (wait_loop E fuel tv) (fun _ => timer2_stop E) w3.
Proof.
  eexists. split; cycle 1.
  - intros fuel. unfold wait_ms, timer2_start. cbn [Z.eqb].
    repeat never_step. reflexivity.
  - cbn [timer2_tick]. apply stored_zero_quiet.
Qed.

End Never.

(** X4. [wait_ms] depends on the interrupt: if no compare match ever
    arrives, a call with a nonzero argument never returns, whatever the
    fuel. *)
Theorem wait_ms_needs_ticks E fuel time_val w :
  (forall k, irqs E k = 0%nat) -> 0 < time_val ->
  exists w', wait_ms E fuel time_val w = Spin w'.
Proof.
  intros Hq Ht. destruct (wait_ms_never_setup E Hq time_val w)
    as (w3 & H0 & ->).
  destruct (wait_loop_never E Hq fuel time_val w3 ltac:(lia) ltac:(lia))
    as (w' & H).
  exists w'. unfold bind. now rewrite H.
Qed.

Lemma wait_ms_needs_ticks_witness :
  exists w', wait_ms env_quiet 7 3 w_reset = Spin w'.
Proof.
  apply (wait_ms_needs_ticks env_quiet 7 3 w_reset).
  - intros k. reflexivity.
  - lia.
Defined.

(** ** The input initialisers *)

Ltac const_bits :=
  repeat match goal with
  | |- context [Z.testbit (Zpos ?p) ?q] =>
      let b := eval vm_compute in (Z.testbit (Zpos p) q) in
      change (Z.testbit (Zpos p) q) with b
  end;
  rewrite ?andb_true_r, ?andb_false_r, ?orb_true_r, ?orb_false_r.

Ltac byte_bits i :=
  let Hc := fresh "Hc" in
  assert (Hc : i = 0 \/ i = 1 \/ i = 2 \/ i = 3 \/ i = 4 \/ i = 5 \/
               i = 6 \/ i = 7) by lia;
  destruct Hc as [Hc|[Hc|[Hc|[Hc|[Hc|[Hc|[Hc|Hc]]]]]]]; subst i;
  const_bits; reflexivity.

Section Inits.

Variable E : env.

Lemma land_mask_bits v m i :
  0 <= i < 8 ->
  Z.testbit (uint8 (Z.land v m)) i = Z.testbit v i && Z.testbit m i.
Proof. intros Hi. now rewrite uint8_bits, Z.land_spec. Qed.

Lemma lor_mask_bits v m i :
  0 <= i < 8 ->
  Z.testbit (uint8 (Z.lor v m)) i = Z.testbit v i || Z.testbit m i.
Proof. intros Hi. now rewrite uint8_bits, Z.lor_spec. Qed.

(** Two bytes with the same eight bits are equal. *)
Lemma byte_eq x y :
  0 <= x < 256 -> 0 <= y < 256 ->
  (forall i, 0 <= i < 8 -> Z.testbit x i = Z.testbit y i) -> x = y.
Proof.
  intros Hx Hy H.
  rewrite <- (Z.mod_small x 256), <- (Z.mod_small y 256) by lia.
  change 256 with (2 ^ 8). rewrite <- !Z.land_ones by lia.
  apply Z.bits_inj'. intros n Hn. rewrite !Z.land_spec.
  destruct (Z.ltb_spec n 8) as [Hlt|Hge].
  - now rewrite H by lia.
  - rewrite Z.ones_spec_high by lia. now rewrite !andb_false_r.
Qed.

Lemma uint8_range x : 0 <= uint8 x < 256.
Proof. unfold uint8. apply Z.mod_pos_bound. lia. Qed.

(** [init_push_buttons()], written out. *)
Lemma init_push_buttons_flat w :
  exists n1 n2 n3 n4,
    init_push_buttons E w =
    Done tt
      (mkWorld (upd (upd (io w) DDRC (uint8 (Z.land (io w DDRC) 0xC0)))
                    PORTC (uint8 (Z.lor (io w PORTC) 0x3F)))
               (iflag w)
               (ticks n4 (ticks n3 (ticks n2 (ticks n1 (timer2_tick w)))))
               (old_value w) (4 + now w)
               (log w ++ repeat EvIsr n1 ++
                EvIn DDRC (io w DDRC) :: repeat EvIsr n2 ++
                EvOut DDRC (uint8 (Z.land (io w DDRC) 0xC0)) ::
                repeat EvIsr n3 ++
                EvIn PORTC (io w PORTC) :: repeat EvIsr n4 ++
                [EvOut PORTC (uint8 (Z.lor (io w PORTC) 0x3F))])).
Proof.
  unfold init_push_buttons.
  repeat flat_step.
  exists n, n0, n1, n2. rewrite <- !app_assoc. reflexivity.
Qed.

(** [shaft_encoder_init()], written out. *)
Lemma shaft_encoder_init_flat w :
  exists n1 n2 n3 n4,
    shaft_encoder_init E w =
    Done tt
      (mkWorld (upd (upd (io w) DDRC (uint8 (Z.land (io w DDRC) 0x3F)))
                    PORTC (uint8 (Z.lor (io w PORTC) 0xC0)))
               (iflag w)
               (ticks n4 (ticks n3 (ticks n2 (ticks n1 (timer2_tick w)))))
               (old_value w) (4 + now w)
               (log w ++ repeat EvIsr n1 ++
                EvIn DDRC (io w DDRC) :: repeat EvIsr n2 ++
                EvOut DDRC (uint8 (Z.land (io w DDRC) 0x3F)) ::
                repeat EvIsr n3 ++
                EvIn PORTC (io w PORTC) :: repeat EvIsr n4 ++
                [EvOut PORTC (uint8 (Z.lor (io w PORTC) 0xC0))])).
Proof.
  unfold shaft_encoder_init.
  repeat flat_step.
  exists n, n0, n1, n2. rewrite <- !app_assoc. reflexivity.
Qed.

Lemma ddrc_both v :
  uint8 (Z.land (uint8 (Z.land v 0xC0)) 0x3F) = 0 /\
  uint8 (Z.land (uint8 (Z.land v 0x3F)) 0xC0) = 0.
Proof.
  split; (apply byte_eq; [apply uint8_range | lia |]);
    intros i Hi; rewrite !land_mask_bits by exact Hi; byte_bits i.
Qed.

Lemma portc_both v :
  uint8 (Z.lor (uint8 (Z.lor v 0x3F)) 0xC0) = 255 /\
  uint8 (Z.lor (uint8 (Z.lor v 0xC0)) 0x3F) = 255.
Proof.
  split; (apply byte_eq; [apply uint8_range | lia |]);
    intros i Hi; rewrite !lor_mask_bits by exact Hi; byte_bits i.
Qed.

End Inits.

(** X5. [init_push_buttons] always returns, with bits 0-5 of DDRC
    cleared (PC0-PC5 are inputs) and bits 0-5 of PORTC set (their
    pull-ups are on); bits 6-7 of both registers, every other register,
    the I flag and [old_value] are as before; it reads and stores each
    of the two registers once, DDRC first. *)
Theorem init_push_buttons_effect E w :
  exists w' l,
    init_push_buttons E w = Done tt w' /\
    (forall i, 0 <= i < 8 ->
       Z.testbit (io w' DDRC) i =
       if i <? 6 then false else Z.testbit (io w DDRC) i) /\
    (forall i, 0 <= i < 8 ->
       Z.testbit (io w' PORTC) i =
       if i <? 6 then true else Z.testbit (io w PORTC) i) /\
    (forall r, r <> DDRC -> r <> PORTC -> io w' r = io w r) /\
    iflag w' = iflag w /\ old_value w' = old_value w /\
    log w' = log w ++ l /\
    filter main_event l =
      [EvIn DDRC (io w DDRC); EvOut DDRC (io w' DDRC);
       EvIn PORTC (io w PORTC); EvOut PORTC (io w' PORTC)].
Proof.
  destruct (init_push_buttons_flat E w) as (n1 & n2 & n3 & n4 & H).
  eexists _, _. split; [exact H|].
  cbn [io iflag old_value log upd reg_eqb].
  repeat apply conj; try reflexivity.
  - intros i Hi. rewrite land_mask_bits by exact Hi. byte_bits i.
  - intros i Hi. rewrite lor_mask_bits by exact Hi. byte_bits i.
  - intros r H1 H2. unfold upd. destruct r; try reflexivity; contradiction.
  - repeat (rewrite main_app, main_isr; cbn [filter main_event app]).
    reflexivity.
Qed.

(** X6. [shaft_encoder_init] always returns, with bits 6-7 of DDRC
    cleared (PC6-PC7 are inputs) and bits 6-7 of PORTC set (their
    pull-ups are on); bits 0-5 of both registers, every other register,
    the I flag and [old_value] are as before. *)
Theorem shaft_encoder_init_effect E w :
  exists w' l,
    shaft_encoder_init E w = Done tt w' /\
    (forall i, 0 <= i < 8 ->
       Z.testbit (io w' DDRC) i =
       if i <? 6 then Z.testbit (io w DDRC) i else false) /\
    (forall i, 0 <= i < 8 ->
       Z.testbit (io w' PORTC) i =
       if i <? 6 then Z.testbit (io w PORTC) i else true) /\
    (forall r, r <> DDRC -> r <> PORTC -> io w' r = io w r) /\
    iflag w' = iflag w /\ old_value w' = old_value w /\
    log w' = log w ++ l /\
    filter main_event l =
      [EvIn DDRC (io w DDRC); EvOut DDRC (io w' DDRC);
       EvIn PORTC (io w PORTC); EvOut PORTC (io w' PORTC)].
Proof.
  destruct (shaft_encoder_init_flat E w) as (n1 & n2 & n3 & n4 & H).
  eexists _, _. split; [exact H|].
  cbn [io iflag old_value log upd reg_eqb].
  repeat apply conj; try reflexivity.
  - intros i Hi. rewrite land_mask_bits by exact Hi. byte_bits i.
  - intros i Hi. rewrite lor_mask_bits by exact Hi. byte_bits i.
  - intros r H1 H2. unfold upd. destruct r; try reflexivity; contradiction.
  - repeat (rewrite main_app, main_isr; cbn [filter main_event app]).
    reflexivity.
Qed.

(** X7. The two input initialisers share DDRC and PORTC and do not
    undo each other: run in either order they leave the same registers,
    with DDRC = 0 (all of port C an input) and PORTC = 0xFF (all
    pull-ups on), whatever the two registers held before. *)
Theorem input_inits_compose E w :
  exists w1 w2,
    bind (init_push_buttons E) (fun _ => shaft_encoder_init E) w
      = Done tt w1 /\
    bind (shaft_encoder_init E) (fun _ => init_push_buttons E) w
      = Done tt w2 /\
    io w1 DDRC = 0 /\ io w1 PORTC = 0xFF /\
    (forall r, io w2 r = io w1 r) /\
    (forall r, r <> DDRC -> r <> PORTC -> io w1 r = io w r).
Proof.
  destruct (init_push_buttons_flat E w) as (n1 & n2 & n3 & n4 & Ha).
  destruct (shaft_encoder_init_flat E w) as (m1 & m2 & m3 & m4 & Hb).
  rewrite (bind_run _ _ _ _ _ Ha), (bind_run _ _ _ _ _ Hb).
  match goal with
  | |- context [shaft_encoder_init E ?W] =>
      destruct (shaft_encoder_init_flat E W) as (p1 & p2 & p3 & p4 & ->)
  end.
  match goal with
  | |- context [init_push_buttons E ?W] =>
      destruct (init_push_buttons_flat E W) as (q1 & q2 & q3 & q4 & ->)
  end.
  cbn [io upd reg_eqb].
  eexists _, _. split; [reflexivity|]. split; [reflexivity|].
  cbn [io upd reg_eqb].
  destruct (ddrc_both (io w DDRC)) as (D1 & D2).
  destruct (portc_both (io w PORTC)) as (P1 & P2).
  repeat apply conj.
  - exact D1.
  - exact P1.
  - intros r. unfold upd. destruct r; cbn [reg_eqb]; try reflexivity.
    + now rewrite D1, D2.
    + now rewrite P1, P2.
  - intros r H1 H2. unfold upd. destruct r; try reflexivity; contradiction.
Qed.

(** ** The readers on pins that change *)

Lemma pin_test x i :
  0 <= i < 8 -> (Z.land (uint8 x) (2 ^ i) =? 0) = negb (Z.testbit x i).
Proof. intros Hi. rewrite land_bit by lia. now rewrite uint8_bits. Qed.

Ltac pick_bit j :=
  assert (j = 1 \/ j = 2 \/ j = 3 \/ j = 4 \/ j = 5 \/ j = 6) as
    [->|[->|[->|[->|[->| ->]]]]] by lia;
  first [assumption | lia].

(** X8. [read_push_buttons] samples the pins anew for each button, from
    button 6 down: the test of button [j] looks at bit [j - 1] of PINC
    as it is at access [6 - j] of the call.  The result [k] is the
    first button whose own sample shows it pressed (bit low); the
    samples of all buttons above [k] showed them released; the call
    makes [7 - k] reads of PINC, six when it returns 0.  What the pins
    show at any other access has no effect. *)
Theorem read_push_buttons_samples E w :
  exists k w',
    read_push_buttons E w = Done k w' /\ 0 <= k <= 6 /\
    (forall j, k < j <= 6 ->
       Z.testbit (pins E (Z.to_nat (6 - j)%Z + now w)%nat) (j - 1) = true) /\
    (k <> 0 ->
       Z.testbit (pins E (Z.to_nat (6 - k)%Z + now w)%nat) (k - 1) = false) /\
    now w' = (Z.to_nat (if k =? 0 then 6 else 7 - k)%Z + now w)%nat.
Proof.
  unfold read_push_buttons.
  flat_step. rewrite (pin_test _ 5 ltac:(lia) : (Z.land _ 32 =? 0) = _).
  destruct (Z.testbit (pins E (now w)) 5) eqn:B6; cbn [negb].
  2:{ eexists _, _. split; [reflexivity|]. cbn [now].
      repeat apply conj; try lia; try reflexivity.
      intros _. exact B6. }
  flat_step. rewrite (pin_test _ 4 ltac:(lia) : (Z.land _ 16 =? 0) = _).
  destruct (Z.testbit (pins E (S (now w))) 4) eqn:B5; cbn [negb].
  2:{ eexists _, _. split; [reflexivity|]. cbn [now].
      repeat apply conj; try lia; try reflexivity.
      - intros j Hj. pick_bit j.
      - intros _. exact B5. }
  flat_step. rewrite (pin_test _ 3 ltac:(lia) : (Z.land _ 8 =? 0) = _).
  destruct (Z.testbit (pins E (S (S (now w)))) 3) eqn:B4; cbn [negb].
  2:{ eexists _, _. split; [reflexivity|]. cbn [now].
      repeat apply conj; try lia; try reflexivity.
      - intros j Hj. pick_bit j.
      - intros _. exact B4. }
  flat_step. rewrite (pin_test _ 2 ltac:(lia) : (Z.land _ 4 =? 0) = _).
  destruct (Z.testbit (pins E (S (S (S (now w))))) 2) eqn:B3; cbn [negb].
  2:{ eexists _, _. split; [reflexivity|]. cbn [now].
      repeat apply conj; try lia; try reflexivity.
      - intros j Hj. pick_bit j.
      - intros _. exact B3. }
  flat_step. rewrite (pin_test _ 1 ltac:(lia) : (Z.land _ 2 =? 0) = _).
  destruct (Z.testbit (pins E (S (S (S (S (now w)))))) 1) eqn:B2; cbn [negb].
  2:{ eexists _, _. split; [reflexivity|]. cbn [now].
      repeat apply conj; try lia; try reflexivity.
      - intros j Hj. pick_bit j.
      - intros _. exact B2. }
  flat_step. rewrite (pin_test _ 0 ltac:(lia) : (Z.land _ 1 =? 0) = _).
  destruct (Z.testbit (pins E (S (S (S (S (S (now w))))))) 0) eqn:B1;
    cbn [negb].
  2:{ eexists _, _. split; [reflexivity|]. cbn [now].
      repeat apply conj; try lia; try reflexivity.
      - intros j Hj. pick_bit j.
      - intros _. exact B1. }
  eexists _, _. split; [reflexivity|]. cbn [now].
  repeat apply conj; try lia; try reflexivity.
  intros j Hj. pick_bit j.
Qed.

(** Button 6 pressed just after its own sample was taken: it is held
    down during the other five reads, and the call returns 0. *)
Example read_push_buttons_glitch :
  exists w',
    read_push_buttons
      (mkEnv (fun _ => 0%nat) (fun k => if Nat.eqb k 0 then 0xFF else 0xDF))
      w_reset = Done 0 w'.
Proof. eexists. vm_compute. reflexivity. Qed.

Section Encoder_twice.

Variable E : env.

(** One call of [read_shaft_encoder], with the access it uses up. *)
Lemma read_shaft_encoder_next w :
  exists w',
    read_shaft_encoder E w =
    Done (if old_value w =? 0xC0
          then if Z.land (uint8 (pins E (now w))) 0xC0 =? 0x80 then -1
               else if Z.land (uint8 (pins E (now w))) 0xC0 =? 0x40 then 1
                    else 0
          else 0) w' /\
    old_value w' = Z.land (uint8 (pins E (now w))) 0xC0 /\
    now w' = S (now w).
Proof.
  unfold read_shaft_encoder. flat_step.
  unfold bind, rd_old, wr_old, ret, note, set_old. cbv zeta.
  cbn [io iflag timer2_tick old_value now log].
  change (int8 (-1)) with (-1).
  rewrite !uint8_land_idem by lia.
  eexists. split; [reflexivity|].
  cbn [old_value now]. split; reflexivity.
Qed.

End Encoder_twice.

(** X9. Two calls of [read_shaft_encoder] in a row: the second result
    is decided by the two samples of PINC alone, whatever [old_value]
    held before the first call.  It is 1 iff the first sample showed the
    knob in a groove (bits 7-6 = 11) and the second shows 01, -1 iff the
    first showed 11 and the second 10; so a call that reported a
    rotation is followed by a call that reports none. *)
Theorem read_shaft_encoder_twice E w :
  exists r1 w1 r2 w2,
    read_shaft_encoder E w = Done r1 w1 /\
    read_shaft_encoder E w1 = Done r2 w2 /\
    (r1 <> 0 -> r2 = 0) /\
    (r2 = 1 <->
     Z.land (uint8 (pins E (now w))) 0xC0 = 0xC0 /\
     Z.land (uint8 (pins E (S (now w)))) 0xC0 = 0x40) /\
    (r2 = -1 <->
     Z.land (uint8 (pins E (now w))) 0xC0 = 0xC0 /\
     Z.land (uint8 (pins E (S (now w)))) 0xC0 = 0x80) /\
    old_value w2 = Z.land (uint8 (pins E (S (now w)))) 0xC0.
Proof.
  destruct (read_shaft_encoder_next E w) as (w1 & H1 & O1 & N1).
  destruct (read_shaft_encoder_next E w1) as (w2 & H2 & O2 & N2).
  rewrite O1, N1 in H2. rewrite N1 in O2.
  eexists _, w1, _, w2. split; [exact H1|]. split; [exact H2|].
  clear H1 H2 O1 N1 N2. revert O2.
  generalize (Z.land (uint8 (pins E (now w))) 192) as s1.
  generalize (Z.land (uint8 (pins E (S (now w)))) 192) as s2.
  intros s2 s1.
  intros O2. split; [|split; [|split; [|exact O2]]].
  - destruct (Z.eqb_spec (old_value w) 192); [|intros F; now elim F].
    destruct (Z.eqb_spec s1 128) as [->|];
      [intros _; reflexivity|].
    destruct (Z.eqb_spec s1 64) as [->|]; [intros _; reflexivity|].
    intros F; now elim F.
  - destruct (Z.eqb_spec s1 192) as [Hs|Hs];
      [destruct (Z.eqb_spec s2 128) as [Ht|Ht];
       [|destruct (Z.eqb_spec s2 64) as [Hu|Hu]]|];
      split; try (intros; discriminate); try lia; try tauto.
  - destruct (Z.eqb_spec s1 192) as [Hs|Hs];
      [destruct (Z.eqb_spec s2 128) as [Ht|Ht];
       [|destruct (Z.eqb_spec s2 64) as [Hu|Hu]]|];
      split; try (intros; discriminate); try lia; try tauto.
Qed.

(** ** What each entry point touches *)

Section Footprints.

Variable E : env.
Variable regs : reg -> bool.
Variable old : bool.

Lemma footprint_refl w : footprint regs old w w.
Proof. repeat split; trivial. Qed.

Lemma footprint_trans w1 w2 w3 :
  footprint regs old w1 w2 -> footprint regs old w2 w3 ->
  footprint regs old w1 w3.
Proof.
  intros (A1 & A2 & A3) (B1 & B2 & B3). repeat split.
  - intros r Hr. now rewrite B1, A1.
  - intros Ho. now rewrite B2, A2.
  - intros Hi. now apply B3, A3.
Qed.

Lemma frames_ret {A} (a : A) : frames (footprint regs old) (ret a).
Proof. intros w. apply footprint_refl. Qed.

Lemma frames_spin {A} : frames (footprint regs old) (@spin A).
Proof. intros w. apply footprint_refl. Qed.

Lemma frames_undef {A} : frames (footprint regs old) (@undef A).
Proof. intros w. apply footprint_refl. Qed.

Lemma frames_bind {A B} (m : M A) (k : A -> M B) :
  frames (footprint regs old) m ->
  (forall a, frames (footprint regs old) (k a)) ->
  frames (footprint regs old) (bind m k).
Proof.
  intros Hm Hk w. specialize (Hm w). unfold bind.
  destruct (m w) as [a w1|w1|w1]; cbn [world_of] in *; try exact Hm.
  eapply footprint_trans; [exact Hm | apply Hk].
Qed.

Lemma frames_rd r : frames (footprint regs old) (rd E r).
Proof. intros w. unfold rd, footprint. proj. repeat split; trivial. Qed.

Lemma frames_wr r v : regs r = true -> frames (footprint regs old) (wr E r v).
Proof.
  intros Hr w. unfold wr, footprint. proj. repeat split; trivial.
  intros r' Hr'. unfold upd.
  destruct r, r'; cbn [reg_eqb]; try reflexivity; congruence.
Qed.

Lemma frames_rd_tick : frames (footprint regs old) (rd_tick E).
Proof. intros w. unfold rd_tick, footprint. proj. repeat split; trivial. Qed.

Lemma frames_wr_tick v : frames (footprint regs old) (wr_tick E v).
Proof. intros w. unfold wr_tick, footprint. proj. repeat split; trivial. Qed.

Lemma frames_sei : frames (footprint regs old) sei.
Proof. intros w. unfold sei, footprint. proj. repeat split; trivial. Qed.

Lemma frames_rd_old : frames (footprint regs old) rd_old.
Proof. intros w. unfold rd_old, footprint. proj. repeat split; trivial. Qed.

Lemma frames_wr_old v :
  old = true -> frames (footprint regs old) (wr_old v).
Proof.
  intros Ho w. unfold wr_old, footprint. proj. repeat split; trivial.
  congruence.
Qed.

Lemma frames_int_succ x : frames (footprint regs old) (int_succ x).
Proof.
  unfold int_succ. destruct (x <? INT_MAX);
    [apply frames_ret | apply frames_undef].
Qed.

Lemma frames_for_loop {A} n (body : A -> M A) a :
  (forall a', frames (footprint regs old) (body a')) ->
  frames (footprint regs old) (for_loop n body a).
Proof.
  intros Hb. revert a. induction n as [|n IH]; intros a; cbn [for_loop].
  - apply frames_ret.
  - apply frames_bind; [apply Hb | exact IH].
Qed.

Lemma frames_wait_loop fuel tv :
  frames (footprint regs old) (wait_loop E fuel tv).
Proof.
  induction fuel as [|fuel IH]; cbn [wait_loop]; [apply frames_spin|].
  apply frames_bind; [apply frames_rd_tick|].
  intros t. destruct (t <? tv); [exact IH | apply frames_ret].
Qed.

End Footprints.

Ltac framing :=
  repeat lazymatch goal with
  | |- frames _ (ret _) => apply frames_ret
  | |- frames _ (bind _ _) => apply frames_bind; [|intros ?]
  | |- frames _ (rd _ _) => apply frames_rd
  | |- frames _ (wr _ _ _) => apply frames_wr; reflexivity
  | |- frames _ (rd_tick _) => apply frames_rd_tick
  | |- frames _ (wr_tick _ _) => apply frames_wr_tick
  | |- frames _ sei => apply frames_sei
  | |- frames _ rd_old => apply frames_rd_old
  | |- frames _ (wr_old _) => apply frames_wr_old; reflexivity
  | |- frames _ (int_succ _) => apply frames_int_succ
  | |- frames _ (wait_loop _ _ _) => apply frames_wait_loop
  | |- frames _ (for_loop _ _ _) => apply frames_for_loop; intros ?
  | |- frames _ (if ?c then _ else _) => destruct c
  end.

Section Entry_points.

Variable E : env.

Lemma footprint_weaken (regs regs' : reg -> bool) (old old' : bool) w w' :
  (forall r, regs r = true -> regs' r = true) ->
  (old = true -> old' = true) ->
  footprint regs old w w' -> footprint regs' old' w w'.
Proof.
  intros Hr Ho (A1 & A2 & A3). repeat split.
  - intros r H. apply A1. destruct (regs r) eqn:Hb; [|reflexivity].
    rewrite (Hr r Hb) in H. discriminate.
  - intros H. apply A2. destruct old; [|reflexivity].
    rewrite (Ho eq_refl) in H. discriminate.
  - exact A3.
Qed.

Lemma frames_weaken {A} (regs regs' : reg -> bool) (old old' : bool)
      (m : M A) :
  (forall r, regs r = true -> regs' r = true) ->
  (old = true -> old' = true) ->
  frames (footprint regs old) m -> frames (footprint regs' old') m.
Proof. intros Hr Ho H w. eapply footprint_weaken; eauto. Qed.

Lemma frames_timer2_start unit :
  frames (footprint (stores_to Call_timer2_stop) false) (timer2_start E unit).
Proof. unfold timer2_start. framing. Qed.

Lemma frames_timer2_stop :
  frames (footprint (stores_to Call_timer2_stop) false) (timer2_stop E).
Proof. unfold timer2_stop. framing. Qed.

Lemma frames_wait_ms regs fuel tv :
  (forall r, timer_regs r = true -> regs r = true) ->
  frames (footprint regs false) (wait_ms E fuel tv).
Proof.
  intros Hr. apply (frames_weaken timer_regs regs false false);
    [exact Hr | trivial |].
  unfold wait_ms.
  apply frames_bind; [intros w; repeat split; trivial | intros _].
  repeat lazymatch goal with
  | |- frames _ (timer2_start _ _) =>
      apply (frames_weaken (stores_to Call_timer2_stop) timer_regs false
               false); [intros []; cbn; congruence | trivial |];
      apply frames_timer2_start
  | |- frames _ (timer2_stop _) =>
      apply (frames_weaken (stores_to Call_timer2_stop) timer_regs false
               false); [intros []; cbn; congruence | trivial |];
      apply frames_timer2_stop
  | |- frames _ (bind _ _) => apply frames_bind; [|intros ?]
  | |- frames _ (wr _ _ _) => apply frames_wr; reflexivity
  | |- frames _ (wr_tick _ _) => apply frames_wr_tick
  | |- frames _ (wait_loop _ _ _) => apply frames_wait_loop
  end.
Qed.

Lemma frames_stepper_loop fuel ns dir m :
  forall steps t,
    frames (footprint (stores_to (Call_move_stepper_motor_by_step ns dir))
                      false)
           (stepper_loop E fuel ns dir m steps t).
Proof.
  induction fuel as [|fuel IH]; intros steps t; cbn [stepper_loop];
    [apply frames_spin|].
  destruct (steps <=? ns); [|apply frames_ret].
  apply frames_bind.
  - unfold stepper_body, cw_phase, ccw_phase. framing.
  - intros st. apply frames_bind; [|intros ?; apply IH].
    apply frames_wait_ms. intros []; cbn; congruence.
Qed.

End Entry_points.

(** X10. The footprint of every entry point, for every argument and
    whatever the outcome (returned, still running, or overflowed): it
    leaves every register it does not own as it was ([wait_ms] and the
    timer routines own the timer registers, the two input initialisers
    DDRC and PORTC, the stepper routines DDRE or PORTE and, through
    [wait_ms], the timer registers; the two readers own none); only
    [read_shaft_encoder] changes [old_value]; and no entry point clears
    the I flag once it is set. *)
Theorem entry_point_footprint E fuel c w :
  (forall r, stores_to c r = false ->
     io (world_of (exec E fuel c w)) r = io w r) /\
  (c <> Call_read_shaft_encoder ->
     old_value (world_of (exec E fuel c w)) = old_value w) /\
  (iflag w = true -> iflag (world_of (exec E fuel c w)) = true).
Proof.
  assert (H : frames (footprint (stores_to c) (stores_old c)) (exec E fuel c)).
  { destruct c; cbn [exec]; (apply frames_bind; [|intros ?; apply frames_ret]).
    - apply frames_wait_ms. trivial.
    - apply frames_timer2_start.
    - apply frames_timer2_stop.
    - unfold init_push_buttons. framing.
    - unfold read_push_buttons. framing.
    - unfold shaft_encoder_init. framing.
    - unfold read_shaft_encoder. cbv zeta. framing.
    - unfold stepper_init.
      repeat lazymatch goal with
      | |- frames _ (wait_ms _ _ _) =>
          apply frames_wait_ms; intros []; cbn; congruence
      | |- frames _ (bind _ _) => apply frames_bind; [|intros ?]
      | |- frames _ (rd _ _) => apply frames_rd
      | |- frames _ (wr _ _ _) => apply frames_wr; reflexivity
      end.
    - unfold move_stepper_motor_by_step. cbv zeta.
      apply frames_bind; [apply frames_rd|intros ?].
      apply frames_stepper_loop. }
  destruct (H w) as (H1 & H2 & H3). split; [exact H1|]. split; [|exact H3].
  intros Hc. apply H2. destruct c; try reflexivity. contradiction.
Qed.

(** ** The order of the phases *)

Section Order.

Lemma uint8_lor_small a b :
  0 <= a < 256 -> 0 <= b < 256 -> uint8 (Z.lor a b) = Z.lor a b.
Proof.
  intros Ha Hb. unfold uint8. change 256 with (2 ^ 8).
  rewrite <- Z.land_ones, Z.land_lor_distr_l, !Z.land_ones by lia.
  change (2 ^ 8) with 256. now rewrite !Z.mod_small by lia.
Qed.

Lemma mod4_cases j :
  (j mod 4 = 0 /\ S j mod 4 = 1)%nat \/ (j mod 4 = 1 /\ S j mod 4 = 2)%nat \/
  (j mod 4 = 2 /\ S j mod 4 = 3)%nat \/ (j mod 4 = 3 /\ S j mod 4 = 0)%nat.
Proof.
  pose proof (Nat.mod_upper_bound j 4 ltac:(lia)) as Hb.
  replace (S j) with (1 + j)%nat by reflexivity.
  rewrite Nat.Div0.add_mod. change (1 mod 4)%nat with 1%nat.
  destruct (j mod 4)%nat as [|[|[|[|n]]]]; cbn; try tauto; lia.
Qed.

Lemma cw_seq_phase j : one_phase (cw_seq j).
Proof.
  unfold cw_seq, one_phase.
  destruct (mod4_cases j) as [(-> & _)|[(-> & _)|[(-> & _)|(-> & _)]]];
    cbn; tauto.
Qed.

Lemma ccw_seq_phase j : one_phase (ccw_seq j).
Proof.
  unfold ccw_seq, one_phase.
  destruct (mod4_cases j) as [(-> & _)|[(-> & _)|[(-> & _)|(-> & _)]]];
    cbn; tauto.
Qed.

(** The update of [turner] in the clockwise branch goes to the next
    phase of [cw_seq]. *)
Lemma cw_seq_next j :
  (if uint8 (Z.shiftl (cw_seq j) 1) =? 0 then 0x10
   else uint8 (Z.shiftl (cw_seq j) 1)) = cw_seq (S j).
Proof.
  unfold cw_seq.
  destruct (mod4_cases j) as [(-> & ->)|[(-> & ->)|[(-> & ->)|(-> & ->)]]];
    reflexivity.
Qed.

(** The update of [turner] in the counter-clockwise branch goes to the
    next phase of [ccw_seq]. *)
Lemma ccw_seq_next j :
  (if uint8 (Z.shiftr (ccw_seq j) 1) =? 0x08 then 0x80
   else uint8 (Z.shiftr (ccw_seq j) 1)) = ccw_seq (S j).
Proof.
  unfold ccw_seq.
  destruct (mod4_cases j) as [(-> & ->)|[(-> & ->)|[(-> & ->)|(-> & ->)]]];
    reflexivity.
Qed.

Lemma phase_byte t : one_phase t -> 0 <= t < 256.
Proof. unfold one_phase. lia. Qed.

Variable E : env.
Variable m : Z.
Hypothesis Hm : 0 <= m < 16.

Lemma cw_phase_seq j w :
  exists n,
    cw_phase E m (cw_seq j) w =
    Done (cw_seq (S j))
      (mkWorld (upd (io w) PORTE (Z.lor m (cw_seq j))) (iflag w)
               (ticks n (timer2_tick w)) (old_value w) (S (now w))
               (log w ++ repeat EvIsr n ++ [EvOut PORTE (Z.lor m (cw_seq j))])).
Proof.
  unfold cw_phase. cbv zeta. rewrite cw_seq_next.
  destruct (wr_flat E PORTE (Z.lor m (cw_seq j)) w) as (n & H).
  exists n. rewrite (bind_run _ _ _ _ _ H).
  rewrite uint8_lor_small;
    [reflexivity | lia | apply phase_byte, cw_seq_phase].
Qed.

Lemma ccw_phase_seq j w :
  exists n,
    ccw_phase E m (ccw_seq j) w =
    Done (ccw_seq (S j))
      (mkWorld (upd (io w) PORTE (Z.lor m (ccw_seq j))) (iflag w)
               (ticks n (timer2_tick w)) (old_value w) (S (now w))
               (log w ++ repeat EvIsr n ++
                [EvOut PORTE (Z.lor m (ccw_seq j))])).
Proof.
  unfold ccw_phase. cbv zeta. rewrite ccw_seq_next.
  destruct (wr_flat E PORTE (Z.lor m (ccw_seq j)) w) as (n & H).
  exists n. rewrite (bind_run _ _ _ _ _ H).
  rewrite uint8_lor_small;
    [reflexivity | lia | apply phase_byte, ccw_seq_phase].
Qed.

Ltac phase_step lem :=
  match goal with
  | |- context [bind (?body (?ph ?j)) ?k ?W] =>
      let n := fresh "n" in let H := fresh "Hrun" in
      destruct (lem j W) as (n & H);
      rewrite (bind_run _ k _ _ _ H); clear H;
      cbn [io iflag timer2_tick old_value now log]
  end.

(** One pass of the body in the clockwise direction, entered at phase
    [j]: the five stores, in order. *)
Lemma five_phases_cw j steps w :
  steps < INT_MAX ->
  exists w' l,
    stepper_body E 1 m steps (cw_seq j) w
      = Done (steps + 1, cw_seq (5 + j)) w' /\
    log w' = log w ++ l /\
    filter motor_event l =
      map (EvOut PORTE) (map (fun i => Z.lor m (cw_seq i)) (seq j 5)) /\
    io w' PORTE = Z.lor m (cw_seq (4 + j)).
Proof.
  intros Hs. unfold stepper_body, int_succ. cbn [Z.eqb Pos.eqb for_loop].
  destruct (Z.ltb_spec steps INT_MAX) as [_|]; [|lia].
  rewrite !bind_assoc.
  do 5 (phase_step cw_phase_seq; rewrite ?bind_assoc).
  unfold bind, ret. eexists _, _. split; [reflexivity|].
  cbn [io log upd reg_eqb]. split; [|split; [|reflexivity]].
  - rewrite <- !app_assoc. reflexivity.
  - repeat (rewrite motor_app, motor_isr; cbn [filter motor_event app]).
    reflexivity.
Qed.

(** The same in the counter-clockwise direction. *)
Lemma five_phases_ccw j steps w :
  steps < INT_MAX ->
  exists w' l,
    stepper_body E (-1) m steps (ccw_seq j) w
      = Done (steps + 1, ccw_seq (5 + j)) w' /\
    log w' = log w ++ l /\
    filter motor_event l =
      map (EvOut PORTE) (map (fun i => Z.lor m (ccw_seq i)) (seq j 5)) /\
    io w' PORTE = Z.lor m (ccw_seq (4 + j)).
Proof.
  intros Hs. unfold stepper_body, int_succ. cbn [Z.eqb Pos.eqb for_loop].
  destruct (Z.ltb_spec steps INT_MAX) as [_|]; [|lia].
  rewrite !bind_assoc.
  do 5 (phase_step ccw_phase_seq; rewrite ?bind_assoc).
  unfold bind, ret. eexists _, _. split; [reflexivity|].
  cbn [io log upd reg_eqb]. split; [|split; [|reflexivity]].
  - rewrite <- !app_assoc. reflexivity.
  - repeat (rewrite motor_app, motor_isr; cbn [filter motor_event app]).
    reflexivity.
Qed.

End Order.

Section Loop_order.

Variable E : env.
Variable dir m : Z.
Variable ph : nat -> Z.
Hypothesis Hd : dir = 1 \/ dir = -1.
Hypothesis Hbody : forall j steps w,
  steps < INT_MAX ->
  exists w' l,
    stepper_body E dir m steps (ph j) w = Done (steps + 1, ph (5 + j)) w' /\
    log w' = log w ++ l /\
    filter motor_event l =
      map (EvOut PORTE) (map (fun i => Z.lor m (ph i)) (seq j 5)) /\
    io w' PORTE = Z.lor m (ph (4 + j)).

(** A returning run of the loop from iteration [k] on: one block per
    iteration, with the phases in the order of [ph]; the loop is left
    at the return of the last [wait_ms]. *)
Lemma stepper_loop_order ns fuel :
  forall (k : nat) w w',
    Z.of_nat k <= ns + 1 ->
    stepper_loop E fuel ns dir m (Z.of_nat k) (ph (5 * k)) w = Done tt w' ->
    (exists l,
       log w' = log w ++ l /\
       filter motor_event l =
         iterations (map (block ph m)
                         (seq k (Z.to_nat (ns + 1 - Z.of_nat k))))) /\
    (ns < Z.of_nat k -> w' = w) /\
    (Z.of_nat k <= ns ->
     exists f w1,
       io w1 PORTE = Z.lor m (ph (4 + 5 * Z.to_nat ns)) /\
       wait_ms E f 2 w1 = Done tt w').
Proof.
  induction fuel as [|fuel IH]; intros k w w' Hk H;
    cbn [stepper_loop] in H; [discriminate|].
  destruct (Z.leb_spec (Z.of_nat k) ns) as [Hle|Hgt].
  - apply bind_Done in H as (st & w1 & H1 & H).
    apply bind_Done in H as ([] & w2 & H2 & H).
    pose proof (stepper_body_done E dir m _ _ w st w1 Hd H1) as (Hlt & _).
    destruct (Hbody (5 * k) (Z.of_nat k) w Hlt)
      as (w1' & l1 & H1' & L1 & M1 & P1).
    rewrite H1' in H1. injection H1 as <- ->. cbn [fst snd] in H.
    destruct (wait_ms_motor E fuel 2 w1) as (l2 & L2 & M2).
    rewrite H2 in L2. cbn [world_of] in L2.
    assert (Hnext : stepper_loop E fuel ns dir m (Z.of_nat (S k))
                      (ph (5 * S k)) w2 = Done tt w').
    { rewrite <- H. f_equal; [lia | f_equal; lia]. }
    apply IH in Hnext as ((l3 & L3 & M3) & Hout & Hin); [|lia].
    split; [|split; [lia|]].
    + exists (l1 ++ l2 ++ l3). split.
      * rewrite L3, L2, L1, <- !app_assoc. reflexivity.
      * replace (Z.to_nat (ns + 1 - Z.of_nat k))
          with (S (Z.to_nat (ns + 1 - Z.of_nat (S k)))) by lia.
        cbn [seq map]. rewrite iterations_cons.
        rewrite !motor_app, M1, M2, M3. reflexivity.
    + intros _. destruct (Z.le_gt_cases (Z.of_nat (S k)) ns) as [Hmore|Hlast].
      * now apply Hin.
      * rewrite (Hout ltac:(lia)). exists fuel, w1. split; [|exact H2].
        rewrite P1. replace (Z.to_nat ns) with k by lia. reflexivity.
  - injection H as <-. split; [|split; [reflexivity | lia]].
    exists []. rewrite app_nil_r. split; [reflexivity|].
    replace (ns + 1 - Z.of_nat k) with 0 by lia. reflexivity.
Qed.

End Loop_order.

Section Stepper_runs.

Variable E : env.

Lemma phase_index n : ((4 + 5 * n) mod 4 = n mod 4)%nat.
Proof.
  replace (4 + 5 * n)%nat with (n + (n + 1) * 4)%nat by lia.
  apply Nat.Div0.mod_add.
Qed.

(** A returning call whose body goes through the phases [ph]: the
    blocks of the whole run, and the last [wait_ms] with the value that
    PORTE holds during it. *)
Lemma move_stepper_order ph fuel ns dir w w' :
  dir = 1 \/ dir = -1 -> 0 <= ns -> ph 0%nat = 0x10 ->
  (forall j steps v,
     steps < INT_MAX ->
     exists v' l,
       stepper_body E dir (Z.land (io w PORTE) 0x0F) steps (ph j) v
         = Done (steps + 1, ph (5 + j)%nat) v' /\
       log v' = log v ++ l /\
       filter motor_event l =
         map (EvOut PORTE)
             (map (fun i => Z.lor (Z.land (io w PORTE) 0x0F) (ph i))
                  (seq j 5)) /\
       io v' PORTE = Z.lor (Z.land (io w PORTE) 0x0F) (ph (4 + j)%nat)) ->
  move_stepper_motor_by_step E fuel ns dir w = Done tt w' ->
  (exists l,
     log w' = log w ++ l /\
     filter motor_event l =
       iterations (map (block ph (Z.land (io w PORTE) 0x0F))
                       (seq 0 (Z.to_nat (ns + 1))))) /\
  exists f w1,
    io w1 PORTE =
      Z.lor (Z.land (io w PORTE) 0x0F) (ph (4 + 5 * Z.to_nat ns)%nat) /\
    wait_ms E f 2 w1 = Done tt w'.
Proof.
  intros Hd Hns H0 Hbody.
  destruct (move_stepper_entry E fuel ns dir w) as (n & ->).
  intros H.
  change 0 with (Z.of_nat 0) in H at 1. rewrite <- H0 in H.
  change (ph 0%nat) with (ph (5 * 0)%nat) in H.
  apply (stepper_loop_order E dir _ ph Hd Hbody ns fuel 0) in H
    as ((l & Hl & Hm) & _ & Hin); [|cbn; lia].
  cbn [log] in Hl. split.
  - exists ((repeat EvIsr n ++ [EvIn PORTE (io w PORTE)]) ++ l).
    rewrite Hl, <- !app_assoc. split; [reflexivity|].
    rewrite !motor_app, motor_isr, Hm. cbn [filter motor_event app].
    now rewrite Z.sub_0_r.
  - apply Hin. cbn. lia.
Qed.

End Stepper_runs.

Example cw_seq_run :
  map cw_seq (seq 0 6) = [0x10; 0x20; 0x40; 0x80; 0x10; 0x20].
Proof. reflexivity. Qed.

Example ccw_seq_run :
  map ccw_seq (seq 0 6) = [0x10; 0x80; 0x40; 0x20; 0x10; 0x80].
Proof. reflexivity. Qed.

(** X11. Clockwise, the phases come in the order 0x10, 0x20, 0x40,
    0x80 and round again, without a gap from one iteration to the next:
    in a returning call with [direction = 1], store number [j] to PORTE
    (counted from 0 over the whole call) is the low nibble read at
    entry or-ed with [0x10 << (j mod 4)]; iteration [k] makes stores
    [5k] to [5k + 4] and then enters [wait_ms 2].  Every call starts
    again at 0x10. *)
Theorem stepper_cw_order E fuel num_steps w w' :
  0 <= num_steps ->
  move_stepper_motor_by_step E fuel num_steps 1 w = Done tt w' ->
  exists l,
    log w' = log w ++ l /\
    filter motor_event l =
      iterations (map (block cw_seq (Z.land (io w PORTE) 0x0F))
                      (seq 0 (Z.to_nat (num_steps + 1)))).
Proof.
  intros Hns H.
  apply (move_stepper_order E cw_seq fuel num_steps 1 w w'
           (or_introl eq_refl) Hns eq_refl); [|exact H].
  intros j steps v. apply five_phases_cw, land_15_range.
Qed.

Lemma stepper_cw_order_witness :
  exists l,
    log (world_of (move_stepper_motor_by_step env_steady 10 1 1 w_porte)) =
      log w_porte ++ l /\
    filter motor_event l =
      iterations (map (block cw_seq (Z.land (io w_porte PORTE) 0x0F))
                      (seq 0 (Z.to_nat (1 + 1)))).
Proof.
  apply (stepper_cw_order env_steady 10 1 w_porte).
  - lia.
  - vm_compute. reflexivity.
Defined.

(** X12. Counter-clockwise, the phases come in the order 0x10, 0x80,
    0x40, 0x20 and round again: in a returning call with
    [direction = -1], store number [j] to PORTE is the low nibble read
    at entry or-ed with [0x10 << ((4 - j mod 4) mod 4)]; iteration [k]
    makes stores [5k] to [5k + 4] and then enters [wait_ms 2]. *)
Theorem stepper_ccw_order E fuel num_steps w w' :
  0 <= num_steps ->
  move_stepper_motor_by_step E fuel num_steps (-1) w = Done tt w' ->
  exists l,
    log w' = log w ++ l /\
    filter motor_event l =
      iterations (map (block ccw_seq (Z.land (io w PORTE) 0x0F))
                      (seq 0 (Z.to_nat (num_steps + 1)))).
Proof.
  intros Hns H.
  apply (move_stepper_order E ccw_seq fuel num_steps (-1) w w'
           (or_intror eq_refl) Hns eq_refl); [|exact H].
  intros j steps v. apply five_phases_ccw, land_15_range.
Qed.

Lemma stepper_ccw_order_witness :
  exists l,
    log (world_of (move_stepper_motor_by_step env_steady 10 1 (-1) w_porte)) =
      log w_porte ++ l /\
    filter motor_event l =
      iterations (map (block ccw_seq (Z.land (io w_porte PORTE) 0x0F))
                      (seq 0 (Z.to_nat (1 + 1)))).
Proof.
  apply (stepper_ccw_order env_steady 10 1 w_porte).
  - lia.
  - vm_compute. reflexivity.
Defined.

(** X13. [move_stepper_motor_by_step] returns with a coil still
    energised: for [num_steps >= 0] and a valid direction, PORTE holds
    at the return the low nibble it had at entry and, in the high
    nibble, the one phase bit of index [num_steps mod 4] in the order of
    the direction; the function does not clear bits 4-7.  The I flag is
    set and the timer interrupt is off. *)
Theorem stepper_final_state E fuel num_steps direction w w' :
  0 <= num_steps -> direction = 1 \/ direction = -1 ->
  move_stepper_motor_by_step E fuel num_steps direction w = Done tt w' ->
  io w' PORTE =
    Z.lor (Z.land (io w PORTE) 0x0F)
          ((if direction =? 1 then cw_seq else ccw_seq) (Z.to_nat num_steps)) /\
  one_phase (Z.land (io w' PORTE) 0xF0) /\
  Z.land (io w' PORTE) 0x0F = Z.land (io w PORTE) 0x0F /\
  iflag w' = true /\ irq_enabled w' = false.
Proof.
  intros Hns Hd H.
  assert (Hlast : exists f w1,
    io w1 PORTE =
      Z.lor (Z.land (io w PORTE) 0x0F)
            ((if direction =? 1 then cw_seq else ccw_seq)
               (4 + 5 * Z.to_nat num_steps)%nat) /\
    wait_ms E f 2 w1 = Done tt w').
  { destruct Hd as [-> | ->]; cbn [Z.eqb Pos.eqb].
    - apply (move_stepper_order E cw_seq fuel num_steps 1 w w'
               (or_introl eq_refl) Hns eq_refl); [|exact H].
      intros j steps v. apply five_phases_cw, land_15_range.
    - apply (move_stepper_order E ccw_seq fuel num_steps (-1) w w'
               (or_intror eq_refl) Hns eq_refl); [|exact H].
      intros j steps v. apply five_phases_ccw, land_15_range. }
  destruct Hlast as (f & w1 & P1 & Hw).
  destruct (wait_ms_returns E f 2 w1 w' Hw)
    as (_ & _ & R3 & R4 & R5 & _).
  assert (Hp : io w' PORTE =
    Z.lor (Z.land (io w PORTE) 0x0F)
          ((if direction =? 1 then cw_seq else ccw_seq)
             (Z.to_nat num_steps))).
  { rewrite R4, P1 by discriminate. f_equal.
    destruct (direction =? 1); unfold cw_seq, ccw_seq;
      now rewrite phase_index. }
  assert (Hph : one_phase ((if direction =? 1 then cw_seq else ccw_seq)
                             (Z.to_nat num_steps))).
  { destruct (direction =? 1); [apply cw_seq_phase | apply ccw_seq_phase]. }
  pose proof (land_15_range (io w PORTE)) as Hm.
  pose proof (phase_value_lor _ _ Hm Hph) as (V1 & V2).
  rewrite uint8_lor_small in V1, V2
    by first [lia | apply phase_byte; exact Hph].
  rewrite Hp. repeat apply conj; trivial.
  unfold irq_enabled. rewrite R5, R3, clear_bit7_lnot by lia. reflexivity.
Qed.

Lemma stepper_final_state_witness :
  io (world_of (move_stepper_motor_by_step env_steady 10 1 1 w_porte)) PORTE
  = Z.lor (Z.land (io w_porte PORTE) 0x0F) (cw_seq (Z.to_nat 1)).
Proof.
  refine (proj1 (stepper_final_state env_steady 10 1 1 w_porte _ _ _ _)).
  - lia.
  - left. reflexivity.
  - vm_compute. reflexivity.
Defined.

(** ** Overflow of the step count *)

Section Overflow.

Variable E : env.

(** Away from [INT_MAX] the body returns, whatever the direction. *)
Lemma stepper_body_returns dir m steps t w :
  steps < INT_MAX ->
  exists st w', stepper_body E dir m steps t w = Done st w'.
Proof.
  intros Hs.
  destruct (Z.eq_dec dir 1) as [H1|H1];
    [|destruct (Z.eq_dec dir (-1)) as [H2|H2]].
  - destruct (stepper_body_run E dir m steps t w (or_introl H1) Hs)
      as (t' & w' & _ & _ & H & _). eexists _, _. exact H.
  - destruct (stepper_body_run E dir m steps t w (or_intror H2) Hs)
      as (t' & w' & _ & _ & H & _). eexists _, _. exact H.
  - eexists _, _. now apply stepper_body_idle.
Qed.

Lemma stepper_loop_defined ns dir m fuel :
  ns < INT_MAX ->
  forall steps t w,
    (exists w', stepper_loop E fuel ns dir m steps t w = Done tt w') \/
    (exists w', stepper_loop E fuel ns dir m steps t w = Spin w').
Proof.
  intros Hns. induction fuel as [|fuel IH]; intros steps t w.
  - right. now exists w.
  - rewrite stepper_loop_unfold.
    destruct (Z.leb_spec steps ns) as [Hle|Hgt]; [|left; now exists w].
    destruct (stepper_body_returns dir m steps t w ltac:(lia))
      as (st & w1 & H1).
    rewrite (bind_run _ _ _ _ _ H1).
    destruct (wait_ms_outcome E fuel 2 w1) as [(w2 & H2)|(w2 & H2)].
    + rewrite (bind_run _ _ _ _ _ H2). apply IH.
    + right. exists w2. unfold bind. now rewrite H2.
Qed.

(** An overflow stays one with more fuel. *)
Lemma stepper_loop_more_undef ns dir m fuel :
  forall steps t w w',
    stepper_loop E fuel ns dir m steps t w = Undef w' ->
    stepper_loop E (S fuel) ns dir m steps t w = Undef w'.
Proof.
  induction fuel as [|fuel IH]; intros steps t w w'; [discriminate|].
  rewrite (stepper_loop_unfold E (S fuel)), (stepper_loop_unfold E fuel).
  destruct (steps <=? ns); [|trivial].
  unfold bind at 1 3.
  destruct (stepper_body E dir m steps t w) as [st w1|w1|w1]; trivial.
  destruct (wait_ms_outcome E fuel 2 w1) as [(w2 & H2)|(w2 & H2)].
  - rewrite (bind_run _ _ _ _ _ H2).
    rewrite (bind_run _ _ _ _ _ (wait_ms_more E _ _ _ _ H2)).
    apply IH.
  - unfold bind at 1. rewrite H2. discriminate.
Qed.

Lemma stepper_loop_undef_le ns dir m fuel fuel' steps t w w' :
  (fuel <= fuel')%nat ->
  stepper_loop E fuel ns dir m steps t w = Undef w' ->
  stepper_loop E fuel' ns dir m steps t w = Undef w'.
Proof.
  induction 1 as [|f Hle IH]; [trivial|].
  intros H. now apply stepper_loop_more_undef, IH.
Qed.

(** The body run with [steps = INT_MAX]: the five stores to PORTE are
    made, then the increment overflows. *)
Lemma stepper_body_overflow_log dir m t w :
  dir = 1 \/ dir = -1 ->
  exists w' l vs,
    stepper_body E dir m INT_MAX t w = Undef w' /\
    log w' = log w ++ l /\ filter motor_event l = map (EvOut PORTE) vs /\
    length vs = 5%nat.
Proof.
  intros Hd. unfold stepper_body, int_succ.
  rewrite Z.ltb_irrefl.
  destruct Hd as [-> | ->]; cbn [Z.eqb Pos.eqb].
  - destruct (for_loop_run (cw_phase E m) 5 (cw_phase_run E m) t w)
      as (t' & w' & l & vs & H & Hrest).
    exists w', l, vs. now rewrite (bind_run _ _ _ _ _ H).
  - destruct (for_loop_run (ccw_phase E m) 5 (ccw_phase_run E m) t w)
      as (t' & w' & l & vs & H & Hrest).
    exists w', l, vs. now rewrite (bind_run _ _ _ _ _ H).
Qed.

(** With the timer running and [num_steps = INT_MAX], the loop comes
    to the increment that overflows: it completes one iteration for
    every value of [steps] below [INT_MAX], and runs the body once more
    with [steps = INT_MAX]. *)
Lemma stepper_loop_overflows dir m :
  timely E -> dir = 1 \/ dir = -1 ->
  forall (k : nat) steps t w,
    steps <= INT_MAX -> Z.to_nat (INT_MAX - steps) = k ->
    exists fuel w' w1 t1 l blocks l' vs,
      stepper_loop E fuel INT_MAX dir m steps t w = Undef w' /\
      log w1 = log w ++ l /\
      filter motor_event l = iterations blocks /\
      length blocks = k /\
      Forall (fun vs => length vs = 5%nat) blocks /\
      stepper_body E dir m INT_MAX t1 w1 = Undef w' /\
      log w' = log w1 ++ l' /\
      filter motor_event l' = map (EvOut PORTE) vs /\ length vs = 5%nat.
Proof.
  intros HE Hd. induction k as [|k IH]; intros steps t w Hle Hk.
  - assert (steps = INT_MAX) by lia. subst steps.
    destruct (stepper_body_overflow_log dir m t w Hd)
      as (w' & l' & vs & H1 & L1 & M1 & N1).
    exists 1%nat, w', w, t, [], [], l', vs.
    rewrite stepper_loop_unfold, Z.leb_refl, app_nil_r.
    repeat split; try assumption; try constructor.
    unfold bind. now rewrite H1.
  - destruct (stepper_body_run E dir m steps t w Hd) as
      (t' & w1 & l1 & vs1 & H1 & L1 & M1 & N1); [lia|].
    destruct (wait_ms_timely E 2 w1 HE) as (f1 & w2 & H2);
      [lia|].
    destruct (wait_ms_motor E f1 2 w1) as (l2 & L2 & M2).
    rewrite H2 in L2. cbn [world_of] in L2.
    destruct (IH (steps + 1) t' w2)
      as (f2 & w' & w3 & t3 & l3 & blocks & l' & vs &
          H3 & L3 & M3 & N3 & F3 & Hb & L' & M' & N'); [lia | lia |].
    exists (S (Nat.max f1 f2)), w', w3, t3, (l1 ++ l2 ++ l3),
           (vs1 :: blocks), l', vs.
    repeat split; try assumption.
    + rewrite stepper_loop_unfold.
      destruct (Z.leb_spec steps INT_MAX); [|lia].
      rewrite (bind_run _ _ _ _ _ H1).
      rewrite (bind_run _ _ _ _ _
                 (wait_ms_le E f1 (Nat.max f1 f2) 2 w1 w2
                    (Nat.le_max_l f1 f2) H2)).
      cbn [fst snd].
      apply (stepper_loop_undef_le INT_MAX dir m f2 (Nat.max f1 f2));
        [|exact H3].
      apply Nat.le_max_r.
    + rewrite L3, L2, L1, <- !app_assoc. reflexivity.
    + rewrite !motor_app, M1, M2, M3, iterations_cons. reflexivity.
    + cbn [length]. now rewrite N3.
    + now constructor.
Qed.

End Overflow.

(** X14. Below [INT_MAX] the count of steps cannot overflow: for every
    [num_steps < INT_MAX], negative ones included, every direction and
    every fuel, a call of [move_stepper_motor_by_step] has returned or
    is still running; it never reaches the undefined increment. *)
Theorem stepper_no_overflow E fuel num_steps direction w :
  num_steps < INT_MAX ->
  (exists w',
     move_stepper_motor_by_step E fuel num_steps direction w = Done tt w') \/
  (exists w',
     move_stepper_motor_by_step E fuel num_steps direction w = Spin w').
Proof.
  intros Hns.
  destruct (move_stepper_entry E fuel num_steps direction w) as (n & ->).
  now apply stepper_loop_defined.
Qed.

Lemma stepper_no_overflow_witness :
  (exists w',
     move_stepper_motor_by_step env_steady 10 1 1 w_reset = Done tt w') \/
  (exists w',
     move_stepper_motor_by_step env_steady 10 1 1 w_reset = Spin w').
Proof.
  apply (stepper_no_overflow env_steady 10 1 1 w_reset).
  unfold INT_MAX. lia.
Defined.

(** X15. At [num_steps = INT_MAX] the overflow does happen.  With the
    timer running and a valid direction, the call runs into undefined
    behaviour, and the log tells where: after 32767 completed
    iterations, each of five stores to PORTE and a [wait_ms 2], the
    body is run once more, with [steps = INT_MAX]; it makes its five
    stores to PORTE, and the increment of [steps] that follows is the
    signed overflow. *)
Theorem stepper_overflows_at_int_max E direction w :
  timely E -> direction = 1 \/ direction = -1 ->
  exists fuel w' w1 t l blocks l' vs,
    move_stepper_motor_by_step E fuel INT_MAX direction w = Undef w' /\
    log w1 = log w ++ l /\
    filter motor_event l = iterations blocks /\
    Z.of_nat (length blocks) = 32767 /\
    Forall (fun vs => length vs = 5%nat) blocks /\
    stepper_body E direction (Z.land (io w PORTE) 0x0F) INT_MAX t w1
    = Undef w' /\
    log w' = log w1 ++ l' /\
    filter motor_event l' = map (EvOut PORTE) vs /\ length vs = 5%nat.
Proof.
  intros HE Hd.
  destruct (move_stepper_entry E 0 INT_MAX direction w) as (n & _).
  destruct (rd_flat E PORTE w ltac:(discriminate)) as (n0 & Hrd).
  match type of Hrd with
  | _ = Done _ ?W =>
      destruct (stepper_loop_overflows E direction
                  (Z.land (io w PORTE) 0x0F) HE Hd
                  (Z.to_nat (INT_MAX - 0)) 0 0x10 W
                  ltac:(unfold INT_MAX; lia) eq_refl)
        as (fuel & w' & w1 & t & l & blocks & l' & vs &
            H & L & M & N & F & Hb & L' & M' & N')
  end.
  cbn [log] in L.
  exists fuel, w', w1, t,
         ((repeat EvIsr n0 ++ [EvIn PORTE (io w PORTE)]) ++ l),
         blocks, l', vs.
  repeat split; try assumption.
  - unfold move_stepper_motor_by_step. cbv zeta.
    rewrite (bind_run _ _ _ _ _ Hrd).
    rewrite int8_small; [exact H|].
    pose proof (land_15_range (io w PORTE)). lia.
  - rewrite L, <- !app_assoc. reflexivity.
  - rewrite !motor_app, motor_isr, M. reflexivity.
  - rewrite N. unfold INT_MAX. rewrite Z2Nat.id; lia.
Qed.

Lemma stepper_overflows_at_int_max_witness :
  exists fuel w',
    move_stepper_motor_by_step env_steady fuel INT_MAX 1 w_reset = Undef w'.
Proof.
  destruct (stepper_overflows_at_int_max env_steady 1 w_reset)
    as (fuel & w' & _ & _ & _ & _ & _ & _ & H & _).
  - exact (steady_timely env_steady steady_env_steady).
  - left. reflexivity.
  - exists fuel, w'. exact H.
Defined.

(** ** How long the stepper takes, and its initialiser *)

Section Timing.

Variable E : env.

(** A returning [wait_ms 2] has seen at least two handler runs. *)
Lemma wait_ms_ticks fuel w w' :
  wait_ms E fuel 2 w = Done tt w' -> 2 <= isr_between w w'.
Proof.
  intros H.
  destruct (wait_ms_returns E fuel 2 w w' H)
    as (_ & _ & _ & _ & _ & _ & (_ & Hn & _) & _).
  apply Hn. lia.
Qed.

Lemma stepper_loop_ticks ns dir m fuel :
  dir = 1 \/ dir = -1 ->
  forall steps t w w',
    steps <= ns + 1 ->
    stepper_loop E fuel ns dir m steps t w = Done tt w' ->
    2 * (ns + 1 - steps) <= isr_between w w'.
Proof.
  intros Hd. induction fuel as [|fuel IH]; intros steps t w w' Hs H;
    cbn [stepper_loop] in H; [discriminate|].
  destruct (Z.leb_spec steps ns) as [Hle|Hgt].
  - apply bind_Done in H as (st & w1 & H1 & H).
    apply bind_Done in H as ([] & w2 & H2 & H).
    apply (stepper_body_done E dir m steps t w st w1 Hd) in H1
      as (_ & Hst & l1 & vs & L1 & _).
    apply wait_ms_ticks in H2. rewrite Hst in H.
    apply IH in H; [|lia].
    pose proof (isr_between_app _ _ _ L1) as B1.
    pose proof (count_isr_nonneg l1).
    unfold isr_between in *. lia.
  - injection H as <-. unfold isr_between. lia.
Qed.

End Timing.

(** X16. A call of [move_stepper_motor_by_step] that returns has taken
    at least two ticks of the timer per iteration: between entry and
    return the handler has run at least [2 * (num_steps + 1)] times. *)
Theorem stepper_takes_time E fuel num_steps direction w w' :
  0 <= num_steps -> direction = 1 \/ direction = -1 ->
  move_stepper_motor_by_step E fuel num_steps direction w = Done tt w' ->
  2 * (num_steps + 1) <= isr_between w w'.
Proof.
  intros Hns Hd.
  destruct (move_stepper_entry E fuel num_steps direction w) as (n & ->).
  intros H.
  apply (stepper_loop_ticks E num_steps direction _ fuel Hd) in H; [|lia].
  unfold isr_between in *. cbn [log] in H.
  rewrite !count_isr_app, count_isr_repeat in H. cbn [count_isr] in H. lia.
Qed.

Lemma stepper_takes_time_witness :
  2 * (1 + 1) <=
  isr_between w_reset
    (world_of (move_stepper_motor_by_step env_steady 10 1 1 w_reset)).
Proof.
  apply (stepper_takes_time env_steady 10 1 1 w_reset).
  - lia.
  - left. reflexivity.
  - vm_compute. reflexivity.
Defined.

Section Stepper_init.

Variable E : env.

Lemma land_land p a b : Z.land (Z.land p a) b = Z.land p (Z.land a b).
Proof. now rewrite Z.land_assoc. Qed.

(** A returning [stepper_init], in its three parts: the stores before
    the delay, the delay, the store after it. *)
Lemma stepper_init_run fuel w w' :
  stepper_init E fuel w = Done tt w' ->
  exists w1 l1 l2 l3,
    io w1 PORTE = Z.land (io w PORTE) 0x8F /\
    io w1 DDRE = uint8 (Z.lor (io w DDRE) 0xF0) /\
    (forall r, r <> DDRE -> r <> PORTE -> io w1 r = io w r) /\
    old_value w1 = old_value w /\
    log w1 = log w ++ l1 /\
    filter motor_event l1 = [EvOut PORTE (Z.land (io w PORTE) 0x8F)] /\
    exists w2,
      wait_ms E fuel 2 w1 = Done tt w2 /\
      log w2 = log w1 ++ l2 /\ filter motor_event l2 = [EvWait 2] /\
      io w' PORTE = Z.land (io w PORTE) 0x0F /\
      (forall r, r <> PORTE -> io w' r = io w2 r) /\
      old_value w' = old_value w2 /\ iflag w' = iflag w2 /\
      log w' = log w2 ++ l3 /\
      filter motor_event l3 = [EvOut PORTE (Z.land (io w PORTE) 0x0F)].
Proof.
  unfold stepper_init. do 4 flat_step.
  rewrite !uint8_land_idem by lia.
  match goal with
  | |- bind (wait_ms E fuel 2) _ ?W = _ -> _ => set (w1 := W)
  end.
  intros H. apply bind_Done in H as ([] & w2 & H2 & H).
  destruct (wait_ms_returns E fuel 2 w1 w2 H2) as (_ & _ & _ & R4 & _).
  destruct (wait_ms_motor E fuel 2 w1) as (l2 & L2 & M2).
  rewrite H2 in L2. cbn [world_of] in L2.
  destruct (rd_flat E PORTE w2 ltac:(discriminate)) as (k1 & Hr).
  rewrite (bind_run _ _ _ _ _ Hr) in H.
  match type of H with
  | wr E PORTE ?v ?W = _ => destruct (wr_flat E PORTE v W) as (k2 & Hw)
  end.
  rewrite Hw in H. injection H as <-.
  cbn [io iflag old_value log upd reg_eqb].
  rewrite (R4 PORTE) by discriminate.
  assert (Hp : io w1 PORTE = Z.land (io w PORTE) 143) by reflexivity.
  rewrite Hp, land_land. change (Z.land 143 15) with 15.
  rewrite uint8_land_idem by lia.
  exists w1. eexists _, l2, _.
  repeat apply conj; try reflexivity.
  - intros r H1 H3. unfold w1. cbn [io]. unfold upd.
    destruct r; try reflexivity; contradiction.
  - unfold w1. cbn [log]. rewrite <- !app_assoc. reflexivity.
  - repeat (rewrite motor_app, motor_isr; cbn [filter motor_event app]).
    reflexivity.
  - exists w2. repeat apply conj; try reflexivity; try assumption.
    + intros r Hr'. unfold upd. destruct r; try reflexivity; contradiction.
    + rewrite <- !app_assoc. reflexivity.
    + repeat (rewrite motor_app, motor_isr; cbn [filter motor_event app]).
      reflexivity.
Qed.

End Stepper_init.

(** X17. A returning [stepper_init] has set bits 4-7 of DDRE (PE4-PE7
    are outputs) and made two stores to PORTE with a delay of at least
    two ticks between them: first PORTE with bits 4-6 cleared and bit 7
    as it was (the store keeps bit 7, it does not set it), then, after
    [wait_ms 2], PORTE with bits 4-7 cleared.  The low nibble of PORTE,
    the low nibble of DDRE, the registers of port C and [old_value] are
    as before. *)
Theorem stepper_init_effect E fuel w w' :
  stepper_init E fuel w = Done tt w' ->
  (forall i, 0 <= i < 8 ->
     Z.testbit (io w' DDRE) i =
     if i <? 4 then Z.testbit (io w DDRE) i else true) /\
  io w' PORTE = Z.land (io w PORTE) 0x0F /\
  (forall r, r <> DDRE -> r <> PORTE -> timer_regs r = false ->
     io w' r = io w r) /\
  old_value w' = old_value w /\
  (exists l,
     log w' = log w ++ l /\
     filter motor_event l =
       [EvOut PORTE (Z.land (io w PORTE) 0x8F); EvWait 2;
        EvOut PORTE (Z.land (io w PORTE) 0x0F)]) /\
  2 <= isr_between w w'.
Proof.
  intros H.
  destruct (stepper_init_run E fuel w w' H)
    as (w1 & l1 & l2 & l3 & P1 & D1 & F1 & O1 & L1 & M1 &
        w2 & H2 & L2 & M2 & P3 & F3 & O3 & _ & L3 & M3).
  destruct (wait_ms_returns E fuel 2 w1 w2 H2)
    as (_ & _ & _ & R4 & _ & R6 & _).
  pose proof (wait_ms_ticks E fuel w1 w2 H2) as T2.
  repeat apply conj.
  - intros i Hi. rewrite F3, R4, D1 by discriminate.
    rewrite uint8_bits, Z.lor_spec by exact Hi.
    assert (Hc : i = 0 \/ i = 1 \/ i = 2 \/ i = 3 \/ i = 4 \/ i = 5 \/
                 i = 6 \/ i = 7) by lia.
    destruct Hc as [Hc|[Hc|[Hc|[Hc|[Hc|[Hc|[Hc|Hc]]]]]]]; subst i;
      cbn [Z.ltb Z.compare Pos.compare Pos.compare_cont];
      first [apply orb_false_r | apply orb_true_r].
  - exact P3.
  - intros r H1 H3 H4. rewrite F3, R4, F1; trivial;
      destruct r; try discriminate; try reflexivity; contradiction.
  - now rewrite O3, R6.
  - exists (l1 ++ l2 ++ l3). split.
    + rewrite L3, L2, L1, <- !app_assoc. reflexivity.
    + rewrite !motor_app, M1, M2, M3. reflexivity.
  - pose proof (isr_between_app _ _ _ L1) as B1.
    pose proof (isr_between_app _ _ _ L3) as B3.
    pose proof (count_isr_nonneg l1). pose proof (count_isr_nonneg l3).
    unfold isr_between in *. lia.
Qed.

Lemma stepper_init_effect_witness :
  io (world_of (stepper_init env_steady 10 w_porte)) PORTE =
  Z.land (io w_porte PORTE) 0x0F.
Proof.
  refine (proj1 (proj2 (stepper_init_effect env_steady 10 w_porte _ _))).
  vm_compute. reflexivity.
Defined.

(** X18. With the timer running, [stepper_init] returns. *)
Theorem stepper_init_returns E w :
  timely E -> exists fuel w', stepper_init E fuel w = Done tt w'.
Proof.
  intros HE. unfold stepper_init.
  destruct (total_bind _ _ (total_rd E DDRE)
              (fun v => total_wr E DDRE (Z.lor v 0xF0)) w) as ([] & wa & Ha).
  destruct (total_bind _ _ (total_rd E PORTE)
              (fun v => total_wr E PORTE (Z.land v 0x8F)) wa)
    as ([] & wb & Hb).
  destruct (wait_ms_timely E 2 wb HE) as (fuel & wc & Hc);
    [lia|].
  destruct (total_bind _ _ (total_rd E PORTE)
              (fun v => total_wr E PORTE (Z.land v 0x0F)) wc)
    as ([] & wd & Hd).
  exists fuel, wd.
  rewrite <- (bind_assoc (rd E DDRE) (fun v => wr E DDRE (Z.lor v 0xF0))).
  rewrite (bind_run _ _ _ _ _ Ha).
  rewrite <- (bind_assoc (rd E PORTE) (fun v => wr E PORTE (Z.land v 0x8F))).
  rewrite (bind_run _ _ _ _ _ Hb).
  rewrite (bind_run _ _ _ _ _ Hc). exact Hd.
Qed.

Lemma stepper_init_returns_witness :
  exists fuel w', stepper_init env_steady fuel w_reset = Done tt w'.
Proof.
  apply (stepper_init_returns env_steady w_reset).
  exact (steady_timely env_steady steady_env_steady).
Defined.
